(** * seroval: the two-phase serializer, embedded and checked against its specification

    The development follows the sources:
    - [core/serializer-context.ts]  (BaseSerializerContext: IR -> source text),
    - [core/tree/async.ts], [core/cross/async.ts] and the synchronous parser
      (value graph -> IR),
    - [core/Serializer.ts]          (the streaming driver).

    Stateful code is written in explicit state-passing style over a small
    state-and-exception monad; a JavaScript [throw] is the [Throw] result. *)

From Stdlib Require Import ZArith NArith List Bool Ascii String Lia.
From stdpp Require Import base option list gmap strings pretty.

Open Scope string_scope.

(** ** Results of fallible code *)

Inductive SerovalError :=
| UnsupportedTypeError            (* new UnsupportedTypeError(current) *)
| InvariantError                  (* new Error('invariant') *)
| MissingPluginError (tag : string)
| AssertionError (message : string)
| TypeError                       (* the host's own error on reading a field of undefined *)
| HostError (message : string)    (* thrown by code outside the modelled files *)
| OutOfFuel.                      (* the recursion budget of a parser run is used up *)

Inductive Result (A : Type) :=
| Ok (a : A)
| Throw (e : SerovalError).
Arguments Ok {A} a.
Arguments Throw {A} e.

(** ** Stateful, fallible code

    [M S A]: a computation over a state [S] that returns an [A] or throws. *)

Definition M (S A : Type) : Type := S -> Result (A * S).

Definition ret {S A} (a : A) : M S A := fun c => Ok (a, c).
Definition throw {S A} (e : SerovalError) : M S A := fun _ => Throw e.
Definition bind {S A B} (m : M S A) (f : A -> M S B) : M S B :=
  fun c => match m c with
           | Ok (a, c') => f a c'
           | Throw e => Throw e
           end.
Definition gets {S A} (f : S -> A) : M S A := fun c => Ok (f c, c).
Definition modify {S} (f : S -> S) : M S unit := fun c => Ok (tt, f c).

(** [assert(cond, error)] *)
Definition assert {S} (cond : bool) (e : SerovalError) : M S unit :=
  if cond then ret tt else throw e.

Declare Scope ser_scope.
Delimit Scope ser_scope with ser.
Notation "x <- m ;; k" := (bind m (fun x => k))
  (at level 100, m at level 99, right associativity) : ser_scope.
Notation "m ;;; k" := (bind m (fun _ => k))
  (at level 100, right associativity) : ser_scope.
Open Scope ser_scope.

(** ** Feature matrix *)

Module Feature.
(** Modelled from the spec: the Feature bitset of [core/compat.ts] (the file is
    not among the sources).  Spec 4.1 lists the idioms; each is one bit, in the
    order of that list. *)
Definition AggregateError : N := 1.
Definition ArrayPrototypeValues : N := 2.
Definition ArrowFunction : N := 4.
Definition BigInt : N := 8.
Definition BigIntTypedArray : N := 16.
Definition ErrorPrototypeStack : N := 32.
Definition Map : N := 64.
Definition MethodShorthand : N := 128.
Definition ObjectAssign : N := 256.
Definition Promise : N := 512.
Definition Set_ : N := 1024.
Definition Symbol : N := 2048.
Definition TypedArray : N := 4096.
Definition WebAPI : N := 8192.
Definition ALL : N := 16383.
End Feature.

(** [features & flag], read as a JavaScript condition. *)
Definition hasFeature (features flag : N) : bool :=
  negb (N.eqb (N.land features flag) 0).

(** [BIGINT_FLAG = Feature.BigIntTypedArray | Feature.BigInt] *)
Definition BIGINT_FLAG : N := N.lor Feature.BigIntTypedArray Feature.BigInt.

(** [(features & BIGINT_FLAG) === BIGINT_FLAG] *)
Definition hasBigIntFlag (features : N) : bool :=
  N.eqb (N.land features BIGINT_FLAG) BIGINT_FLAG.

(** [enabled = ALL & ~disabled] (spec 4.1). *)
Definition enabledFeatures (disabled : N) : N :=
  N.ldiff Feature.ALL disabled.

(** ** Numbers of the host

    A JavaScript number is kept by its class; the finite ones are kept to the
    integers, which is all the serializer computes with (lengths, offsets,
    bytes, indices). *)

Inductive JSNumber :=
| NaN
| Infinity
| NegInfinity
| NegZero
| Finite (z : Z).

(** ['' + value] *)
Definition numberToString (n : JSNumber) : string :=
  match n with
  | NaN => "NaN"
  | Infinity => "Infinity"
  | NegInfinity => "-Infinity"
  | NegZero => "0"
  | Finite z => pretty z
  end.

(** ** Node IR *)

Inductive SerovalConstant :=
| CTrue | CFalse | CUndefined | CNull
| CNegativeZero | CInfinity | CNegativeInfinity | CNaN.

Inductive SerovalObjectFlags :=
| FlagNone | NonExtensible | Sealed | Frozen.

Inductive ErrorConstructorTag :=
| TagError | TagEvalError | TagRangeError | TagReferenceError
| TagSyntaxError | TagTypeError | TagURIError.

(** [SerovalObjectRecordKey = string | SerovalObjectRecordSpecialKey] *)
Inductive SerovalObjectRecordKey :=
| KeyString (key : string)
| SymbolIterator.

(** The records [{k, v, s}]: the parsers fill [k] and [v] in lockstep, so a
    record is kept as the list of its pairs [(k[j], v[j])] with the stored
    size [s] beside it. *)
Record RecordNode (K N : Type) := mkRecordNode {
  kv : list (K * N);
  s_size : nat;
}.
Arguments mkRecordNode {K N} kv s_size.
Arguments kv {K N} r.
Arguments s_size {K N} r.

Scheme All for option.
Scheme All for list.
Scheme All for prod.
Scheme All for RecordNode.

(** The payload a plugin stores in its node: opaque to the serializer. *)
Definition PluginData := string.

Inductive SerovalNode :=
| ConstantNode (s : SerovalConstant)
| NumberNode (s : JSNumber)
| StringNode (s : string)
| BigIntNode (s : string)
| IndexedValueNode (i : nat)
| ReferenceNode (i : nat) (s : string)
| ArrayNode (i : nat) (l : nat) (a : list (option SerovalNode)) (o : SerovalObjectFlags)
| ObjectNode (i : nat) (p : RecordNode SerovalObjectRecordKey SerovalNode) (o : SerovalObjectFlags)
| NullConstructorNode (i : nat) (p : RecordNode SerovalObjectRecordKey SerovalNode) (o : SerovalObjectFlags)
| DateNode (i : nat) (s : string)
| RegExpNode (i : nat) (c m : string)
| SetNode (i : nat) (l : nat) (a : list SerovalNode)
| MapNode (i : nat) (e : RecordNode SerovalNode SerovalNode)
| ArrayBufferNode (i : nat) (s : list N)
| BigIntTypedArrayNode (i : nat) (l : nat) (c : string) (f : SerovalNode) (b : nat)
| TypedArrayNode (i : nat) (l : nat) (c : string) (f : SerovalNode) (b : nat)
| DataViewNode (i : nat) (l : nat) (f : SerovalNode) (b : nat)
| AggregateErrorNode (i : nat) (m : string) (p : option (RecordNode SerovalObjectRecordKey SerovalNode))
| ErrorNode (i : nat) (s : option ErrorConstructorTag) (c : option string) (m : string)
    (p : option (RecordNode SerovalObjectRecordKey SerovalNode))
| PromiseNode (i : nat) (s : nat) (f : SerovalNode)
| WKSymbolNode (i : nat) (s : nat)
| URLNode (i : nat) (s : string)
| URLSearchParamsNode (i : nat) (s : string)
| BlobNode (i : nat) (c : string) (f : SerovalNode)
| FileNode (i : nat) (c m : string) (f : SerovalNode) (b : Z)
| HeadersNode (i : nat) (e : RecordNode string SerovalNode)
| FormDataNode (i : nat) (e : RecordNode string SerovalNode)
| BoxedNode (i : nat) (f : SerovalNode)
| PromiseConstructorNode (i : nat)
| PromiseResolveNode (i : nat) (f : SerovalNode)
| PromiseRejectNode (i : nat) (f : SerovalNode)
| ReadableStreamConstructorNode (i : nat)
| ReadableStreamEnqueueNode (i : nat) (f : SerovalNode)
| ReadableStreamErrorNode (i : nat) (f : SerovalNode)
| ReadableStreamCloseNode (i : nat)
| RequestNode (i : nat) (s : string) (f : SerovalNode)
| ResponseNode (i : nat) (a0 a1 : SerovalNode)
| EventNode (i : nat) (s : string) (f : SerovalNode)
| CustomEventNode (i : nat) (s : string) (f : SerovalNode)
| DOMExceptionNode (i : nat) (s c : string)
| PluginNode (i : nat) (c : string) (s : PluginData)
| UnknownNode (t : nat).

(** [node.t === SerovalNodeType.IndexedValue] *)
Definition isIndexedValue (node : SerovalNode) : bool :=
  match node with IndexedValueNode _ => true | _ => false end.

(** [node.i], [undefined] on the nodes of primitives. *)
Definition node_i (node : SerovalNode) : option nat :=
  match node with
  | ConstantNode _ | NumberNode _ | StringNode _ | BigIntNode _ | UnknownNode _ => None
  | IndexedValueNode i | ReferenceNode i _ | ArrayNode i _ _ _ | ObjectNode i _ _
  | NullConstructorNode i _ _ | DateNode i _ | RegExpNode i _ _ | SetNode i _ _
  | MapNode i _ | ArrayBufferNode i _ | BigIntTypedArrayNode i _ _ _ _
  | TypedArrayNode i _ _ _ _ | DataViewNode i _ _ _ | AggregateErrorNode i _ _
  | ErrorNode i _ _ _ _ | PromiseNode i _ _ | WKSymbolNode i _ | URLNode i _
  | URLSearchParamsNode i _ | BlobNode i _ _ | FileNode i _ _ _ _ | HeadersNode i _
  | FormDataNode i _ | BoxedNode i _ | PromiseConstructorNode i | PromiseResolveNode i _
  | PromiseRejectNode i _ | ReadableStreamConstructorNode i | ReadableStreamEnqueueNode i _
  | ReadableStreamErrorNode i _ | ReadableStreamCloseNode i | RequestNode i _ _
  | ResponseNode i _ _ | EventNode i _ _ | CustomEventNode i _ _ | DOMExceptionNode i _ _
  | PluginNode i _ _ => Some i
  end.

(** Modelled from the spec: [CONSTANT_STRING] of [core/constants.ts] (not among
    the sources).  Spec 3 says the constants are emitted as literal forms and
    spec 8.7 fixes the one of [Infinity] to [1/0]; the others follow that
    pattern. *)
Definition CONSTANT_STRING (c : SerovalConstant) : string :=
  match c with
  | CTrue => "!0"
  | CFalse => "!1"
  | CUndefined => "void 0"
  | CNull => "null"
  | CNegativeZero => "-0"
  | CInfinity => "1/0"
  | CNegativeInfinity => "-1/0"
  | CNaN => "0/0"
  end.

(** Modelled from the spec: [ERROR_CONSTRUCTOR_STRING] (spec 4.5.6, "a small
    enumerated table"); the names are those of the parsers' dispatch. *)
Definition ERROR_CONSTRUCTOR_STRING (t : ErrorConstructorTag) : string :=
  match t with
  | TagError => "Error"
  | TagEvalError => "EvalError"
  | TagRangeError => "RangeError"
  | TagReferenceError => "ReferenceError"
  | TagSyntaxError => "SyntaxError"
  | TagTypeError => "TypeError"
  | TagURIError => "URIError"
  end.

(** ** BaseSerializerContext: the state *)

Inductive AssignmentType := AIndex | AAdd | ASet.

(** [Assignment = {t, s, k, v}] of [core/assignments.ts]. *)
Record Assignment := mkAssignment {
  a_t : AssignmentType;
  a_s : string;
  a_k : option string;
  a_v : string;
}.

(** [FlaggedObject = {type, value}] *)
Record FlaggedObject := mkFlaggedObject {
  f_type : SerovalObjectFlags;
  f_value : string;
}.

(** The fields of [BaseSerializerContext]; [ext] is what a concrete subclass
    adds (its table of names, its scope, ...). *)
Record SerCtx (Ext : Type) := mkSerCtx {
  features : N;
  stack : list nat;
  flags : list FlaggedObject;
  assignments : list Assignment;
  marked : gset nat;
  deferred : gmap nat string;
  ext : Ext;
}.
Arguments mkSerCtx {Ext}.
Arguments features {Ext} _.
Arguments stack {Ext} _.
Arguments flags {Ext} _.
Arguments assignments {Ext} _.
Arguments marked {Ext} _.
Arguments deferred {Ext} _.
Arguments ext {Ext} _.

Definition set_stack {Ext} (st : list nat) (c : SerCtx Ext) : SerCtx Ext :=
  mkSerCtx (features c) st (flags c) (assignments c) (marked c) (deferred c) (ext c).
Definition set_flags {Ext} (fl : list FlaggedObject) (c : SerCtx Ext) : SerCtx Ext :=
  mkSerCtx (features c) (stack c) fl (assignments c) (marked c) (deferred c) (ext c).
Definition set_assignments {Ext} (asg : list Assignment) (c : SerCtx Ext) : SerCtx Ext :=
  mkSerCtx (features c) (stack c) (flags c) asg (marked c) (deferred c) (ext c).
Definition set_marked {Ext} (mk : gset nat) (c : SerCtx Ext) : SerCtx Ext :=
  mkSerCtx (features c) (stack c) (flags c) (assignments c) mk (deferred c) (ext c).
Definition set_deferred {Ext} (df : gmap nat string) (c : SerCtx Ext) : SerCtx Ext :=
  mkSerCtx (features c) (stack c) (flags c) (assignments c) (marked c) df (ext c).
Definition set_ext {Ext} (e : Ext) (c : SerCtx Ext) : SerCtx Ext :=
  mkSerCtx (features c) (stack c) (flags c) (assignments c) (marked c) (deferred c) e.

(** A method of the context: it reads and updates the fields and returns or throws. *)
Abbreviation SerM Ext := (M (SerCtx Ext)).

(** A plugin, as the serializer uses it: its tag and its [serialize]. *)
Record Plugin (Ext : Type) := mkPlugin {
  tag : string;
  plugin_serialize : PluginData -> nat -> SerM Ext string;
}.
Arguments tag {Ext} _.
Arguments plugin_serialize {Ext} _.

(** What [BaseSerializerContext] leaves to its subclass (the abstract methods)
    and what it imports from files that are not among the sources.  A method
    for a streaming node receives the serialization of the node's child as a
    computation, which it runs where its own body calls [this.serialize]. *)
Class Host (Ext : Type) := mkHost {
  getRefParam : nat -> SerM Ext string;
  assignIndexedValue : nat -> string -> SerM Ext string;
  serializePromiseConstructor : nat -> SerM Ext string;
  serializePromiseResolve : nat -> SerM Ext string -> SerM Ext string;
  serializePromiseReject : nat -> SerM Ext string -> SerM Ext string;
  serializeReadableStreamConstructor : nat -> SerM Ext string;
  serializeReadableStreamEnqueue : nat -> SerM Ext string -> SerM Ext string;
  serializeReadableStreamError : nat -> SerM Ext string -> SerM Ext string;
  serializeReadableStreamClose : nat -> SerM Ext string;
  plugins : option (list (Plugin Ext));
  resolveAssignments : list Assignment -> option string;
  resolveFlags : list FlaggedObject -> option string;
  isValidIdentifier : string -> bool;
  ToNumber : string -> JSNumber;
  SYMBOL_STRING : nat -> string;
  REFERENCES_KEY : string;
}.

(** [check >= 0] *)
Definition geZero (n : JSNumber) : bool :=
  match n with
  | NaN | NegInfinity => false
  | Infinity | NegZero => true
  | Finite z => (0 <=? z)%Z
  end.

(** [check !== check] *)
Definition notSelfEqual (n : JSNumber) : bool :=
  match n with NaN => true | _ => false end.

(** The double quote, as a one-character string. *)
Definition dq : string := String "034"%char EmptyString.

(** ['"' + s + '"'] *)
Definition quoted (s : string) : string := dq +:+ s +:+ dq.

(** A string read as a condition: [''] is falsy. *)
Definition truthy (s : string) : bool :=
  match s with EmptyString => false | _ => true end.

(** [item && ','] *)
Definition andComma (item : string) : string :=
  if truthy item then "," else item.

Open Scope list_scope.

(** ** BaseSerializerContext: the methods *)

Section BaseSerializerContext.
Context {Ext : Type} `{Host Ext}.

Definition NULL_CONSTRUCTOR : string := "Object.create(null)".
Definition SET_CONSTRUCTOR : string := "new Set".
Definition MAP_CONSTRUCTOR : string := "new Map".
Definition PROMISE_RESOLVE : string := "Promise.resolve".
Definition PROMISE_REJECT : string := "Promise.reject".

(** [this.marked.add(id)] *)
Definition markRef (id : nat) : SerM Ext unit :=
  modify (fun c => set_marked ({[ id ]} ∪ marked c) c).

(** [this.marked.has(id)] *)
Definition isMarked (id : nat) : SerM Ext bool :=
  gets (fun c => bool_decide (id ∈ marked c)).

Definition pushObjectFlag (flag : SerovalObjectFlags) (id : nat) : SerM Ext unit :=
  match flag with
  | FlagNone => ret tt
  | _ =>
      markRef id ;;;
      value <- getRefParam id ;;
      modify (fun c => set_flags (flags c ++ [mkFlaggedObject flag value]) c)
  end.

Definition resolvePatches : SerM Ext (option string) :=
  asg <- gets (fun c => resolveAssignments (assignments c)) ;;
  fl <- gets (fun c => resolveFlags (flags c)) ;;
  ret (match asg with
       | Some a => if truthy a
                   then match fl with
                        | Some f => if truthy f then Some (a +:+ f) else Some a
                        | None => Some a
                        end
                   else fl
       | None => fl
       end).

Definition createAssignment (source value : string) : SerM Ext unit :=
  modify (fun c => set_assignments (assignments c ++ [mkAssignment AIndex source None value]) c).

Definition createAddAssignment (ref : nat) (value : string) : SerM Ext unit :=
  src <- getRefParam ref ;;
  modify (fun c => set_assignments (assignments c ++ [mkAssignment AAdd src None value]) c).

Definition createSetAssignment (ref : nat) (key value : string) : SerM Ext unit :=
  src <- getRefParam ref ;;
  modify (fun c => set_assignments (assignments c ++ [mkAssignment ASet src (Some key) value]) c).

Definition createArrayAssign (ref : nat) (index value : string) : SerM Ext unit :=
  src <- getRefParam ref ;;
  createAssignment (src +:+ "[" +:+ index +:+ "]") value.

Definition createObjectAssign (ref : nat) (key value : string) : SerM Ext unit :=
  markRef ref ;;;
  src <- getRefParam ref ;;
  createAssignment (src +:+ "." +:+ key) value.

(** [this.deferred.set(id, value)] *)
Definition defer (id : nat) (value : string) : SerM Ext unit :=
  modify (fun c => set_deferred (<[ id := value ]> (deferred c)) c).

(** [node.t === IndexedValue && this.stack.includes(node.i)] *)
Definition isIndexedValueInStack (node : SerovalNode) : SerM Ext bool :=
  match node with
  | IndexedValueNode i => gets (fun c => bool_decide (i ∈ stack c))
  | _ => ret false
  end.

(** [this.getRefParam((node as SerovalIndexedValueNode).i)] *)
Definition getRefParamOf (node : SerovalNode) : SerM Ext string :=
  match node_i node with
  | Some j => getRefParam j
  | None => throw TypeError
  end.

(** [this.stack.push(id)] and [this.stack.pop()] *)
Definition stack_push (id : nat) : SerM Ext unit :=
  modify (fun c => set_stack (stack c ++ [id]) c).
Definition stack_pop : SerM Ext unit :=
  modify (fun c => set_stack (removelast (stack c)) c).

Definition serializeReference (i : nat) (s : string) : SerM Ext string :=
  assignIndexedValue i (REFERENCES_KEY +:+ ".get(" +:+ quoted s +:+ ")").

Definition getIterableAccess : SerM Ext string :=
  gets (fun c => if hasFeature (features c) Feature.ArrayPrototypeValues
                 then ".values()" else "[Symbol.iterator]()").

Definition serializeIterable (serialize : SerovalNode -> SerM Ext string)
    (node : SerovalNode) : SerM Ext string :=
  parent <- gets stack ;;
  modify (set_stack []) ;;;
  r <- serialize node ;;
  acc <- getIterableAccess ;;
  let serialized := r +:+ acc in
  modify (set_stack parent) ;;;
  ft <- gets features ;;
  if hasFeature ft Feature.ArrowFunction then
    ret ("[Symbol.iterator]:()=>" +:+ serialized)
  else if hasFeature ft Feature.MethodShorthand then
    ret ("[Symbol.iterator](){return " +:+ serialized +:+ "}")
  else
    ret ("[Symbol.iterator]:function(){return " +:+ serialized +:+ "}").

Definition serializeArrayItem (serialize : SerovalNode -> SerM Ext string)
    (id : nat) (item : option SerovalNode) (index : nat) : SerM Ext string :=
  match item with
  | Some it =>
      onStack <- isIndexedValueInStack it ;;
      if onStack then
        markRef id ;;;
        ref <- getRefParamOf it ;;
        createArrayAssign id (pretty index) ref ;;;
        ret ""
      else serialize it
  | None => ret ""
  end.

(** The slots of [list] that lie beyond its end: every [list[i]] is [undefined]
    there, and [serializeArrayItem] returns [''] without touching the state. *)
Fixpoint arrayHoles (n : nat) (values : string) : string :=
  match n with
  | 0 => values
  | S n' => arrayHoles n' (values +:+ "," +:+ "")
  end.

(** The body of the [for] loop of [serializeArray], from index [idx] on. *)
Definition serializeArrayLoop (serialize : SerovalNode -> SerM Ext string) (id : nat) :=
  fix loop (n idx : nat) (list : list (option SerovalNode)) (values : string)
      (isHoley : bool) {struct list} : SerM Ext (string * bool) :=
    match n with
    | 0 => ret (values, isHoley)
    | S n' =>
        match list with
        | [] => ret (arrayHoles (S n') values, true)
        | item :: rest =>
            it <- serializeArrayItem serialize id item idx ;;
            loop n' (S idx) rest (values +:+ "," +:+ it) (negb (truthy it))
        end
    end.

Definition serializeArray (serialize : SerovalNode -> SerM Ext string)
    (i l : nat) (a : list (option SerovalNode)) (o : SerovalObjectFlags) : SerM Ext string :=
  let id := i in
  match l with
  | 0 => assignIndexedValue id "[]"
  | S len' =>
      stack_push id ;;;
      r <- (match a with
            | [] => ret (arrayHoles len' "", true)
            | item :: rest =>
                values <- serializeArrayItem serialize id item 0 ;;
                serializeArrayLoop serialize id len' 1 rest values (negb (truthy values))
            end) ;;
      stack_pop ;;;
      pushObjectFlag o i ;;;
      assignIndexedValue id ("[" +:+ fst r +:+ (if snd r then ",]" else "]"))
  end.

Definition serializeProperty (serialize : SerovalNode -> SerM Ext string)
    (id : nat) (key : SerovalObjectRecordKey) (val : SerovalNode) : SerM Ext string :=
  match key with
  | SymbolIterator => serializeIterable serialize val
  | KeyString key =>
      let check := ToNumber key in
      let isIdentifier := geZero check || notSelfEqual check || isValidIdentifier key in
      onStack <- isIndexedValueInStack val ;;
      if onStack then
        refParam <- getRefParamOf val ;;
        markRef id ;;;
        (if isIdentifier
         then createObjectAssign id key refParam
         else createArrayAssign id (if isIdentifier then key else quoted key) refParam) ;;;
        ret ""
      else
        r <- serialize val ;;
        ret ((if isIdentifier then key else quoted key) +:+ ":" +:+ r)
  end.

(** The [for] loop of [serializeProperties]; [toKey] reads a key of a plain
    record (a string) as a record key. *)
Definition serializePropertiesLoop {K : Type} (toKey : K -> SerovalObjectRecordKey)
    (serialize : SerovalNode -> SerM Ext string) (sourceID : nat) :=
  fix loop (n : nat) (entries : list (K * SerovalNode)) (result item : string)
      {struct entries} : SerM Ext string :=
    match n with
    | 0 => ret result
    | S n' =>
        match entries with
        | [] => throw TypeError
        | (key, val) :: rest =>
            it <- serializeProperty serialize sourceID (toKey key) val ;;
            loop n' rest (result +:+ andComma item +:+ it) it
        end
    end.

Definition serializeProperties {K : Type} (toKey : K -> SerovalObjectRecordKey)
    (serialize : SerovalNode -> SerM Ext string)
    (sourceID : nat) (node : RecordNode K SerovalNode) : SerM Ext string :=
  match s_size node with
  | 0 => ret "{}"
  | S len' =>
      stack_push sourceID ;;;
      result <- (match kv node with
                 | [] => throw TypeError
                 | (key, val) :: rest =>
                     first <- serializeProperty serialize sourceID (toKey key) val ;;
                     serializePropertiesLoop toKey serialize sourceID len' rest first first
                 end) ;;
      stack_pop ;;;
      ret ("{" +:+ result +:+ "}")
  end.

Definition serializeObject (serialize : SerovalNode -> SerM Ext string)
    (i : nat) (p : RecordNode SerovalObjectRecordKey SerovalNode)
    (o : SerovalObjectFlags) : SerM Ext string :=
  pushObjectFlag o i ;;;
  r <- serializeProperties (fun k => k) serialize i p ;;
  assignIndexedValue i r.

Definition serializeWithObjectAssign (serialize : SerovalNode -> SerM Ext string)
    (value : RecordNode SerovalObjectRecordKey SerovalNode) (id : nat)
    (serialized : string) : SerM Ext string :=
  fields <- serializeProperties (fun k => k) serialize id value ;;
  if String.eqb fields "{}" then ret serialized
  else ret ("Object.assign(" +:+ serialized +:+ "," +:+ fields +:+ ")").

(** [this.assignments = mainAssignments; body; this.assignments = parentAssignment]:
    [body] pushes onto the array [mainAssignments], which the caller keeps. *)
Definition withAssignments {A : Type} (mainAssignments : list Assignment)
    (body : SerM Ext A) : SerM Ext (list Assignment) :=
  parentAssignment <- gets assignments ;;
  modify (set_assignments mainAssignments) ;;;
  body ;;;
  main' <- gets assignments ;;
  modify (set_assignments parentAssignment) ;;;
  ret main'.

(** Returns the array [mainAssignments] as the call leaves it. *)
Definition serializeAssignment (serialize : SerovalNode -> SerM Ext string)
    (sourceID : nat) (mainAssignments : list Assignment)
    (key : SerovalObjectRecordKey) (value : SerovalNode) : SerM Ext (list Assignment) :=
  match key with
  | SymbolIterator =>
      parent <- gets stack ;;
      modify (set_stack []) ;;;
      r <- serialize value ;;
      acc <- getIterableAccess ;;
      let serialized := r +:+ acc in
      modify (set_stack parent) ;;;
      ft <- gets features ;;
      withAssignments mainAssignments
        (createArrayAssign sourceID "Symbol.iterator"
           (if hasFeature ft Feature.ArrowFunction
            then "()=>" +:+ serialized
            else "function(){return " +:+ serialized +:+ "}"))
  | KeyString key =>
      serialized <- serialize value ;;
      let check := ToNumber key in
      let isIdentifier := geZero check || notSelfEqual check || isValidIdentifier key in
      onStack <- isIndexedValueInStack value ;;
      if onStack then
        (if isIdentifier
         then createObjectAssign sourceID key serialized
         else createArrayAssign sourceID (if isIdentifier then key else quoted key) serialized) ;;;
        ret mainAssignments
      else
        withAssignments mainAssignments
          (if isIdentifier
           then createObjectAssign sourceID key serialized
           else createArrayAssign sourceID (if isIdentifier then key else quoted key) serialized)
  end.

Definition serializeAssignmentsLoop (serialize : SerovalNode -> SerM Ext string)
    (sourceID : nat) :=
  fix loop (n : nat) (entries : list (SerovalObjectRecordKey * SerovalNode))
      (mainAssignments : list Assignment) {struct entries} : SerM Ext (list Assignment) :=
    match n with
    | 0 => ret mainAssignments
    | S n' =>
        match entries with
        | [] => throw TypeError
        | (key, value) :: rest =>
            main' <- serializeAssignment serialize sourceID mainAssignments key value ;;
            loop n' rest main'
        end
    end.

Definition serializeAssignments (serialize : SerovalNode -> SerM Ext string)
    (sourceID : nat) (node : RecordNode SerovalObjectRecordKey SerovalNode)
    : SerM Ext (option string) :=
  match s_size node with
  | 0 => ret None
  | S _ =>
      stack_push sourceID ;;;
      mainAssignments <- serializeAssignmentsLoop serialize sourceID (s_size node) (kv node) [] ;;
      stack_pop ;;;
      ret (resolveAssignments mainAssignments)
  end.

Definition serializeDictionary (serialize : SerovalNode -> SerM Ext string)
    (i : nat) (p : option (RecordNode SerovalObjectRecordKey SerovalNode))
    (init : string) : SerM Ext string :=
  match p with
  | Some p =>
      ft <- gets features ;;
      if hasFeature ft Feature.ObjectAssign then
        init' <- serializeWithObjectAssign serialize p i init ;;
        assignIndexedValue i init'
      else
        markRef i ;;;
        asg <- serializeAssignments serialize i p ;;
        match asg with
        | Some a =>
            if truthy a then
              r <- assignIndexedValue i init ;;
              ref <- getRefParam i ;;
              ret ("(" +:+ r +:+ "," +:+ a +:+ ref +:+ ")")
            else assignIndexedValue i init
        | None => assignIndexedValue i init
        end
  | None => assignIndexedValue i init
  end.

Definition serializeNullConstructor (serialize : SerovalNode -> SerM Ext string)
    (i : nat) (p : RecordNode SerovalObjectRecordKey SerovalNode)
    (o : SerovalObjectFlags) : SerM Ext string :=
  pushObjectFlag o i ;;;
  serializeDictionary serialize i (Some p) NULL_CONSTRUCTOR.

Definition serializeDate (i : nat) (s : string) : SerM Ext string :=
  assignIndexedValue i ("new Date(" +:+ quoted s +:+ ")").

Definition serializeRegExp (i : nat) (c m : string) : SerM Ext string :=
  assignIndexedValue i ("/" +:+ c +:+ "/" +:+ m).

Definition serializeSetItem (serialize : SerovalNode -> SerM Ext string)
    (id : nat) (item : SerovalNode) : SerM Ext string :=
  onStack <- isIndexedValueInStack item ;;
  if onStack then
    markRef id ;;;
    ref <- getRefParamOf item ;;
    createAddAssignment id ref ;;;
    ret ""
  else serialize item.

Definition serializeSetLoop (serialize : SerovalNode -> SerM Ext string) (id : nat) :=
  fix loop (n : nat) (items : list SerovalNode) (result item : string)
      {struct items} : SerM Ext string :=
    match n with
    | 0 => ret result
    | S n' =>
        match items with
        | [] => throw TypeError
        | x :: rest =>
            it <- serializeSetItem serialize id x ;;
            loop n' rest (result +:+ andComma item +:+ it) it
        end
    end.

Definition serializeSet (serialize : SerovalNode -> SerM Ext string)
    (i l : nat) (a : list SerovalNode) : SerM Ext string :=
  let id := i in
  match l with
  | 0 => assignIndexedValue id SET_CONSTRUCTOR
  | S size' =>
      stack_push id ;;;
      result <- (match a with
                 | [] => throw TypeError
                 | x :: rest =>
                     first <- serializeSetItem serialize id x ;;
                     serializeSetLoop serialize id size' rest first first
                 end) ;;
      stack_pop ;;;
      assignIndexedValue id
        (if truthy result then SET_CONSTRUCTOR +:+ "([" +:+ result +:+ "])" else SET_CONSTRUCTOR)
  end.

(** [node.t !== IndexedValue && node.i != null && this.isMarked(node.i)] *)
Definition isMarkedOriginal (node : SerovalNode) : SerM Ext bool :=
  if isIndexedValue node then ret false
  else match node_i node with
       | Some j => isMarked j
       | None => ret false
       end.

Definition serializeMapEntry (serialize : SerovalNode -> SerM Ext string)
    (id : nat) (key val : SerovalNode) : SerM Ext string :=
  keyOnStack <- isIndexedValueInStack key ;;
  if keyOnStack then
    keyRef <- getRefParam id ;;
    markRef id ;;;
    valOnStack <- isIndexedValueInStack val ;;
    if valOnStack then
      valueRef <- getRefParamOf val ;;
      createSetAssignment id keyRef valueRef ;;;
      ret ""
    else
      parent <- gets stack ;;
      modify (set_stack []) ;;;
      test <- isMarkedOriginal val ;;
      (if test then
         r <- serialize val ;;
         match node_i val with
         | Some vi =>
             defer vi r ;;;
             ref <- getRefParam vi ;;
             createSetAssignment id keyRef ref
         | None => throw TypeError
         end
       else
         r <- serialize val ;;
         createSetAssignment id keyRef r) ;;;
      modify (set_stack parent) ;;;
      ret ""
  else
    valOnStack <- isIndexedValueInStack val ;;
    if valOnStack then
      valueRef <- getRefParamOf val ;;
      markRef id ;;;
      parent <- gets stack ;;
      modify (set_stack []) ;;;
      test <- isMarkedOriginal val ;;
      (if test then
         r <- serialize val ;;
         match node_i val with
         | Some vi =>
             defer vi r ;;;
             ref <- getRefParam vi ;;
             createSetAssignment id ref valueRef
         | None => throw TypeError
         end
       else
         r <- serialize key ;;
         createSetAssignment id r valueRef) ;;;
      modify (set_stack parent) ;;;
      ret ""
    else
      k <- serialize key ;;
      v <- serialize val ;;
      ret ("[" +:+ k +:+ "," +:+ v +:+ "]").

Definition serializeMapLoop (serialize : SerovalNode -> SerM Ext string) (id : nat) :=
  fix loop (n : nat) (entries : list (SerovalNode * SerovalNode)) (result item : string)
      {struct entries} : SerM Ext string :=
    match n with
    | 0 => ret result
    | S n' =>
        match entries with
        | [] => throw TypeError
        | (key, val) :: rest =>
            it <- serializeMapEntry serialize id key val ;;
            loop n' rest (result +:+ andComma item +:+ it) it
        end
    end.

Definition serializeMap (serialize : SerovalNode -> SerM Ext string)
    (i : nat) (e : RecordNode SerovalNode SerovalNode) : SerM Ext string :=
  let id := i in
  match s_size e with
  | 0 => assignIndexedValue id MAP_CONSTRUCTOR
  | S size' =>
      stack_push id ;;;
      result <- (match kv e with
                 | [] => throw TypeError
                 | (key, val) :: rest =>
                     first <- serializeMapEntry serialize id key val ;;
                     serializeMapLoop serialize id size' rest first first
                 end) ;;
      stack_pop ;;;
      assignIndexedValue id
        (if truthy result then MAP_CONSTRUCTOR +:+ "([" +:+ result +:+ "])" else MAP_CONSTRUCTOR)
  end.

(** The [for] loop of [serializeArrayBuffer], from index [i] on. *)
Fixpoint serializeArrayBufferLoop (i : nat) (buffer : list N) (result : string) : string :=
  match buffer with
  | [] => result
  | b :: rest =>
      serializeArrayBufferLoop (S i) rest
        (result +:+ (if Nat.ltb 0 i then "," else "") +:+ pretty b)
  end.

Definition serializeArrayBuffer (i : nat) (s : list N) : SerM Ext string :=
  let result := "new Uint8Array(" in
  let buffer := s in
  let result :=
    match length buffer with
    | 0 => result
    | S _ => serializeArrayBufferLoop 0 buffer (result +:+ "[") +:+ "]"
    end in
  assignIndexedValue i (result +:+ ").buffer").

Definition serializeTypedArray (serialize : SerovalNode -> SerM Ext string)
    (i l : nat) (c : string) (f : SerovalNode) (b : nat) : SerM Ext string :=
  r <- serialize f ;;
  assignIndexedValue i
    ("new " +:+ c +:+ "(" +:+ r +:+ "," +:+ pretty b +:+ "," +:+ pretty l +:+ ")").

Definition serializeDataView (serialize : SerovalNode -> SerM Ext string)
    (i l : nat) (f : SerovalNode) (b : nat) : SerM Ext string :=
  r <- serialize f ;;
  assignIndexedValue i
    ("new DataView(" +:+ r +:+ "," +:+ pretty b +:+ "," +:+ pretty l +:+ ")").

Definition serializeAggregateError (serialize : SerovalNode -> SerM Ext string)
    (i : nat) (m : string) (p : option (RecordNode SerovalObjectRecordKey SerovalNode))
    : SerM Ext string :=
  let id := i in
  stack_push id ;;;
  let serialized := "new AggregateError([]," +:+ quoted m +:+ ")" in
  stack_pop ;;;
  serializeDictionary serialize id p serialized.

(** [ERROR_CONSTRUCTOR_STRING[node.s]], as it prints inside a string: a node
    that spells its constructor in [c] has no [s], and the lookup is [undefined]. *)
Definition errorConstructorString (s : option ErrorConstructorTag) : string :=
  match s with
  | Some t => ERROR_CONSTRUCTOR_STRING t
  | None => "undefined"
  end.

Definition serializeError (serialize : SerovalNode -> SerM Ext string)
    (i : nat) (s : option ErrorConstructorTag) (m : string)
    (p : option (RecordNode SerovalObjectRecordKey SerovalNode)) : SerM Ext string :=
  serializeDictionary serialize i p
    ("new " +:+ errorConstructorString s +:+ "(" +:+ quoted m +:+ ")").

Definition serializePromise (serialize : SerovalNode -> SerM Ext string)
    (i s : nat) (f : SerovalNode) : SerM Ext string :=
  let fulfilled := f in
  let id := i in
  let resolved := negb (Nat.eqb s 0) in
  let constructor := if resolved then PROMISE_RESOLVE else PROMISE_REJECT in
  onStack <- isIndexedValueInStack fulfilled ;;
  serialized <-
    (if onStack then
       ref <- getRefParamOf fulfilled ;;
       ft <- gets features ;;
       if hasFeature ft Feature.ArrowFunction then
         if resolved
         then ret (constructor +:+ "().then(()=>" +:+ ref +:+ ")")
         else ret (constructor +:+ "().catch(()=>{throw " +:+ ref +:+ "})")
       else if resolved
       then ret (constructor +:+ "().then(function(){return " +:+ ref +:+ "})")
       else ret (constructor +:+ "().catch(function(){throw " +:+ ref +:+ "})")
     else
       stack_push id ;;;
       result <- serialize fulfilled ;;
       stack_pop ;;;
       ret (constructor +:+ "(" +:+ result +:+ ")")) ;;
  assignIndexedValue id serialized.

Definition serializeWKSymbol (i s : nat) : SerM Ext string :=
  assignIndexedValue i (SYMBOL_STRING s).

Definition serializeURL (i : nat) (s : string) : SerM Ext string :=
  assignIndexedValue i ("new URL(" +:+ quoted s +:+ ")").

Definition serializeURLSearchParams (i : nat) (s : string) : SerM Ext string :=
  assignIndexedValue i
    (if truthy s then "new URLSearchParams(" +:+ quoted s +:+ ")" else "new URLSearchParams").

Definition serializeBlob (serialize : SerovalNode -> SerM Ext string)
    (i : nat) (c : string) (f : SerovalNode) : SerM Ext string :=
  r <- serialize f ;;
  assignIndexedValue i ("new Blob([" +:+ r +:+ "],{type:" +:+ quoted c +:+ "})").

Definition serializeFile (serialize : SerovalNode -> SerM Ext string)
    (i : nat) (c m : string) (f : SerovalNode) (b : Z) : SerM Ext string :=
  r <- serialize f ;;
  assignIndexedValue i
    ("new File([" +:+ r +:+ "]," +:+ quoted m +:+ ",{type:" +:+ quoted c
       +:+ ",lastModified:" +:+ pretty b +:+ "})").

Definition serializeHeaders (serialize : SerovalNode -> SerM Ext string)
    (i : nat) (e : RecordNode string SerovalNode) : SerM Ext string :=
  r <- serializeProperties KeyString serialize i e ;;
  assignIndexedValue i ("new Headers(" +:+ r +:+ ")").

Definition serializeFormDataEntry (serialize : SerovalNode -> SerM Ext string)
    (id : nat) (key : string) (value : SerovalNode) : SerM Ext string :=
  ref <- getRefParam id ;;
  r <- serialize value ;;
  ret (ref +:+ ".append(" +:+ quoted key +:+ "," +:+ r +:+ ")").

Definition serializeFormDataLoop (serialize : SerovalNode -> SerM Ext string) (id : nat) :=
  fix loop (n : nat) (entries : list (string * SerovalNode)) (result : string)
      {struct entries} : SerM Ext string :=
    match n with
    | 0 => ret result
    | S n' =>
        match entries with
        | [] => getRefParam id ;;; throw TypeError
        | (key, val) :: rest =>
            it <- serializeFormDataEntry serialize id key val ;;
            loop n' rest (result +:+ "," +:+ it)
        end
    end.

Definition serializeFormDataEntries (serialize : SerovalNode -> SerM Ext string)
    (i : nat) (e : RecordNode string SerovalNode) (size : nat) : SerM Ext string :=
  let id := i in
  match kv e with
  | [] => getRefParam id ;;; throw TypeError
  | (key, val) :: rest =>
      result <- serializeFormDataEntry serialize id key val ;;
      serializeFormDataLoop serialize id (size - 1) rest result
  end.

Definition serializeFormData (serialize : SerovalNode -> SerM Ext string)
    (i : nat) (e : RecordNode string SerovalNode) : SerM Ext string :=
  let size := s_size e in
  let id := i in
  match size with
  | 0 => assignIndexedValue id "new FormData()"
  | S _ =>
      markRef id ;;;
      result <- assignIndexedValue id "new FormData()" ;;
      entries <- serializeFormDataEntries serialize i e size ;;
      ref <- getRefParam id ;;
      ret ("(" +:+ result +:+ "," +:+ (if truthy entries then entries +:+ "," else "")
             +:+ ref +:+ ")")
  end.

Definition serializeBoxed (serialize : SerovalNode -> SerM Ext string)
    (i : nat) (f : SerovalNode) : SerM Ext string :=
  r <- serialize f ;;
  assignIndexedValue i ("Object(" +:+ r +:+ ")").

Definition serializeRequest (serialize : SerovalNode -> SerM Ext string)
    (i : nat) (s : string) (f : SerovalNode) : SerM Ext string :=
  r <- serialize f ;;
  assignIndexedValue i ("new Request(" +:+ quoted s +:+ "," +:+ r +:+ ")").

Definition serializeResponse (serialize : SerovalNode -> SerM Ext string)
    (i : nat) (a0 a1 : SerovalNode) : SerM Ext string :=
  r0 <- serialize a0 ;;
  r1 <- serialize a1 ;;
  assignIndexedValue i ("new Response(" +:+ r0 +:+ "," +:+ r1 +:+ ")").

Definition serializeEvent (serialize : SerovalNode -> SerM Ext string)
    (i : nat) (s : string) (f : SerovalNode) : SerM Ext string :=
  r <- serialize f ;;
  assignIndexedValue i ("new Event(" +:+ quoted s +:+ "," +:+ r +:+ ")").

Definition serializeCustomEvent (serialize : SerovalNode -> SerM Ext string)
    (i : nat) (s : string) (f : SerovalNode) : SerM Ext string :=
  r <- serialize f ;;
  assignIndexedValue i ("new CustomEvent(" +:+ quoted s +:+ "," +:+ r +:+ ")").

Definition serializeDOMException (i : nat) (s c : string) : SerM Ext string :=
  assignIndexedValue i ("new DOMException(" +:+ quoted s +:+ "," +:+ quoted c +:+ ")").

(** The [for] loop of [serializePlugin] over [this.plugins]. *)
Fixpoint serializePluginLoop (ps : list (Plugin Ext)) (i : nat) (c : string)
    (s : PluginData) : SerM Ext string :=
  match ps with
  | [] => throw (MissingPluginError c)
  | plugin :: rest =>
      if String.eqb (tag plugin) c
      then plugin_serialize plugin s i
      else serializePluginLoop rest i c s
  end.

Definition serializePlugin (i : nat) (c : string) (s : PluginData) : SerM Ext string :=
  match plugins with
  | Some ps => serializePluginLoop ps i c s
  | None => throw (MissingPluginError c)
  end.

(** [this.deferred.get(id) || ''] *)
Definition orEmpty (v : option string) : string :=
  match v with
  | Some r => if truthy r then r else ""
  | None => ""
  end.

Definition serializeIndexedValue (i : nat) : SerM Ext string :=
  has <- gets (fun c => bool_decide (is_Some (deferred c !! i))) ;;
  if has then
    result <- gets (fun c => orEmpty (deferred c !! i)) ;;
    modify (fun c => set_deferred (delete i (deferred c)) c) ;;;
    ret result
  else getRefParam i.

Fixpoint serialize (node : SerovalNode) {struct node} : SerM Ext string :=
  match node with
  | ConstantNode s => ret (CONSTANT_STRING s)
  | NumberNode s => ret ("" +:+ numberToString s)
  | StringNode s => ret (quoted s)
  | BigIntNode s => ret (s +:+ "n")
  | IndexedValueNode i => serializeIndexedValue i
  | ReferenceNode i s => serializeReference i s
  | ArrayNode i l a o => serializeArray serialize i l a o
  | ObjectNode i p o => serializeObject serialize i p o
  | NullConstructorNode i p o => serializeNullConstructor serialize i p o
  | DateNode i s => serializeDate i s
  | RegExpNode i c m => serializeRegExp i c m
  | SetNode i l a => serializeSet serialize i l a
  | MapNode i e => serializeMap serialize i e
  | ArrayBufferNode i s => serializeArrayBuffer i s
  | BigIntTypedArrayNode i l c f b
  | TypedArrayNode i l c f b => serializeTypedArray serialize i l c f b
  | DataViewNode i l f b => serializeDataView serialize i l f b
  | AggregateErrorNode i m p => serializeAggregateError serialize i m p
  | ErrorNode i s _ m p => serializeError serialize i s m p
  | PromiseNode i s f => serializePromise serialize i s f
  | WKSymbolNode i s => serializeWKSymbol i s
  | URLNode i s => serializeURL i s
  | URLSearchParamsNode i s => serializeURLSearchParams i s
  | BlobNode i c f => serializeBlob serialize i c f
  | FileNode i c m f b => serializeFile serialize i c m f b
  | HeadersNode i e => serializeHeaders serialize i e
  | FormDataNode i e => serializeFormData serialize i e
  | BoxedNode i f => serializeBoxed serialize i f
  | PromiseConstructorNode i => serializePromiseConstructor i
  | PromiseResolveNode i f => serializePromiseResolve i (serialize f)
  | PromiseRejectNode i f => serializePromiseReject i (serialize f)
  | ReadableStreamConstructorNode i => serializeReadableStreamConstructor i
  | ReadableStreamEnqueueNode i f => serializeReadableStreamEnqueue i (serialize f)
  | ReadableStreamErrorNode i f => serializeReadableStreamError i (serialize f)
  | ReadableStreamCloseNode i => serializeReadableStreamClose i
  | RequestNode i s f => serializeRequest serialize i s f
  | ResponseNode i a0 a1 => serializeResponse serialize i a0 a1
  | EventNode i s f => serializeEvent serialize i s f
  | CustomEventNode i s f => serializeCustomEvent serialize i s f
  | DOMExceptionNode i s c => serializeDOMException i s c
  | PluginNode i c s => serializePlugin i c s
  | UnknownNode _ => throw InvariantError
  end.

End BaseSerializerContext.

(** ** The value graph of the host

    Non-primitive values live in a heap and are identified by their address;
    a cycle or a shared subvalue is an address that occurs more than once. *)

Definition Addr := nat.

Inductive Value :=
| VUndefined
| VNull
| VBoolean (b : bool)
| VNumber (n : JSNumber)
| VString (s : string)
| VBigInt (z : Z)
| VSymbol (description : string)
| VFunction (a : Addr)
| VObject (a : Addr).

Inductive TypedArrayCtor :=
| Int8Array | Int16Array | Int32Array | Uint8Array | Uint16Array | Uint32Array
| Uint8ClampedArray | Float32Array | Float64Array.

Inductive BigIntTypedArrayCtor := BigInt64Array | BigUint64Array.

(** [current.constructor] *)
Inductive Ctor :=
| CtorUndefined
| CtorObject | CtorArray
| CtorNumber | CtorBoolean | CtorString | CtorBigInt | CtorFunction | CtorSymbol
| CtorDate | CtorRegExp
| CtorArrayBuffer | CtorTypedArray (c : TypedArrayCtor)
| CtorBigIntTypedArray (c : BigIntTypedArrayCtor) | CtorDataView
| CtorMap | CtorSet
| CtorAggregateError | CtorError (t : ErrorConstructorTag)
| CtorURL | CtorURLSearchParams | CtorBlob | CtorFile | CtorHeaders | CtorFormData
| CtorRequest | CtorResponse | CtorEvent | CtorCustomEvent | CtorDOMException
| CtorPromise
| CtorOther (name : string).

(** What the built-in behind an object holds. *)
Inductive Slots :=
| SOrdinary
| SArray (items : list (option Value))
| SBoxed (primitive : Value)
| SDate (iso : string)
| SRegExp (source flags : string)
| SArrayBuffer (bytes : list N)
| STypedArray (buffer : Addr) (byteOffset length : nat)
| SDataView (buffer : Addr) (byteOffset byteLength : nat)
| SMap (entries : list (Value * Value))
| SSet (items : list Value)
| SError (aggregate : bool) (message : string)
| SPromise (status : nat) (result : Value)
| SHeaders (entries : list (string * string))
| SFormData (entries : list (string * Value))
| SBlob (type : string) (bytes : list N)
| SFile (type name : string) (lastModified : Z) (bytes : list N)
| SRequest (url : string) (body : option (list N))
| SResponse (body : option (list N))
| SEvent (type : string)
| SOpaque.

Record Obj := mkObj {
  constructor : Ctor;
  slots : Slots;
  (* own enumerable string-keyed properties, in insertion order *)
  props : list (string * Value);
  (* what a [Symbol.iterator] method of the object's own yields, if it has one *)
  iterator : option (list Value);
  (* the integrity state that [getObjectFlag] reads *)
  flag : SerovalObjectFlags;
}.

(** [Array.isArray(current)] *)
Definition isArray (o : Obj) : bool :=
  match slots o with SArray _ => true | _ => false end.

(** [current instanceof Error], [... AggregateError], [... Promise] *)
Definition instanceofError (o : Obj) : bool :=
  match slots o with SError _ _ => true | _ => false end.
Definition instanceofAggregateError (o : Obj) : bool :=
  match slots o with SError aggregate _ => aggregate | _ => false end.
Definition instanceofPromise (o : Obj) : bool :=
  match slots o with SPromise _ _ => true | _ => false end.

(** [Symbol.iterator in current]: a method of the object's own, or the one
    its built-in prototype carries. *)
Definition hasSymbolIterator (o : Obj) : bool :=
  match iterator o with
  | Some _ => true
  | None =>
      match slots o with
      | SArray _ | SMap _ | SSet _ | STypedArray _ _ _ => true
      | SBoxed (VString _) => true
      | _ => false
      end
  end.

(** [!!currentClass] *)
Definition ctorTruthy (c : Ctor) : bool :=
  match c with CtorUndefined => false | _ => true end.

(** ** Parser contexts

    One record serves the three parsers: [refs] and [features] are the fields
    of every context, [marked] is [markedRefs] of the synchronous context and
    [marked] of the class-based one; the heap is the host's. *)
Record ParseState := mkParseState {
  p_features : N;
  p_refs : gmap Addr nat;
  p_marked : gset nat;
  p_heap : gmap Addr Obj;
}.

Definition set_refs (r : gmap Addr nat) (st : ParseState) : ParseState :=
  mkParseState (p_features st) r (p_marked st) (p_heap st).
Definition set_pmarked (m : gset nat) (st : ParseState) : ParseState :=
  mkParseState (p_features st) (p_refs st) m (p_heap st).
Definition set_heap (h : gmap Addr Obj) (st : ParseState) : ParseState :=
  mkParseState (p_features st) (p_refs st) (p_marked st) h.

Abbreviation ParseM := (M ParseState).

(** The object at an address; a dangling address is a host error. *)
Definition heapGet (a : Addr) : ParseM Obj :=
  fun st => match p_heap st !! a with
            | Some o => Ok (o, st)
            | None => Throw TypeError
            end.

(** A new object of the host (the result of [Array.from], of [arrayBuffer()],
    an options record): it gets an address no object has. *)
Definition heapAlloc (o : Obj) : ParseM Addr :=
  fun st => let a := fresh (dom (p_heap st)) in
            Ok (a, set_heap (<[ a := o ]> (p_heap st)) st).

(** What the parsers import from files that are not among the sources. *)
Class ParserHost := mkParserHost {
  (* core/string.ts: the escaping helper the spec assumes *)
  serializeString : string -> string;
  (* core/shared.ts *)
  isIterable : ParseState -> Value -> bool;
  getErrorOptions : N -> Obj -> option (list (string * Value));
  getErrorConstructor : Obj -> ErrorConstructorTag;
  getErrorConstructorName : Obj -> string;
  (* core/reference.ts: the registry of user-declared handles *)
  hasReferenceID : Addr -> bool;
  getReferenceID : Addr -> string;
  (* symbols and functions *)
  createSymbolNode : string -> ParseM SerovalNode;
  createFunctionNode : Addr -> ParseM SerovalNode;
  (* core/web-api.ts and core/cross/web-api.ts *)
  createBlobNode : nat -> Obj -> ParseM SerovalNode;
  createFileNode : nat -> Obj -> ParseM SerovalNode;
  createURLNode : nat -> Obj -> ParseM SerovalNode;
  createURLSearchParamsNode : nat -> Obj -> ParseM SerovalNode;
  createDOMExceptionNode : nat -> Obj -> ParseM SerovalNode;
  (* core/constructors.ts: the own properties of the options record *)
  createRequestOptions : Obj -> option Addr -> list (string * Value);
  createResponseOptions : Obj -> list (string * Value);
  createEventOptions : Obj -> list (string * Value);
  createCustomEventOptions : Obj -> list (string * Value);
  (* the elements a built-in iterator yields, for the built-ins not modelled here *)
  builtinItems : Obj -> list Value;
  (* constructor.name of a typed array *)
  typedArrayName : TypedArrayCtor -> string;
  bigIntTypedArrayName : BigIntTypedArrayCtor -> string;
}.

Definition TRUE_NODE := ConstantNode CTrue.
Definition FALSE_NODE := ConstantNode CFalse.
Definition UNDEFINED_NODE := ConstantNode CUndefined.
Definition NULL_NODE := ConstantNode CNull.
Definition INFINITY_NODE := ConstantNode CInfinity.
Definition NEG_INFINITY_NODE := ConstantNode CNegativeInfinity.
Definition NAN_NODE := ConstantNode CNaN.
Definition NEG_ZERO_NODE := ConstantNode CNegativeZero.

(** ** Parsers: what the three of them share *)

Section ParserCommon.
Context `{ParserHost}.

(** Modelled from the spec: the id-assignment function [createIndexedValue] of
    the parser context (not among the sources), which "returns the existing id
    if the value was seen, otherwise allocates a new id" (spec 4.4); ids are
    dense, in first-seen order (spec 3), and a value seen again is marked, which
    is what [parseObject] tests to emit an [IndexedValue]. *)
Definition createIndexedValue (current : Addr) : ParseM nat :=
  fun st =>
    match p_refs st !! current with
    | None =>
        let id := size (p_refs st) in
        Ok (id, set_refs (<[ current := id ]> (p_refs st)) st)
    | Some ref => Ok (ref, set_pmarked ({[ ref ]} ∪ p_marked st) st)
    end.

(** Modelled from the spec: [createCrossIndexedValue] of the cross context (not
    among the sources): the same id assignment over the shared table (spec 4.4,
    spec 3 "drawn from a counter carried in the shared context"). *)
Definition createCrossIndexedValue (current : Addr) : ParseM nat :=
  fun st =>
    match p_refs st !! current with
    | None =>
        let id := size (p_refs st) in
        Ok (id, set_refs (<[ current := id ]> (p_refs st)) st)
    | Some ref => Ok (ref, st)
    end.

(** [Object.is(value, -0)] *)
Definition isNegZero (n : JSNumber) : bool :=
  match n with NegZero => true | _ => false end.

Definition createNumberNode (value : JSNumber) : SerovalNode :=
  match value with
  | Infinity => INFINITY_NODE
  | NegInfinity => NEG_INFINITY_NODE
  | _ =>
      if notSelfEqual value then NAN_NODE
      else if isNegZero value then NEG_ZERO_NODE
      else NumberNode value
  end.

Definition createStringNode (value : string) : SerovalNode :=
  StringNode (serializeString value).

Definition createBigIntNode (current : Z) : ParseM SerovalNode :=
  ft <- gets p_features ;;
  assert (hasFeature ft Feature.BigInt) (AssertionError "Unsupported type BigInt") ;;;
  ret (BigIntNode ("" +:+ pretty current)).

Definition createIndexedValueNode (id : nat) : SerovalNode := IndexedValueNode id.

Definition createDateNode (id : nat) (current : Obj) : ParseM SerovalNode :=
  match slots current with
  | SDate iso => ret (DateNode id iso)
  | _ => throw TypeError
  end.

Definition createRegExpNode (id : nat) (current : Obj) : ParseM SerovalNode :=
  match slots current with
  | SRegExp source flags => ret (RegExpNode id source flags)
  | _ => throw TypeError
  end.

Definition createArrayBufferNode (id : nat) (current : Obj) : ParseM SerovalNode :=
  match slots current with
  | SArrayBuffer bytes => ret (ArrayBufferNode id bytes)
  | _ => throw TypeError
  end.

(** [serializeArrayBuffer(ctx, current)] of the primitives file. *)
Definition serializeArrayBufferRef (current : Addr) : ParseM SerovalNode :=
  id <- createIndexedValue current ;;
  mk <- gets (fun st => bool_decide (id ∈ p_marked st)) ;;
  if mk then ret (createIndexedValueNode id)
  else o <- heapGet current ;; createArrayBufferNode id o.

(** [serializeArrayBuffer] is that of the context's own primitives file. *)
Definition createTypedArrayNode (serializeArrayBuffer : Addr -> ParseM SerovalNode)
    (id : nat) (c : TypedArrayCtor) (current : Obj) : ParseM SerovalNode :=
  let constructor := typedArrayName c in
  ft <- gets p_features ;;
  assert (hasFeature ft Feature.TypedArray)
    (AssertionError ("Unsupported value type " +:+ constructor)) ;;;
  match slots current with
  | STypedArray buffer byteOffset length =>
      f <- serializeArrayBuffer buffer ;;
      ret (TypedArrayNode id length constructor f byteOffset)
  | _ => throw TypeError
  end.

Definition createBigIntTypedArrayNode (serializeArrayBuffer : Addr -> ParseM SerovalNode)
    (id : nat) (c : BigIntTypedArrayCtor) (current : Obj) : ParseM SerovalNode :=
  let constructor := bigIntTypedArrayName c in
  ft <- gets p_features ;;
  assert (hasBigIntFlag ft)
    (AssertionError ("Unsupported value type " +:+ constructor)) ;;;
  match slots current with
  | STypedArray buffer byteOffset length =>
      f <- serializeArrayBuffer buffer ;;
      ret (BigIntTypedArrayNode id length constructor f byteOffset)
  | _ => throw TypeError
  end.

Definition createDataViewNode (serializeArrayBuffer : Addr -> ParseM SerovalNode)
    (id : nat) (current : Obj) : ParseM SerovalNode :=
  match slots current with
  | SDataView buffer byteOffset byteLength =>
      f <- serializeArrayBuffer buffer ;;
      ret (DataViewNode id byteLength f byteOffset)
  | _ => throw TypeError
  end.

Definition createReferenceNode (id : nat) (ref : Addr) : SerovalNode :=
  ReferenceNode id (serializeString (getReferenceID ref)).

(** A new buffer of the host (the result of [arrayBuffer()]). *)
Definition bufferObj (bytes : list N) : Obj :=
  mkObj CtorArrayBuffer (SArrayBuffer bytes) [] None FlagNone.

(** A new array of the host holding [items]. *)
Definition arrayObj (items : list Value) : Obj :=
  mkObj CtorArray (SArray (map Some items)) [] None FlagNone.

(** A new plain record of the host with the given own properties. *)
Definition recordObj (properties : list (string * Value)) : Obj :=
  mkObj CtorObject SOrdinary properties None FlagNone.

(** The entries a Map's iterator yields: a new two-element array for each. *)
Fixpoint mapEntryArrays (entries : list (Value * Value)) : ParseM (list Value) :=
  match entries with
  | [] => ret []
  | (k, v) :: rest =>
      a <- heapAlloc (arrayObj [k; v]) ;;
      r <- mapEntryArrays rest ;;
      ret (VObject a :: r)
  end.

(** [Array.from(properties as Iterable<unknown>)] *)
Definition arrayFrom (properties : Obj) : ParseM (list Value) :=
  match iterator properties with
  | Some items => ret items
  | None =>
      match slots properties with
      | SArray items => ret (map (fun x => default VUndefined x) items)
      | SSet items => ret items
      | SMap entries => mapEntryArrays entries
      | _ => ret (builtinItems properties)
      end
  end.

(** A slot of [nodes] after the first loop of [generateNodeList]: still a hole,
    filled, or waiting in [deferred]. *)
Inductive PendingNode :=
| PHole
| PNode (node : SerovalNode)
| PDeferred (item : Value).

Section WithParse.
(** The parser's entry point, which every generator calls back. *)
Variable parse : Value -> ParseM SerovalNode.

(** First loop of [generateNodeList] ([parseItems] in the class-based parser). *)
Fixpoint generateNodeListFirst (current : list (option Value)) : ParseM (list PendingNode) :=
  match current with
  | [] => ret []
  | None :: rest =>
      r <- generateNodeListFirst rest ;;
      ret (PHole :: r)
  | Some item :: rest =>
      it <- gets (fun st => isIterable st item) ;;
      p <- (if it then ret (PDeferred item)
            else n <- parse item ;; ret (PNode n)) ;;
      r <- generateNodeListFirst rest ;;
      ret (p :: r)
  end.

(** Second loop: the deferred items, in index order. *)
Fixpoint generateNodeListSecond (pending : list PendingNode)
    : ParseM (list (option SerovalNode)) :=
  match pending with
  | [] => ret []
  | PHole :: rest =>
      r <- generateNodeListSecond rest ;;
      ret (None :: r)
  | PNode n :: rest =>
      r <- generateNodeListSecond rest ;;
      ret (Some n :: r)
  | PDeferred item :: rest =>
      n <- parse item ;;
      r <- generateNodeListSecond rest ;;
      ret (Some n :: r)
  end.

Definition generateNodeList (current : list (option Value))
    : ParseM (list (option SerovalNode)) :=
  pending <- generateNodeListFirst current ;;
  generateNodeListSecond pending.

(** [withFlag] is false for the synchronous parser, whose nodes have no [o]. *)
Definition generateArrayNode (withFlag : bool) (id : nat) (current : Obj)
    : ParseM SerovalNode :=
  match slots current with
  | SArray items =>
      a <- generateNodeList items ;;
      ret (ArrayNode id (length items) a (if withFlag then flag current else FlagNone))
  | _ => throw TypeError
  end.

(** The two loops that the Map, Set and property generators share: an entry
    whose test is true waits in the deferred arrays and is parsed by the second
    loop, after all the others. *)
Fixpoint deferFirst {X Y : Type} (test : ParseState -> X -> bool) (one : X -> ParseM Y)
    (xs : list X) : ParseM (list Y * list X) :=
  match xs with
  | [] => ret ([], [])
  | x :: rest =>
      d <- gets (fun st => test st x) ;;
      if d then
        r <- deferFirst test one rest ;;
        ret (fst r, x :: snd r)
      else
        y <- one x ;;
        r <- deferFirst test one rest ;;
        ret (y :: fst r, snd r)
  end.

Fixpoint deferSecond {X Y : Type} (one : X -> ParseM Y) (deferred : list X)
    : ParseM (list Y) :=
  match deferred with
  | [] => ret []
  | x :: rest =>
      y <- one x ;;
      r <- deferSecond one rest ;;
      ret (y :: r)
  end.

Definition deferLoops {X Y : Type} (test : ParseState -> X -> bool) (one : X -> ParseM Y)
    (xs : list X) : ParseM (list Y) :=
  r <- deferFirst test one xs ;;
  d <- deferSecond one (snd r) ;;
  ret (fst r ++ d).

Definition parseMapEntry (entry : Value * Value) : ParseM (SerovalNode * SerovalNode) :=
  k <- parse (fst entry) ;;
  v <- parse (snd entry) ;;
  ret (k, v).

(** [generateMapNode] of the asynchronous parsers ([parseMap]). *)
Definition generateMapNode (id : nat) (current : Obj) : ParseM SerovalNode :=
  match slots current with
  | SMap entries =>
      let len := length entries in
      nodes <- deferLoops (fun st e => isIterable st (fst e) || isIterable st (snd e))
                 parseMapEntry entries ;;
      ret (MapNode id (mkRecordNode nodes len))
  | _ => throw TypeError
  end.

(** [generateSetNode] of the asynchronous parsers ([parseSet]). *)
Definition generateSetNode (id : nat) (current : Obj) : ParseM SerovalNode :=
  match slots current with
  | SSet items =>
      let len := length items in
      nodes <- deferLoops isIterable parse items ;;
      ret (SetNode id len nodes)
  | _ => throw TypeError
  end.

Definition parseProperty (p : string * Value) : ParseM (SerovalObjectRecordKey * SerovalNode) :=
  n <- parse (snd p) ;;
  ret (KeyString (serializeString (fst p)), n).

Definition parsePlainProperty (p : string * Value) : ParseM (string * SerovalNode) :=
  n <- parse (snd p) ;;
  ret (serializeString (fst p), n).

(** [generateProperties] ([parseProperties]); [createId] is the context's
    id assignment and [withFlag] tells whether array nodes carry [o]. *)
Definition generateProperties (createId : Addr -> ParseM nat) (withFlag : bool)
    (properties : Obj) : ParseM (RecordNode SerovalObjectRecordKey SerovalNode) :=
  let keys := props properties in
  let size := length keys in
  nodes <- deferLoops (fun st p => isIterable st (snd p)) parseProperty keys ;;
  ft <- gets p_features ;;
  if hasFeature ft Feature.Symbol && hasSymbolIterator properties then
    items <- arrayFrom properties ;;
    a <- heapAlloc (arrayObj items) ;;
    id <- createId a ;;
    arr <- generateArrayNode withFlag id (arrayObj items) ;;
    ret (mkRecordNode (nodes ++ [(SymbolIterator, arr)]) (S size))
  else
    ret (mkRecordNode nodes size).

(** [generatePlainProperties] ([parsePlainProperties]) *)
Definition generatePlainProperties (properties : list (string * Value))
    : ParseM (RecordNode string SerovalNode) :=
  let size := length properties in
  nodes <- deferLoops (fun st p => isIterable st (snd p)) parsePlainProperty properties ;;
  ret (mkRecordNode nodes size).

(** [generateObjectNode] ([parsePlainObject]) *)
Definition generateObjectNode (createId : Addr -> ParseM nat) (withFlag : bool)
    (id : nat) (current : Obj) (empty : bool) : ParseM SerovalNode :=
  p <- generateProperties createId withFlag current ;;
  let o := if withFlag then flag current else FlagNone in
  ret (if empty then NullConstructorNode id p o else ObjectNode id p o).

(** The options record of an error, parsed as a plain object's properties. *)
Definition generateErrorOptions (createId : Addr -> ParseM nat) (withFlag : bool)
    (current : Obj) : ParseM (option (RecordNode SerovalObjectRecordKey SerovalNode)) :=
  ft <- gets p_features ;;
  match getErrorOptions ft current with
  | Some options =>
      p <- generateProperties createId withFlag (recordObj options) ;;
      ret (Some p)
  | None => ret None
  end.

Definition errorMessage (current : Obj) : ParseM string :=
  match slots current with
  | SError _ message => ret message
  | _ => throw TypeError
  end.

Definition generateAggregateErrorNode (createId : Addr -> ParseM nat) (withFlag : bool)
    (id : nat) (current : Obj) : ParseM SerovalNode :=
  optionsNode <- generateErrorOptions createId withFlag current ;;
  m <- errorMessage current ;;
  ret (AggregateErrorNode id (serializeString m) optionsNode).

(** [generateErrorNode]: the constructor is spelled in [c], by name. *)
Definition generateErrorNode (createId : Addr -> ParseM nat) (withFlag : bool)
    (id : nat) (current : Obj) : ParseM SerovalNode :=
  optionsNode <- generateErrorOptions createId withFlag current ;;
  m <- errorMessage current ;;
  ret (ErrorNode id None (Some (getErrorConstructorName current)) (serializeString m) optionsNode).

(** [parseError] of the class-based parser: the constructor is spelled in [s]. *)
Definition parseError (createId : Addr -> ParseM nat) (id : nat) (current : Obj)
    : ParseM SerovalNode :=
  optionsNode <- generateErrorOptions createId true current ;;
  m <- errorMessage current ;;
  ret (ErrorNode id (Some (getErrorConstructor current)) None (serializeString m) optionsNode).

Definition headerItems (current : Obj) : ParseM (list (string * Value)) :=
  match slots current with
  | SHeaders entries => ret (map (fun e => (fst e, VString (snd e))) entries)
  | _ => throw TypeError
  end.

Definition formDataItems (current : Obj) : ParseM (list (string * Value)) :=
  match slots current with
  | SFormData entries => ret entries
  | _ => throw TypeError
  end.

(** [generateHeadersNode] of the asynchronous parsers ([parseHeaders]) *)
Definition generateHeadersNode (id : nat) (current : Obj) : ParseM SerovalNode :=
  items <- headerItems current ;;
  e <- generatePlainProperties items ;;
  ret (HeadersNode id e).

(** [generateFormDataNode] of the asynchronous parsers ([parseFormData]) *)
Definition generateFormDataNode (id : nat) (current : Obj) : ParseM SerovalNode :=
  items <- formDataItems current ;;
  e <- generatePlainProperties items ;;
  ret (FormDataNode id e).

(** [generateBoxedNode] ([parseBoxed]) *)
Definition generateBoxedNode (id : nat) (current : Obj) : ParseM SerovalNode :=
  match slots current with
  | SBoxed primitive =>
      f <- parse primitive ;;
      ret (BoxedNode id f)
  | _ => throw TypeError
  end.

(** [generatePromiseNode] ([parsePromise]): the promise is awaited, and its
    settled status and value are what the heap records. *)
Definition generatePromiseNode (id : nat) (current : Obj) : ParseM SerovalNode :=
  match slots current with
  | SPromise status result =>
      f <- parse result ;;
      ret (PromiseNode id status f)
  | _ => throw TypeError
  end.

End WithParse.
End ParserCommon.

(** ** The synchronous parser

    Its nodes are of the older layout: no [o] field (read here as the flag
    [None]) and the records in a field [d], which is read here as the record
    of the node. *)

Module SyncParser.
Section SyncParser.
Context `{ParserHost}.

Section Generators.
Variable parse : Value -> ParseM SerovalNode.

Definition generateMapNode (id : nat) (current : Obj) : ParseM SerovalNode :=
  ft <- gets p_features ;;
  assert (hasFeature ft Feature.Map) UnsupportedTypeError ;;;
  generateMapNode parse id current.

Definition generateSetNode (id : nat) (current : Obj) : ParseM SerovalNode :=
  ft <- gets p_features ;;
  assert (hasFeature ft Feature.Set_) UnsupportedTypeError ;;;
  generateSetNode parse id current.

Definition generateHeadersNode (id : nat) (current : Obj) : ParseM SerovalNode :=
  ft <- gets p_features ;;
  assert (hasFeature ft Feature.WebAPI) UnsupportedTypeError ;;;
  generateHeadersNode parse id current.

Definition generateFormDataNode (id : nat) (current : Obj) : ParseM SerovalNode :=
  ft <- gets p_features ;;
  assert (hasFeature ft Feature.WebAPI) UnsupportedTypeError ;;;
  generateFormDataNode parse id current.

(** The slow path of [parseObject]. *)
Definition parseObjectSlow (id : nat) (current : Obj) : ParseM SerovalNode :=
  ft <- gets p_features ;;
  if instanceofAggregateError current then
    if hasFeature ft Feature.AggregateError
    then generateAggregateErrorNode parse createIndexedValue false id current
    else generateErrorNode parse createIndexedValue false id current
  else if instanceofError current then
    generateErrorNode parse createIndexedValue false id current
  else if hasSymbolIterator current then
    generateObjectNode parse createIndexedValue false id current
      (ctorTruthy (constructor current))
  else throw UnsupportedTypeError.

(** [parseObject] after the test of [markedRefs]: the value is met for the
    first time, and [id] is its new id. *)
Definition parseObjectNew (a : Addr) (id : nat) : ParseM SerovalNode :=
      if hasReferenceID a then ret (createReferenceNode id a)
      else
        current <- heapGet a ;;
        if isArray current then generateArrayNode parse false id current
        else
          match constructor current with
          | CtorNumber | CtorBoolean | CtorString | CtorBigInt | CtorFunction | CtorSymbol =>
              generateBoxedNode parse id current
          | CtorDate => createDateNode id current
          | CtorRegExp => createRegExpNode id current
          | CtorArrayBuffer => createArrayBufferNode id current
          | CtorTypedArray c => createTypedArrayNode serializeArrayBufferRef id c current
          | CtorBigIntTypedArray c => createBigIntTypedArrayNode serializeArrayBufferRef id c current
          | CtorDataView => createDataViewNode serializeArrayBufferRef id current
          | CtorMap => generateMapNode id current
          | CtorSet => generateSetNode id current
          | CtorObject => generateObjectNode parse createIndexedValue false id current false
          | CtorUndefined => generateObjectNode parse createIndexedValue false id current true
          | CtorAggregateError =>
              ft <- gets p_features ;;
              if hasFeature ft Feature.AggregateError
              then generateAggregateErrorNode parse createIndexedValue false id current
              else generateErrorNode parse createIndexedValue false id current
          | CtorError _ => generateErrorNode parse createIndexedValue false id current
          | CtorURL => createURLNode id current
          | CtorURLSearchParams => createURLSearchParamsNode id current
          | CtorHeaders => generateHeadersNode id current
          | CtorFormData => generateFormDataNode id current
          | _ => parseObjectSlow id current
          end.

Definition parseObject (current : Value) : ParseM SerovalNode :=
  match current with
  | VNull => ret NULL_NODE
  | VObject a =>
      id <- createIndexedValue a ;;
      mk <- gets (fun st => bool_decide (id ∈ p_marked st)) ;;
      if mk then ret (createIndexedValueNode id)
      else parseObjectNew a id
  | _ => throw TypeError
  end.

Definition parseSyncStep (current : Value) : ParseM SerovalNode :=
  match current with
  | VBoolean b => ret (if b then TRUE_NODE else FALSE_NODE)
  | VUndefined => ret UNDEFINED_NODE
  | VString s => ret (createStringNode s)
  | VNumber n => ret (createNumberNode n)
  | VBigInt z => createBigIntNode z
  | VNull | VObject _ => parseObject current
  | VSymbol d => createSymbolNode d
  | VFunction a => createFunctionNode a
  end.

End Generators.

(** [parseSync(ctx, current)]; [fuel] bounds the depth of the calls. *)
Fixpoint parseSync (fuel : nat) (current : Value) : ParseM SerovalNode :=
  match fuel with
  | 0 => throw OutOfFuel
  | S fuel' => parseSyncStep (parseSync fuel') current
  end.

End SyncParser.
End SyncParser.

(** ** The asynchronous parser ([AsyncParserContext])

    An [await] is the point where the awaited value is read off the heap: the
    parser is sequential between its suspension points (spec 5). The methods
    of [VanillaParserContext], which is not among the sources, are read as the
    functions of the same job in the primitives file. *)

Module AsyncParser.
Section AsyncParser.
Context `{ParserHost}.

Section Methods.
Variable parse : Value -> ParseM SerovalNode.
Variable parseObject : Value -> ParseM SerovalNode.

Definition parseBlob (id : nat) (current : Obj) : ParseM SerovalNode :=
  match slots current with
  | SBlob type bytes =>
      buffer <- heapAlloc (bufferObj bytes) ;;
      f <- parse (VObject buffer) ;;
      ret (BlobNode id (serializeString type) f)
  | _ => throw TypeError
  end.

Definition parseFile (id : nat) (current : Obj) : ParseM SerovalNode :=
  match slots current with
  | SFile type name lastModified bytes =>
      buffer <- heapAlloc (bufferObj bytes) ;;
      f <- parse (VObject buffer) ;;
      ret (FileNode id (serializeString type) (serializeString name) f lastModified)
  | _ => throw TypeError
  end.

Definition parseRequest (id : nat) (current : Obj) : ParseM SerovalNode :=
  match slots current with
  | SRequest url body =>
      buffer <- (match body with
                 | Some bytes => a <- heapAlloc (bufferObj bytes) ;; ret (Some a)
                 | None => ret None
                 end) ;;
      options <- heapAlloc (recordObj (createRequestOptions current buffer)) ;;
      f <- parseObject (VObject options) ;;
      ret (RequestNode id (serializeString url) f)
  | _ => throw TypeError
  end.

Definition parseResponse (id : nat) (current : Obj) : ParseM SerovalNode :=
  match slots current with
  | SResponse body =>
      a0 <- (match body with
             | Some bytes =>
                 buffer <- heapAlloc (bufferObj bytes) ;;
                 serializeArrayBufferRef buffer
             | None => ret NULL_NODE
             end) ;;
      options <- heapAlloc (recordObj (createResponseOptions current)) ;;
      a1 <- parseObject (VObject options) ;;
      ret (ResponseNode id a0 a1)
  | _ => throw TypeError
  end.

Definition parseEvent (id : nat) (current : Obj) : ParseM SerovalNode :=
  match slots current with
  | SEvent type =>
      options <- heapAlloc (recordObj (createEventOptions current)) ;;
      f <- parseObject (VObject options) ;;
      ret (EventNode id (serializeString type) f)
  | _ => throw TypeError
  end.

Definition parseCustomEvent (id : nat) (current : Obj) : ParseM SerovalNode :=
  match slots current with
  | SEvent type =>
      options <- heapAlloc (recordObj (createCustomEventOptions current)) ;;
      f <- parseObject (VObject options) ;;
      ret (CustomEventNode id (serializeString type) f)
  | _ => throw TypeError
  end.

Definition isCtorMap (c : Ctor) : bool := match c with CtorMap => true | _ => false end.
Definition isCtorSet (c : Ctor) : bool := match c with CtorSet => true | _ => false end.
Definition isCtorAggregateError (c : Ctor) : bool :=
  match c with CtorAggregateError => true | _ => false end.
Definition isCtorPromise (c : Ctor) : bool := match c with CtorPromise => true | _ => false end.

(** [parseObject] from the comment "Slow path" on. *)
Definition parseObjectSlow (id : nat) (current : Obj) : ParseM SerovalNode :=
  ft <- gets p_features ;;
  if instanceofError current then parseError parse createIndexedValue id current
  else if hasFeature ft Feature.Symbol && hasSymbolIterator current then
    generateObjectNode parse createIndexedValue true id current
      (ctorTruthy (constructor current))
  else throw UnsupportedTypeError.

(** [parseObject] from the test of [AggregateError] on. *)
Definition parseObjectLate (id : nat) (current : Obj) : ParseM SerovalNode :=
  let currentClass := constructor current in
  ft <- gets p_features ;;
  if hasFeature ft Feature.AggregateError
     && (isCtorAggregateError currentClass || instanceofAggregateError current)
  then generateAggregateErrorNode parse createIndexedValue true id current
  else if hasFeature ft Feature.Promise
          && (isCtorPromise currentClass || instanceofPromise current)
  then generatePromiseNode parse id current
  else parseObjectSlow id current.

(** [parseObject] from the comment "Web APIs" on. *)
Definition parseObjectWebAPI (id : nat) (current : Obj) : ParseM SerovalNode :=
  ft <- gets p_features ;;
  if hasFeature ft Feature.WebAPI then
    match constructor current with
    | CtorURL => createURLNode id current
    | CtorURLSearchParams => createURLSearchParamsNode id current
    | CtorBlob => parseBlob id current
    | CtorFile => parseFile id current
    | CtorHeaders => generateHeadersNode parse id current
    | CtorFormData => generateFormDataNode parse id current
    | CtorRequest => parseRequest id current
    | CtorResponse => parseResponse id current
    | CtorEvent => parseEvent id current
    | CtorCustomEvent => parseCustomEvent id current
    | CtorDOMException => createDOMExceptionNode id current
    | _ => parseObjectLate id current
    end
  else parseObjectLate id current.

(** [parseObject] from the comment "ES Collection" on. *)
Definition parseObjectCollection (id : nat) (current : Obj) : ParseM SerovalNode :=
  let currentClass := constructor current in
  ft <- gets p_features ;;
  if hasFeature ft Feature.Map && isCtorMap currentClass
  then generateMapNode parse id current
  else if hasFeature ft Feature.Set_ && isCtorSet currentClass
  then generateSetNode parse id current
  else parseObjectWebAPI id current.

(** [parseObject] from the comment "BigInt Typed Arrays" on. *)
Definition parseObjectBigInt (id : nat) (current : Obj) : ParseM SerovalNode :=
  ft <- gets p_features ;;
  if hasBigIntFlag ft then
    match constructor current with
    | CtorBigIntTypedArray c => createBigIntTypedArrayNode serializeArrayBufferRef id c current
    | _ => parseObjectCollection id current
    end
  else parseObjectCollection id current.

(** [parseObject] from the comment "Typed Arrays" on. *)
Definition parseObjectTyped (id : nat) (current : Obj) : ParseM SerovalNode :=
  ft <- gets p_features ;;
  if hasFeature ft Feature.TypedArray then
    match constructor current with
    | CtorArrayBuffer => createArrayBufferNode id current
    | CtorTypedArray c => createTypedArrayNode serializeArrayBufferRef id c current
    | CtorDataView => createDataViewNode serializeArrayBufferRef id current
    | _ => parseObjectBigInt id current
    end
  else parseObjectBigInt id current.

(** [parseObject] after the test of [marked]: the value is met for the first
    time, and [id] is its new id. *)
Definition parseObjectNew (a : Addr) (id : nat) : ParseM SerovalNode :=
      if hasReferenceID a then ret (createReferenceNode id a)
      else
        current <- heapGet a ;;
        if isArray current then generateArrayNode parse true id current
        else
          match constructor current with
          | CtorObject => generateObjectNode parse createIndexedValue true id current false
          | CtorUndefined => generateObjectNode parse createIndexedValue true id current true
          | CtorDate => createDateNode id current
          | CtorRegExp => createRegExpNode id current
          | CtorError _ => parseError parse createIndexedValue id current
          | CtorNumber | CtorBoolean | CtorString | CtorBigInt =>
              generateBoxedNode parse id current
          | _ => parseObjectTyped id current
          end.

Definition parseObjectStep (current : Value) : ParseM SerovalNode :=
  match current with
  | VNull => ret NULL_NODE
  | VObject a =>
      id <- createIndexedValue a ;;
      mk <- gets (fun st => bool_decide (id ∈ p_marked st)) ;;
      if mk then ret (createIndexedValueNode id)
      else parseObjectNew a id
  | _ => throw TypeError
  end.

End Methods.

(** [AsyncParserContext.parse], given its [parseObject]. *)
Definition parseWith (parseObject : Value -> ParseM SerovalNode) (current : Value)
    : ParseM SerovalNode :=
  match current with
  | VBigInt z =>
      ft <- gets p_features ;;
      if hasFeature ft Feature.BigInt then createBigIntNode z
      else throw UnsupportedTypeError
  | VBoolean b => ret (if b then TRUE_NODE else FALSE_NODE)
  | VUndefined => ret UNDEFINED_NODE
  | VString s => ret (createStringNode s)
  | VNumber n => ret (createNumberNode n)
  | VNull | VObject _ => parseObject current
  | VSymbol d => createSymbolNode d
  | VFunction a => createFunctionNode a
  end.

(** [AsyncParserContext.parseObject]; [fuel] bounds the depth of the calls. *)
Fixpoint parseObject (fuel : nat) (current : Value) : ParseM SerovalNode :=
  match fuel with
  | 0 => throw OutOfFuel
  | S fuel' => parseObjectStep (parseWith (parseObject fuel')) (parseObject fuel') current
  end.

Definition parse (fuel : nat) (current : Value) : ParseM SerovalNode :=
  parseWith (parseObject fuel) current.

End AsyncParser.
End AsyncParser.

(** ** The asynchronous cross-referencing parser ([crossParseAsync]) *)

Module CrossAsyncParser.
Section CrossAsyncParser.
Context `{ParserHost}.

(** Modelled from the spec: [serializeArrayBuffer] of [core/cross/primitives.ts]
    (not among the sources): "the byte buffer is shared across views via id"
    (spec 4.5.8), with the id assignment of this parser's [parseObject]. *)
Definition serializeArrayBuffer (current : Addr) : ParseM SerovalNode :=
  registeredID <- gets (fun st => p_refs st !! current) ;;
  match registeredID with
  | Some id => ret (createIndexedValueNode id)
  | None =>
      id <- createCrossIndexedValue current ;;
      o <- heapGet current ;;
      createArrayBufferNode id o
  end.

Section Functions.
Variable crossParseAsync : Value -> ParseM SerovalNode.
Variable parseObject : Value -> ParseM SerovalNode.

Definition generateRequestNode (id : nat) (current : Obj) : ParseM SerovalNode :=
  match slots current with
  | SRequest url body =>
      buffer <- (match body with
                 | Some bytes => a <- heapAlloc (bufferObj bytes) ;; ret (Some a)
                 | None => ret None
                 end) ;;
      options <- heapAlloc (recordObj (createRequestOptions current buffer)) ;;
      f <- parseObject (VObject options) ;;
      ret (RequestNode id (serializeString url) f)
  | _ => throw TypeError
  end.

Definition generateResponseNode (id : nat) (current : Obj) : ParseM SerovalNode :=
  match slots current with
  | SResponse body =>
      a0 <- (match body with
             | Some bytes =>
                 buffer <- heapAlloc (bufferObj bytes) ;;
                 serializeArrayBuffer buffer
             | None => ret NULL_NODE
             end) ;;
      options <- heapAlloc (recordObj (createResponseOptions current)) ;;
      a1 <- parseObject (VObject options) ;;
      ret (ResponseNode id a0 a1)
  | _ => throw TypeError
  end.

Definition generateEventNode (id : nat) (current : Obj) : ParseM SerovalNode :=
  match slots current with
  | SEvent type =>
      options <- heapAlloc (recordObj (createEventOptions current)) ;;
      f <- parseObject (VObject options) ;;
      ret (EventNode id (serializeString type) f)
  | _ => throw TypeError
  end.

Definition generateCustomEventNode (id : nat) (current : Obj) : ParseM SerovalNode :=
  match slots current with
  | SEvent type =>
      options <- heapAlloc (recordObj (createCustomEventOptions current)) ;;
      f <- parseObject (VObject options) ;;
      ret (CustomEventNode id (serializeString type) f)
  | _ => throw TypeError
  end.

(** [parseObject] from the comment "Slow path" on. *)
Definition parseObjectSlow (id : nat) (current : Obj) : ParseM SerovalNode :=
  ft <- gets p_features ;;
  if instanceofError current
  then generateErrorNode crossParseAsync createCrossIndexedValue true id current
  else if hasFeature ft Feature.Symbol && hasSymbolIterator current then
    generateObjectNode crossParseAsync createCrossIndexedValue true id current
      (ctorTruthy (constructor current))
  else throw UnsupportedTypeError.

(** [parseObject] from the test of [AggregateError] on. *)
Definition parseObjectLate (id : nat) (current : Obj) : ParseM SerovalNode :=
  let currentClass := constructor current in
  ft <- gets p_features ;;
  if hasFeature ft Feature.AggregateError
     && (AsyncParser.isCtorAggregateError currentClass || instanceofAggregateError current)
  then generateAggregateErrorNode crossParseAsync createCrossIndexedValue true id current
  else if hasFeature ft Feature.Promise
          && (AsyncParser.isCtorPromise currentClass || instanceofPromise current)
  then generatePromiseNode crossParseAsync id current
  else parseObjectSlow id current.

(** [parseObject] from the comment "Web APIs" on. *)
Definition parseObjectWebAPI (id : nat) (current : Obj) : ParseM SerovalNode :=
  ft <- gets p_features ;;
  if hasFeature ft Feature.WebAPI then
    match constructor current with
    | CtorURL => createURLNode id current
    | CtorURLSearchParams => createURLSearchParamsNode id current
    | CtorBlob => createBlobNode id current
    | CtorFile => createFileNode id current
    | CtorHeaders => generateHeadersNode crossParseAsync id current
    | CtorFormData => generateFormDataNode crossParseAsync id current
    | CtorRequest => generateRequestNode id current
    | CtorResponse => generateResponseNode id current
    | CtorEvent => generateEventNode id current
    | CtorCustomEvent => generateCustomEventNode id current
    | CtorDOMException => createDOMExceptionNode id current
    | _ => parseObjectLate id current
    end
  else parseObjectLate id current.

(** [parseObject] from the comment "ES Collection" on. *)
Definition parseObjectCollection (id : nat) (current : Obj) : ParseM SerovalNode :=
  let currentClass := constructor current in
  ft <- gets p_features ;;
  if hasFeature ft Feature.Map && AsyncParser.isCtorMap currentClass
  then generateMapNode crossParseAsync id current
  else if hasFeature ft Feature.Set_ && AsyncParser.isCtorSet currentClass
  then generateSetNode crossParseAsync id current
  else parseObjectWebAPI id current.

(** [parseObject] from the comment "BigInt Typed Arrays" on. *)
Definition parseObjectBigInt (id : nat) (current : Obj) : ParseM SerovalNode :=
  ft <- gets p_features ;;
  if hasBigIntFlag ft then
    match constructor current with
    | CtorBigIntTypedArray c => createBigIntTypedArrayNode serializeArrayBuffer id c current
    | _ => parseObjectCollection id current
    end
  else parseObjectCollection id current.

(** [parseObject] from the comment "Typed Arrays" on. *)
Definition parseObjectTyped (id : nat) (current : Obj) : ParseM SerovalNode :=
  ft <- gets p_features ;;
  if hasFeature ft Feature.TypedArray then
    match constructor current with
    | CtorArrayBuffer => createArrayBufferNode id current
    | CtorTypedArray c => createTypedArrayNode serializeArrayBuffer id c current
    | CtorDataView => createDataViewNode serializeArrayBuffer id current
    | _ => parseObjectBigInt id current
    end
  else parseObjectBigInt id current.

(** [parseObject] after [ctx.refs.set(current, id)]: the value is met for the
    first time, and [id] is its new id. *)
Definition parseObjectNew (a : Addr) (id : nat) : ParseM SerovalNode :=
  if hasReferenceID a then ret (createReferenceNode id a)
  else
    current <- heapGet a ;;
    if isArray current then generateArrayNode crossParseAsync true id current
    else
      match constructor current with
      | CtorNumber | CtorBoolean | CtorString | CtorBigInt =>
          generateBoxedNode crossParseAsync id current
      | CtorDate => createDateNode id current
      | CtorRegExp => createRegExpNode id current
      | CtorObject =>
          generateObjectNode crossParseAsync createCrossIndexedValue true id current false
      | CtorUndefined =>
          generateObjectNode crossParseAsync createCrossIndexedValue true id current true
      | CtorError _ =>
          generateErrorNode crossParseAsync createCrossIndexedValue true id current
      | _ => parseObjectTyped id current
      end.

Definition parseObjectStep (current : Value) : ParseM SerovalNode :=
  match current with
  | VNull => ret NULL_NODE
  | VObject a =>
      registeredID <- gets (fun st => p_refs st !! a) ;;
      match registeredID with
      | Some registeredID => ret (createIndexedValueNode registeredID)
      | None =>
          id <- gets (fun st => size (p_refs st)) ;;
          modify (fun st => set_refs (<[ a := id ]> (p_refs st)) st) ;;;
          parseObjectNew a id
      end
  | _ => throw TypeError
  end.

End Functions.

(** [crossParseAsync], given [parseObject]. *)
Definition crossParseAsyncWith (parseObject : Value -> ParseM SerovalNode) (current : Value)
    : ParseM SerovalNode :=
  match current with
  | VBigInt z =>
      ft <- gets p_features ;;
      if hasFeature ft Feature.BigInt then createBigIntNode z
      else throw UnsupportedTypeError
  | VBoolean b => ret (if b then TRUE_NODE else FALSE_NODE)
  | VUndefined => ret UNDEFINED_NODE
  | VString s => ret (createStringNode s)
  | VNumber n => ret (createNumberNode n)
  | VNull | VObject _ => parseObject current
  | VSymbol d => createSymbolNode d
  | VFunction a => createFunctionNode a
  end.

(** [parseObject(ctx, current)]; [fuel] bounds the depth of the calls. *)
Fixpoint parseObject (fuel : nat) (current : Value) : ParseM SerovalNode :=
  match fuel with
  | 0 => throw OutOfFuel
  | S fuel' =>
      parseObjectStep (crossParseAsyncWith (parseObject fuel')) (parseObject fuel') current
  end.

Definition crossParseAsync (fuel : nat) (current : Value) : ParseM SerovalNode :=
  crossParseAsyncWith (parseObject fuel) current.

End CrossAsyncParser.
End CrossAsyncParser.

(** ** The streaming driver ([Serializer])

    [crossSerializeStream] is not among the sources.  What the driver relies on
    is its interface: a call starts a stream for one root and returns the
    root's cleanup, and the stream later calls the [onSerialize] and [onDone]
    it was given.  Those calls are events of the driver, beside the calls of
    its own methods.  The user's callbacks are opaque: they do not call back
    into the driver. *)

Module Driver.

(** What the user (and a cleanup) sees of a run. *)
Inductive Delivered :=
| OnData (result : string)
| OnDone
| Cleanup (root : nat).

Record Options := mkOptions {
  globalIdentifier : string;
  (* whether [options.onDone] is configured *)
  hasOnDone : bool;
  (* the escaping helper of core/string.ts *)
  escape : string -> string;
}.

Record Serializer := mkSerializer {
  alive : bool;
  flushed : bool;
  done : bool;
  pending : Z;
  (* [cleanups]: one per root started, in order; the roots' keys beside them *)
  cleanups : list nat;
  rootKeys : list string;
  keys : gset string;
  ids : nat;
  (* the callbacks delivered so far, oldest first *)
  log : list Delivered;
}.

Definition init : Serializer :=
  mkSerializer true false false 0 [] [] ∅ 0 [].

Inductive Event :=
| Write (key : string) (value : Value)
| Push (value : Value)
| Flush
| Close
(* the stream of root [root] calls the [onSerialize] / the [onDone] it was given *)
| RootSerialize (root : nat) (data : string) (initial : bool)
| RootDone (root : nat).

Section Methods.
Variable options : Options.

(** [if (... && !this.done && this.options.onDone) { this.options.onDone(); this.done = true; }] *)
Definition fireDone (s : Serializer) : Serializer :=
  if negb (done s) && hasOnDone options
  then mkSerializer (alive s) (flushed s) true (pending s) (cleanups s) (rootKeys s)
         (keys s) (ids s) (log s ++ [OnDone])
  else s.

Definition write (key : string) (value : Value) (s : Serializer) : Serializer :=
  if alive s && negb (flushed s)
  then mkSerializer (alive s) (flushed s) (done s) (pending s + 1)
         (cleanups s ++ [length (cleanups s)]) (rootKeys s ++ [key])
         ({[ key ]} ∪ keys s) (ids s) (log s)
  else s.

(** The [while] loop of [getNextID]: it ends within [size keys + 1] rounds. *)
Fixpoint getNextIDLoop (rounds : nat) (ks : gset string) (n : nat) : nat :=
  match rounds with
  | 0 => n
  | S r => if bool_decide (pretty n ∈ ks) then getNextIDLoop r ks (S n) else n
  end.

Definition getNextID (s : Serializer) : string * Serializer :=
  let n := getNextIDLoop (S (size (keys s))) (keys s) (ids s) in
  (pretty n,
   mkSerializer (alive s) (flushed s) (done s) (pending s) (cleanups s) (rootKeys s)
     (keys s) n (log s)).

Definition push (value : Value) (s : Serializer) : string * Serializer :=
  let r := getNextID s in
  (fst r, write (fst r) value (snd r)).

Definition flush (s : Serializer) : Serializer :=
  if alive s then
    let s1 := mkSerializer (alive s) true (done s) (pending s) (cleanups s) (rootKeys s)
                (keys s) (ids s) (log s) in
    if (pending s1 <=? 0)%Z then fireDone s1 else s1
  else s.

Definition close (s : Serializer) : Serializer :=
  if alive s then
    let s1 := mkSerializer (alive s) (flushed s) (done s) (pending s) (cleanups s)
                (rootKeys s) (keys s) (ids s) (log s ++ map Cleanup (cleanups s)) in
    let s2 := fireDone s1 in
    mkSerializer false (flushed s2) (done s2) (pending s2) (cleanups s2) (rootKeys s2)
      (keys s2) (ids s2) (log s2)
  else s.

(** The [onSerialize] that [write] hands to the stream of the root with key [key]. *)
Definition onSerialize (key : string) (data : string) (initial : bool) (s : Serializer)
    : Serializer :=
  if alive s then
    mkSerializer (alive s) (flushed s) (done s) (pending s) (cleanups s) (rootKeys s)
      (keys s) (ids s)
      (log s ++ [OnData (if initial
                         then globalIdentifier options +:+ "[" +:+ quoted (escape options key)
                                +:+ "]=" +:+ data
                         else data)])
  else s.

(** The [onDone] that [write] hands to a stream. *)
Definition onDone (s : Serializer) : Serializer :=
  if alive s then
    let s1 := mkSerializer (alive s) (flushed s) (done s) (pending s - 1) (cleanups s)
                (rootKeys s) (keys s) (ids s) (log s) in
    if (pending s1 <=? 0)%Z && flushed s1 then fireDone s1 else s1
  else s.

Definition step (s : Serializer) (e : Event) : Serializer :=
  match e with
  | Write key value => write key value s
  | Push value => snd (push value s)
  | Flush => flush s
  | Close => close s
  | RootSerialize root data initial =>
      match rootKeys s !! root with
      | Some key => onSerialize key data initial s
      | None => s
      end
  | RootDone root =>
      match rootKeys s !! root with
      | Some _ => onDone s
      | None => s
      end
  end.

Definition run (s : Serializer) (es : list Event) : Serializer :=
  fold_left step es s.

End Methods.

(** How often [onDone] was delivered. *)
Fixpoint countDone (l : list Delivered) : nat :=
  match l with
  | [] => 0
  | OnDone :: rest => S (countDone rest)
  | _ :: rest => countDone rest
  end.

Definition doneCount (s : Serializer) : nat := countDone (log s).

Definition isClose (e : Event) : bool :=
  match e with Close => true | _ => false end.

End Driver.

(** ** The self-contained serializer, and hosts for the examples *)

Definition REF_START_CHARS : string :=
  "abcdefghijklmnopqrstuvwxyzABCDEFGHIJKLMNOPQRSTUVWXYZ_$".
Definition REF_CHARS : string :=
  "abcdefghijklmnopqrstuvwxyzABCDEFGHIJKLMNOPQRSTUVWXYZ_$0123456789".

Definition charAt (n : nat) (alphabet : string) : string :=
  match String.get n alphabet with
  | Some ch => String ch EmptyString
  | None => ""
  end.

Fixpoint identifierTail (rounds rest : nat) : string :=
  match rounds with
  | 0 => ""
  | S r =>
      match rest with
      | 0 => ""
      | S k => charAt (k mod 64) REF_CHARS +:+ identifierTail r (k / 64)
      end
  end.

(** Modelled from the spec: the name scheme of the self-contained serializer
    (its class is not among the sources), "a base-54 encoding of the id over the
    alphabet [A-Za-z_$] followed by [A-Za-z0-9_$]*, yielding names like a, b,
    ..., A, aa" (spec 4.5.1). *)
Definition getIdentifier (index : nat) : string :=
  charAt (index mod 54) REF_START_CHARS +:+ identifierTail index (index / 54).

(** Modelled from the spec: [getRefParam] of the self-contained serializer:
    it returns the name and "records that the id has been observed as needing a
    name (marks)" (spec 4.5.1). *)
Definition vanillaGetRefParam (id : nat) : SerM unit string :=
  modify (fun c => set_marked ({[ id ]} ∪ marked c) c) ;;;
  ret (getIdentifier id).

(** Modelled from the spec: [assignIndexedValue] "yields either the bare expr
    (if the id is not marked) or name=expr (if marked)" (spec 4.5.2). *)
Definition vanillaAssignIndexedValue (id : nat) (value : string) : SerM unit string :=
  mk <- gets (fun c => bool_decide (id ∈ marked c)) ;;
  if mk then
    ref <- vanillaGetRefParam id ;;
    ret (ref +:+ "=" +:+ value)
  else ret value.

(** Modelled from the spec: an assignment is "a post-construction mutation
    (obj.k = v, arr[i]=v, m.set(k,v), s.add(v)) emitted after the enclosing
    constructor expression" (glossary); [resolveAssignments] of
    [core/assignments.ts] (not among the sources) joins them, each followed by
    a comma. *)
Definition assignmentExpression (a : Assignment) : string :=
  match a_t a with
  | AIndex => a_s a +:+ "=" +:+ a_v a
  | AAdd => a_s a +:+ ".add(" +:+ a_v a +:+ ")"
  | ASet => a_s a +:+ ".set(" +:+ default "undefined" (a_k a) +:+ "," +:+ a_v a +:+ ")"
  end.

Definition exampleResolveAssignments (asg : list Assignment) : option string :=
  match asg with
  | [] => None
  | _ => Some (String.concat "" (map (fun a => assignmentExpression a +:+ ",") asg))
  end.

(** Modelled from the spec: integrity flags "are applied with
    Object.seal/freeze/preventExtensions after any patches" (spec 4.5.4). *)
Definition flagExpression (f : FlaggedObject) : string :=
  match f_type f with
  | FlagNone => ""
  | NonExtensible => "Object.preventExtensions(" +:+ f_value f +:+ ")"
  | Sealed => "Object.seal(" +:+ f_value f +:+ ")"
  | Frozen => "Object.freeze(" +:+ f_value f +:+ ")"
  end.

Definition exampleResolveFlags (fl : list FlaggedObject) : option string :=
  match fl with
  | [] => None
  | _ => Some (String.concat "" (map (fun f => flagExpression f +:+ ",") fl))
  end.

Definition isDigit (ch : ascii) : bool :=
  let n := nat_of_ascii ch in Nat.leb 48 n && Nat.leb n 57.

Definition isIdentifierStart (ch : ascii) : bool :=
  let n := nat_of_ascii ch in
  (Nat.leb 65 n && Nat.leb n 90) || (Nat.leb 97 n && Nat.leb n 122)
  || Nat.eqb n 95 || Nat.eqb n 36.

Fixpoint allChars (test : ascii -> bool) (s : string) : bool :=
  match s with
  | EmptyString => true
  | String ch rest => test ch && allChars test rest
  end.

(** For the examples: identifiers of letters, digits, [_] and [$]. *)
Definition exampleIsValidIdentifier (s : string) : bool :=
  match s with
  | EmptyString => false
  | String ch rest =>
      isIdentifierStart ch && allChars (fun c => isIdentifierStart c || isDigit c) rest
  end.

Fixpoint digitsValue (s : string) (acc : Z) : Z :=
  match s with
  | EmptyString => acc
  | String ch rest => digitsValue rest (10 * acc + Z.of_nat (nat_of_ascii ch - 48))
  end.

(** For the examples: [Number(key)] on the keys that are decimal numerals
    (or empty); every other key is read as [NaN]. *)
Definition exampleToNumber (s : string) : JSNumber :=
  if allChars isDigit s then Finite (digitsValue s 0) else NaN.

Definition unsupportedNode {A : Type} : SerM unit A :=
  throw (HostError "Unsupported node type").

(** The self-contained serializer: it has no streaming nodes and no plugins. *)
#[export] Instance vanillaHost : Host unit := {|
  getRefParam := vanillaGetRefParam;
  assignIndexedValue := vanillaAssignIndexedValue;
  serializePromiseConstructor := fun _ => unsupportedNode;
  serializePromiseResolve := fun _ _ => unsupportedNode;
  serializePromiseReject := fun _ _ => unsupportedNode;
  serializeReadableStreamConstructor := fun _ => unsupportedNode;
  serializeReadableStreamEnqueue := fun _ _ => unsupportedNode;
  serializeReadableStreamError := fun _ _ => unsupportedNode;
  serializeReadableStreamClose := fun _ => unsupportedNode;
  plugins := None;
  resolveAssignments := exampleResolveAssignments;
  resolveFlags := exampleResolveFlags;
  isValidIdentifier := exampleIsValidIdentifier;
  ToNumber := exampleToNumber;
  SYMBOL_STRING := fun _ => "Symbol.iterator";
  REFERENCES_KEY := "__SEROVAL_REFS__";
|}.

(** A fresh context of the self-contained serializer. *)
Definition vanillaCtx (ft : N) (markedRefs : gset nat) : SerCtx unit :=
  mkSerCtx ft [] [] [] markedRefs ∅ tt.

(** Modelled from the spec: [isIterable] of [core/shared.ts] (not among the
    sources): a value "presents as iterable" (spec 4.4.1) when it is an object
    with the iterator protocol that is not one of the built-in collections the
    dispatch recognizes (arrays, Map, Set, typed arrays). *)
Definition exampleIsIterable (st : ParseState) (v : Value) : bool :=
  match v with
  | VObject a =>
      match p_heap st !! a with
      | Some o =>
          match slots o with
          | SArray _ | SMap _ | SSet _ | STypedArray _ _ _ => false
          | _ => hasSymbolIterator o
          end
      | None => false
      end
  | _ => false
  end.

Definition unsupportedValue : ParseM SerovalNode :=
  throw (HostError "not part of the examples").

(** A host for the examples: strings that need no escaping, an empty reference
    registry, no symbols, functions or web objects. *)
#[export] Instance exampleParserHost : ParserHost := {|
  serializeString := fun s => s;
  isIterable := exampleIsIterable;
  getErrorOptions := fun _ _ => None;
  getErrorConstructor := fun _ => TagError;
  getErrorConstructorName := fun _ => "Error";
  hasReferenceID := fun _ => false;
  getReferenceID := fun _ => "";
  createSymbolNode := fun _ => unsupportedValue;
  createFunctionNode := fun _ => unsupportedValue;
  createBlobNode := fun _ _ => unsupportedValue;
  createFileNode := fun _ _ => unsupportedValue;
  createURLNode := fun _ _ => unsupportedValue;
  createURLSearchParamsNode := fun _ _ => unsupportedValue;
  createDOMExceptionNode := fun _ _ => unsupportedValue;
  createRequestOptions := fun _ _ => [];
  createResponseOptions := fun _ => [];
  createEventOptions := fun _ => [];
  createCustomEventOptions := fun _ => [];
  builtinItems := fun _ => [];
  typedArrayName := fun _ => "Uint8Array";
  bigIntTypedArrayName := fun _ => "BigInt64Array";
|}.

(** A fresh parser context over a heap. *)
Definition parserCtx (ft : N) (heap : gmap Addr Obj) : ParseState :=
  mkParseState ft ∅ ∅ heap.

(** [new Map()] with the given entries, [{}] with the given properties, an array. *)
Definition mapObj (entries : list (Value * Value)) : Obj :=
  mkObj CtorMap (SMap entries) [] None FlagNone.
Definition plainObj (properties : list (string * Value)) : Obj :=
  mkObj CtorObject SOrdinary properties None FlagNone.
Definition listObj (items : list (option Value)) : Obj :=
  mkObj CtorArray (SArray items) [] None FlagNone.

(** [const o = {}; const m = new Map([[o, m]]); root = [m, o]]:
    address 0 is the array, 1 the Map, 2 the object. *)
Definition heapKeyDeferred : gmap Addr Obj :=
  <[ 0 := listObj [Some (VObject 1); Some (VObject 2)] ]>
  (<[ 1 := mapObj [(VObject 2, VObject 1)] ]>
  (<[ 2 := plainObj [] ]> ∅)).

(** [const o = {}; o.m = new Map([[o, 1]])]: address 0 is the object, 1 the Map. *)
Definition heapAncestorKey : gmap Addr Obj :=
  <[ 0 := plainObj [("m", VObject 1)] ]>
  (<[ 1 := mapObj [(VObject 0, VNumber (Finite 1))] ]> ∅).

(** [new Map()] alone, at address 0. *)
Definition heapEmptyMap : gmap Addr Obj :=
  <[ 0 := mapObj [] ]> ∅.

(** [const o = {}; const root = [o, o]; root.push(root)]: address 0 is the
    array, 1 the object. *)
Definition heapShared : gmap Addr Obj :=
  <[ 0 := listObj [Some (VObject 1); Some (VObject 1); Some (VObject 0)] ]>
  (<[ 1 := plainObj [] ]> ∅).

(** The options of a streaming driver with [onDone] configured. *)
Definition exampleOptions : Driver.Options :=
  Driver.mkOptions "$R" true (fun s => s).

(** * Theorems *)

(** ** The monad *)

Section MonadFacts.
Context {S : Type}.

Lemma bind_Ok {A B : Type} (m : M S A) (f : A -> M S B) (c : S) (b : B) (c' : S) :
  bind m f c = Ok (b, c') ->
  exists a c1, m c = Ok (a, c1) /\ f a c1 = Ok (b, c').
Proof.
  unfold bind. destruct (m c) as [[a c1]|e]; [|discriminate].
  intros E. exists a, c1. split; [reflexivity|exact E].
Qed.

Lemma bind_ret_l {A B : Type} (a : A) (f : A -> M S B) (c : S) :
  bind (ret a) f c = f a c.
Proof. reflexivity. Qed.

Lemma bind_assoc {A B C : Type} (m : M S A) (f : A -> M S B) (g : B -> M S C) (c : S) :
  bind (bind m f) g c = bind m (fun a => bind (f a) g) c.
Proof.
  unfold bind. destruct (m c) as [[a c1]|e]; reflexivity.
Qed.

End MonadFacts.

(** ** Promise nodes (C6) *)

(** The text the specification gives for a promise whose payload is on the
    stack (spec 4.5.7), by the arrow feature and the settled state. *)
Definition promiseOnStackText (arrow resolved : bool) (ref : string) : string :=
  match arrow, resolved with
  | true, true => "Promise.resolve().then(()=>" +:+ ref +:+ ")"
  | true, false => "Promise.reject().catch(()=>{throw " +:+ ref +:+ "})"
  | false, true => "Promise.resolve().then(function(){return " +:+ ref +:+ "})"
  | false, false => "Promise.reject().catch(function(){throw " +:+ ref +:+ "})"
  end.

(** The text for a payload that is inlined. *)
Definition promiseInlineText (resolved : bool) (expr : string) : string :=
  if resolved then "Promise.resolve(" +:+ expr +:+ ")"
  else "Promise.reject(" +:+ expr +:+ ")".

(** Whether [node] is an IndexedValue whose id is on the stack of [c]. *)
Definition onStack {Ext : Type} (node : SerovalNode) (c : SerCtx Ext) : bool :=
  match node with
  | IndexedValueNode j => bool_decide (j ∈ stack c)
  | _ => false
  end.

Section SerializerFacts.
Context {Ext : Type} `{Host Ext}.

Lemma isIndexedValueInStack_eq (node : SerovalNode) (c : SerCtx Ext) :
  isIndexedValueInStack node c = Ok (onStack node c, c).
Proof. destruct node; reflexivity. Qed.

Lemma serializePromise_unfold (ser : SerovalNode -> SerM Ext string)
    (i s : nat) (f : SerovalNode) (c : SerCtx Ext) :
  serializePromise ser i s f c =
    if onStack f c then
      (ref <- getRefParamOf f ;;
       ft <- gets features ;;
       assignIndexedValue i
         (promiseOnStackText (hasFeature ft Feature.ArrowFunction) (negb (Nat.eqb s 0)) ref)) c
    else
      (stack_push i ;;;
       expr <- ser f ;;
       stack_pop ;;;
       assignIndexedValue i (promiseInlineText (negb (Nat.eqb s 0)) expr)) c.
Proof.
  unfold serializePromise.
  unfold bind at 1. rewrite isIndexedValueInStack_eq.
  destruct (onStack f c).
  - unfold bind. destruct (getRefParamOf f c) as [[ref c1]|e]; [|reflexivity].
    unfold gets.
    destruct (hasFeature (features c1) Feature.ArrowFunction), (Nat.eqb s 0); reflexivity.
  - unfold bind. destruct (stack_push i c) as [[u c1]|e]; [|reflexivity].
    destruct (ser f c1) as [[r c2]|e]; [|reflexivity].
    destruct (stack_pop c2) as [[u' c3]|e]; [|reflexivity].
    destruct (Nat.eqb s 0); reflexivity.
Qed.

(** C6: a Promise node whose payload is an IndexedValue on the stack is emitted
    as [Promise.resolve().then(()=>ref)], or as the catch form that throws
    [ref] when it is rejected, with function expressions when ArrowFunction is
    off; otherwise the payload is serialized with the promise's id on the stack
    and inlined as [Promise.resolve(expr)] or [Promise.reject(expr)].  In both
    cases the text goes through [assignIndexedValue] for the promise's id. *)
Theorem serialize_Promise_emits (i s : nat) (f : SerovalNode) (c : SerCtx Ext) :
  serialize (PromiseNode i s f) c =
    if onStack f c then
      (ref <- getRefParamOf f ;;
       ft <- gets features ;;
       assignIndexedValue i
         (promiseOnStackText (hasFeature ft Feature.ArrowFunction) (negb (Nat.eqb s 0)) ref)) c
    else
      (stack_push i ;;;
       expr <- serialize f ;;
       stack_pop ;;;
       assignIndexedValue i (promiseInlineText (negb (Nat.eqb s 0)) expr)) c.
Proof.
  change (serialize (PromiseNode i s f)) with (serializePromise serialize i s f).
  apply serializePromise_unfold.
Qed.

End SerializerFacts.

(** ** Constants (C9) *)

Section ConstantFacts.
Context {Ext : Type} `{Host Ext} `{ParserHost}.

(** C9: the number [Infinity] parses to the constant node of [Infinity], not to
    a Number node, in each parser, and so do [-Infinity], [NaN] and [-0] to
    theirs; a constant node is emitted as its literal, which is ["1/0"] for
    [Infinity]: serializing the parse of [1/0] gives exactly ["1/0"]. *)
Theorem serialize_Infinity (fuel : nat) (st : ParseState) (c : SerCtx Ext) :
  createNumberNode Infinity = ConstantNode CInfinity
  /\ createNumberNode NegInfinity = ConstantNode CNegativeInfinity
  /\ createNumberNode NaN = ConstantNode CNaN
  /\ createNumberNode NegZero = ConstantNode CNegativeZero
  /\ SyncParser.parseSync (S fuel) (VNumber Infinity) st = Ok (createNumberNode Infinity, st)
  /\ AsyncParser.parse fuel (VNumber Infinity) st = Ok (createNumberNode Infinity, st)
  /\ CrossAsyncParser.crossParseAsync fuel (VNumber Infinity) st
       = Ok (createNumberNode Infinity, st)
  /\ (forall k, serialize (ConstantNode k) c = Ok (CONSTANT_STRING k, c))
  /\ serialize (createNumberNode Infinity) c = Ok ("1/0", c).
Proof.
  repeat split; reflexivity.
Qed.

End ConstantFacts.

(** ** Map entries (C3, C1) *)

Section MapEntryFacts.
Context {Ext : Type} `{Host Ext}.

(** The test of the second branch of [serializeMapEntry] reads [val], which is
    an IndexedValue there: it is never true. *)
Lemma isMarkedOriginal_IndexedValue (j : nat) (c : SerCtx Ext) :
  isMarkedOriginal (IndexedValueNode j) c = Ok (false, c).
Proof. reflexivity. Qed.

(** When the value is on the stack and the key is not, the key is serialized
    in place into the assignment, whether it is marked or not: nothing is
    deferred by this branch. *)
Lemma serializeMapEntry_value_on_stack (ser : SerovalNode -> SerM Ext string)
    (id j : nat) (key : SerovalNode) (c : SerCtx Ext) :
  onStack key c = false ->
  onStack (IndexedValueNode j) c = true ->
  serializeMapEntry ser id key (IndexedValueNode j) c =
    (valueRef <- getRefParam j ;;
     markRef id ;;;
     parent <- gets stack ;;
     modify (set_stack []) ;;;
     r <- ser key ;;
     createSetAssignment id r valueRef ;;;
     modify (set_stack parent) ;;;
     ret "") c.
Proof.
  intros Hk Hv. unfold serializeMapEntry.
  unfold bind at 1. rewrite isIndexedValueInStack_eq, Hk.
  unfold bind at 1. rewrite isIndexedValueInStack_eq, Hv.
  unfold getRefParamOf. simpl node_i.
  unfold bind. destruct (getRefParam j c) as [[valueRef c1]|e]; [|reflexivity].
  unfold markRef, isMarkedOriginal, isIndexedValue, modify, gets, ret.
  destruct (ser key _) as [[r c2]|e]; reflexivity.
Qed.

End MapEntryFacts.

(** The failing input of C3: [const o = {}; const m = new Map([[o, m]]);
    root = [m, o]].  The parser marks [o] (id 2), since it occurs twice, and
    hands the Map entry [(Object 2, IndexedValue 1)] to the serializer. *)
Lemma parse_heapKeyDeferred :
  SyncParser.parseSync 4 (VObject 0) (parserCtx Feature.ALL heapKeyDeferred) =
    Ok (ArrayNode 0 2
          [Some (MapNode 1 (mkRecordNode
                   [(ObjectNode 2 (mkRecordNode [] 0) FlagNone, IndexedValueNode 1)] 1));
           Some (IndexedValueNode 2)] FlagNone,
        mkParseState Feature.ALL
          (<[ 2 := 2 ]> (<[ 1 := 1 ]> (<[ 0 := 0 ]> ∅))) ({[ 2 ]} ∪ ({[ 1 ]} ∪ ∅))
          heapKeyDeferred).
Proof. vm_compute. reflexivity. Qed.

(** C3, at the failing input: with the value on the stack, the marked key
    (id 2) is not deferred.  Its definition [c={}] is written into the
    assignment [b.set(c={},b)], which runs after the array literal, whose
    second slot already reads [c]; the deferred map stays empty. *)
Lemma serialize_heapKeyDeferred :
  exists c',
    serialize
      (ArrayNode 0 2
         [Some (MapNode 1 (mkRecordNode
                  [(ObjectNode 2 (mkRecordNode [] 0) FlagNone, IndexedValueNode 1)] 1));
          Some (IndexedValueNode 2)] FlagNone)
      (vanillaCtx Feature.ALL ({[ 2 ]} ∪ ({[ 1 ]} ∪ ∅))) = Ok ("[b=new Map,c]", c')
    /\ assignments c' = [mkAssignment ASet "b" (Some "c={}") "b"]
    /\ deferred c' = ∅.
Proof.
  eexists. split; [vm_compute; reflexivity|]. split; reflexivity.
Qed.

(** C1, at the failing input [const o = {}; o.m = new Map([[o, 1]])]: the key
    of the Map's entry is the object [o] (id 0, named [a]), but the patch that
    is emitted is [b.set(b,1)]: its key is the Map itself (id 1, named [b]). *)
Lemma serialize_heapAncestorKey :
  exists node st c',
    SyncParser.parseSync 4 (VObject 0) (parserCtx Feature.ALL heapAncestorKey) = Ok (node, st)
    /\ node = ObjectNode 0 (mkRecordNode
                 [(KeyString "m",
                   MapNode 1 (mkRecordNode [(IndexedValueNode 0, NumberNode (Finite 1))] 1))] 1)
               FlagNone
    /\ serialize node (vanillaCtx Feature.ALL (p_marked st)) = Ok ("a={m:b=new Map}", c')
    /\ assignments c' = [mkAssignment ASet "b" (Some "b") "1"]
    /\ getIdentifier 0 = "a" /\ getIdentifier 1 = "b".
Proof.
  do 3 eexists. split; [vm_compute; reflexivity|].
  split; [reflexivity|]. split; [vm_compute; reflexivity|].
  repeat split; reflexivity.
Qed.

(** ** The stack discipline (C10) *)

Section NestedForall.
Variable P : SerovalNode -> Prop.

Lemma list_all_Forall (a : list SerovalNode) :
  list_all SerovalNode P a -> Forall P a.
Proof. induction 1; constructor; assumption. Qed.

Lemma list_option_all_Forall (a : list (option SerovalNode)) :
  list_all (option SerovalNode) (option_all SerovalNode P) a ->
  Forall (fun o => forall n, o = Some n -> P n) a.
Proof.
  induction 1 as [|o Ho l _ IH]; constructor; [|assumption].
  intros n E. destruct Ho; [|discriminate]. injection E as <-. assumption.
Qed.

Lemma record_all_Forall {K : Set} (r : RecordNode K SerovalNode) :
  RecordNode_all K (fun _ => unit) SerovalNode P r ->
  Forall (fun e => P (snd e)) (kv r).
Proof.
  intros [entries Hl size]. simpl.
  induction Hl as [|e He l _ IH]; constructor; [|assumption].
  destruct He. assumption.
Qed.

Lemma map_record_all_Forall (r : RecordNode SerovalNode SerovalNode) :
  RecordNode_all SerovalNode P SerovalNode P r ->
  Forall (fun e => P (fst e) /\ P (snd e)) (kv r).
Proof.
  intros [entries Hl size]. simpl.
  induction Hl as [|e He l _ IH]; constructor; [|assumption].
  destruct He. split; assumption.
Qed.

Lemma option_record_all_Forall {K : Set} (p : option (RecordNode K SerovalNode)) :
  option_all (RecordNode K SerovalNode)
    (RecordNode_all K (fun _ => unit) SerovalNode P) p ->
  forall r, p = Some r -> Forall (fun e => P (snd e)) (kv r).
Proof.
  intros Hp r E. destruct Hp; [|discriminate].
  injection E as <-. apply record_all_Forall. assumption.
Qed.

End NestedForall.

Section StackTriples.
Context {Ext : Type}.

(** Started with the stack [pre], [m] returns with the stack [post]. *)
Definition stack_triple {A : Type} (pre : list nat) (m : SerM Ext A) (post : list nat) : Prop :=
  forall c a c', stack c = pre -> m c = Ok (a, c') -> stack c' = post.

(** [m] returns with the stack it was started with. *)
Definition keeps_stack {A : Type} (m : SerM Ext A) : Prop :=
  forall st, stack_triple st m st.

Lemma triple_ret {A : Type} (a : A) st : stack_triple st (ret a) st.
Proof. intros c x c' E R. injection R as _ <-. exact E. Qed.

Lemma triple_throw {A : Type} (e : SerovalError) st st' :
  stack_triple st (throw (A := A) e) st'.
Proof. intros c x c' _ R. discriminate R. Qed.

Lemma triple_bind {A B : Type} (m : SerM Ext A) (f : A -> SerM Ext B) st1 st2 st3 :
  stack_triple st1 m st2 ->
  (forall a, stack_triple st2 (f a) st3) ->
  stack_triple st1 (bind m f) st3.
Proof.
  intros Hm Hf c b c' E R.
  apply bind_Ok in R as (a & c1 & R1 & R2).
  eapply Hf; [|exact R2]. eapply Hm; eassumption.
Qed.

Lemma triple_bind_throw {A B : Type} (e : SerovalError) (f : A -> SerM Ext B) st st' :
  stack_triple st (bind (throw e) f) st'.
Proof. intros c x c' _ R. discriminate R. Qed.

Lemma triple_gets {A : Type} (f : SerCtx Ext -> A) st : stack_triple st (gets f) st.
Proof. intros c x c' E R. injection R as _ <-. exact E. Qed.

Lemma triple_gets_stack {B : Type} (f : list nat -> SerM Ext B) st post :
  stack_triple st (f st) post ->
  stack_triple st (bind (gets stack) f) post.
Proof.
  intros Hf c b c' E R. unfold bind, gets in R. rewrite E in R.
  eapply Hf; eassumption.
Qed.

Lemma triple_set_stack st st' : stack_triple st (modify (set_stack st')) st'.
Proof. intros c x c' _ R. injection R as _ <-. reflexivity. Qed.

Lemma triple_modify (g : SerCtx Ext -> SerCtx Ext) st :
  (forall c, stack (g c) = stack c) ->
  stack_triple st (modify g) st.
Proof. intros Hg c x c' E R. injection R as _ <-. rewrite Hg. exact E. Qed.

Lemma keeps_triple {A : Type} (m : SerM Ext A) st : keeps_stack m -> stack_triple st m st.
Proof. intros Hm. apply Hm. Qed.

Lemma triple_push id st : stack_triple st (stack_push id) (st ++ [id]).
Proof. intros c x c' E R. injection R as _ <-. simpl. rewrite E. reflexivity. Qed.

Lemma triple_pop id st : stack_triple (st ++ [id]) stack_pop st.
Proof.
  intros c x c' E R. injection R as _ <-. simpl. rewrite E.
  apply removelast_last.
Qed.

End StackTriples.

Create HintDb stack_db.

(** One step through a method body; a call is closed by a lemma of [stack_db]
    or by a hypothesis. *)
Ltac triple_step :=
  match goal with
  | |- stack_triple _ (bind (gets stack) _) _ => apply triple_gets_stack
  | |- stack_triple _ (bind (throw _) _) _ => apply triple_bind_throw
  | |- stack_triple _ (bind (if ?b then _ else _) _) _ => destruct b
  | |- stack_triple _ (bind (match ?x with _ => _ end) _) _ => destruct x
  | |- stack_triple _ (bind _ _) _ => eapply triple_bind; [|intros]
  | |- stack_triple _ (ret _) _ => apply triple_ret
  | |- stack_triple _ (throw _) _ => apply triple_throw
  | |- stack_triple _ (gets _) _ => apply triple_gets
  | |- stack_triple _ (modify (set_stack _)) _ => apply triple_set_stack
  | |- stack_triple _ (modify _) _ => apply triple_modify; intros; reflexivity
  | |- stack_triple _ (stack_push _) _ => apply triple_push
  | |- stack_triple _ stack_pop _ => apply triple_pop
  | |- stack_triple _ (if ?b then _ else _) _ => destruct b
  | |- stack_triple _ (match ?x with _ => _ end) _ => destruct x
  | |- stack_triple _ _ _ => apply keeps_triple; solve [eauto 4 with stack_db]
  end.

Ltac triple := repeat triple_step.

Section StackDiscipline.
Context {Ext : Type} `{Host Ext}.

(** What the subclass and the plugins are assumed to do: leave the stack as
    they found it. *)
Hypothesis getRefParam_keeps : forall id, keeps_stack (Ext := Ext) (getRefParam id).
Hypothesis assignIndexedValue_keeps : forall id v, keeps_stack (Ext := Ext) (assignIndexedValue id v).
Hypothesis serializePromiseConstructor_keeps :
  forall i, keeps_stack (Ext := Ext) (serializePromiseConstructor i).
Hypothesis serializePromiseResolve_keeps :
  forall i m, keeps_stack (Ext := Ext) m -> keeps_stack (Ext := Ext) (serializePromiseResolve i m).
Hypothesis serializePromiseReject_keeps :
  forall i m, keeps_stack (Ext := Ext) m -> keeps_stack (Ext := Ext) (serializePromiseReject i m).
Hypothesis serializeReadableStreamConstructor_keeps :
  forall i, keeps_stack (Ext := Ext) (serializeReadableStreamConstructor i).
Hypothesis serializeReadableStreamEnqueue_keeps :
  forall i m, keeps_stack (Ext := Ext) m -> keeps_stack (Ext := Ext) (serializeReadableStreamEnqueue i m).
Hypothesis serializeReadableStreamError_keeps :
  forall i m, keeps_stack (Ext := Ext) m -> keeps_stack (Ext := Ext) (serializeReadableStreamError i m).
Hypothesis serializeReadableStreamClose_keeps :
  forall i, keeps_stack (Ext := Ext) (serializeReadableStreamClose i).
Hypothesis plugins_keep :
  forall ps, plugins = Some ps ->
    Forall (fun p => forall s i, keeps_stack (Ext := Ext) (plugin_serialize p s i)) ps.


Lemma markRef_keeps id : keeps_stack (Ext := Ext) (markRef id).
Proof. intros st. unfold markRef. triple. Qed.

Lemma isMarked_keeps id : keeps_stack (Ext := Ext) (isMarked id).
Proof. intros st. unfold isMarked. triple. Qed.

Lemma getRefParamOf_keeps node : keeps_stack (Ext := Ext) (getRefParamOf node).
Proof. intros st. unfold getRefParamOf. triple. Qed.

Lemma createAssignment_keeps src v : keeps_stack (Ext := Ext) (createAssignment src v).
Proof. intros st. unfold createAssignment. triple. Qed.

#[local] Hint Resolve markRef_keeps isMarked_keeps getRefParamOf_keeps
  createAssignment_keeps : stack_db.

Lemma createAddAssignment_keeps ref v : keeps_stack (Ext := Ext) (createAddAssignment ref v).
Proof. intros st. unfold createAddAssignment. triple. Qed.

Lemma createSetAssignment_keeps ref k v : keeps_stack (Ext := Ext) (createSetAssignment ref k v).
Proof. intros st. unfold createSetAssignment. triple. Qed.

Lemma createArrayAssign_keeps ref idx v : keeps_stack (Ext := Ext) (createArrayAssign ref idx v).
Proof. intros st. unfold createArrayAssign. triple. Qed.

Lemma createObjectAssign_keeps ref k v : keeps_stack (Ext := Ext) (createObjectAssign ref k v).
Proof. intros st. unfold createObjectAssign. triple. Qed.

Lemma pushObjectFlag_keeps flag id : keeps_stack (Ext := Ext) (pushObjectFlag flag id).
Proof. intros st. unfold pushObjectFlag. destruct flag; triple. Qed.

Lemma defer_keeps id v : keeps_stack (Ext := Ext) (defer id v).
Proof. intros st. unfold defer. triple. Qed.

Lemma isIndexedValueInStack_keeps node : keeps_stack (Ext := Ext) (isIndexedValueInStack node).
Proof. intros st. unfold isIndexedValueInStack. destruct node; triple. Qed.

Lemma getIterableAccess_keeps : keeps_stack (Ext := Ext) getIterableAccess.
Proof. intros st. unfold getIterableAccess. triple. Qed.

#[local] Hint Resolve createAddAssignment_keeps createSetAssignment_keeps
  createArrayAssign_keeps createObjectAssign_keeps pushObjectFlag_keeps defer_keeps
  isIndexedValueInStack_keeps getIterableAccess_keeps : stack_db.

Lemma isMarkedOriginal_keeps node : keeps_stack (Ext := Ext) (isMarkedOriginal node).
Proof. intros st. unfold isMarkedOriginal. triple. Qed.

Lemma serializeIndexedValue_keeps i : keeps_stack (Ext := Ext) (serializeIndexedValue i).
Proof. intros st. unfold serializeIndexedValue. triple. Qed.

Lemma serializeReference_keeps i s : keeps_stack (Ext := Ext) (serializeReference i s).
Proof. intros st. unfold serializeReference. triple. Qed.

#[local] Hint Resolve isMarkedOriginal_keeps serializeIndexedValue_keeps
  serializeReference_keeps : stack_db.

Section Methods.
Variable ser : SerovalNode -> SerM Ext string.

Lemma serializeIterable_keeps node :
  keeps_stack (Ext := Ext) (ser node) -> keeps_stack (Ext := Ext) (serializeIterable ser node).
Proof. intros Hn st. unfold serializeIterable. triple. Qed.

Lemma serializeArrayItem_keeps id item index :
  (forall n, item = Some n -> keeps_stack (Ext := Ext) (ser n)) ->
  keeps_stack (Ext := Ext) (serializeArrayItem ser id item index).
Proof.
  intros Hi st. unfold serializeArrayItem. destruct item as [it|]; [|triple].
  specialize (Hi it eq_refl). triple.
Qed.

#[local] Hint Resolve serializeIterable_keeps serializeArrayItem_keeps : stack_db.

Lemma serializeArrayLoop_keeps id list :
  Forall (fun o => forall n, o = Some n -> keeps_stack (Ext := Ext) (ser n)) list ->
  forall n idx values isHoley,
    keeps_stack (Ext := Ext) (serializeArrayLoop ser id n idx list values isHoley).
Proof.
  induction 1 as [|item rest Hi _ IH]; intros n idx values isHoley st;
    destruct n; simpl; triple.
Qed.

#[local] Hint Resolve serializeArrayLoop_keeps : stack_db.

Lemma serializeArray_keeps i l a o :
  Forall (fun x => forall n, x = Some n -> keeps_stack (Ext := Ext) (ser n)) a ->
  keeps_stack (Ext := Ext) (serializeArray ser i l a o).
Proof.
  intros Ha st. unfold serializeArray. destruct l; [triple|].
  destruct Ha as [|item rest Hi Hrest]; triple.
Qed.

Lemma serializeProperty_keeps id key val :
  keeps_stack (Ext := Ext) (ser val) -> keeps_stack (Ext := Ext) (serializeProperty ser id key val).
Proof.
  intros Hv st. unfold serializeProperty. destruct key as [key|]; triple.
Qed.

#[local] Hint Resolve serializeProperty_keeps : stack_db.

Lemma serializePropertiesLoop_keeps {K : Type} (toKey : K -> SerovalObjectRecordKey)
    sourceID (entries : list (K * SerovalNode)) :
  Forall (fun e => keeps_stack (Ext := Ext) (ser (snd e))) entries ->
  forall n result item,
    keeps_stack (Ext := Ext) (serializePropertiesLoop toKey ser sourceID n entries result item).
Proof.
  induction 1 as [|[key val] rest Hv _ IH]; intros n result item st;
    destruct n; simpl; triple.
Qed.

#[local] Hint Resolve serializePropertiesLoop_keeps : stack_db.

Lemma serializeProperties_keeps {K : Type} (toKey : K -> SerovalObjectRecordKey)
    sourceID (node : RecordNode K SerovalNode) :
  Forall (fun e => keeps_stack (Ext := Ext) (ser (snd e))) (kv node) ->
  keeps_stack (Ext := Ext) (serializeProperties toKey ser sourceID node).
Proof.
  intros Hn st. unfold serializeProperties. destruct (s_size node); [triple|].
  destruct Hn as [|[key val] rest Hv Hrest]; triple.
Qed.

#[local] Hint Resolve serializeProperties_keeps : stack_db.

Lemma serializeObject_keeps i p o :
  Forall (fun e => keeps_stack (Ext := Ext) (ser (snd e))) (kv p) ->
  keeps_stack (Ext := Ext) (serializeObject ser i p o).
Proof. intros Hp st. unfold serializeObject. triple. Qed.

Lemma serializeWithObjectAssign_keeps value id serialized :
  Forall (fun e => keeps_stack (Ext := Ext) (ser (snd e))) (kv value) ->
  keeps_stack (Ext := Ext) (serializeWithObjectAssign ser value id serialized).
Proof. intros Hp st. unfold serializeWithObjectAssign. triple. Qed.

Lemma withAssignments_keeps {A : Type} main (body : SerM Ext A) :
  keeps_stack (Ext := Ext) body -> keeps_stack (Ext := Ext) (withAssignments main body).
Proof. intros Hb st. unfold withAssignments. triple. Qed.

#[local] Hint Resolve serializeWithObjectAssign_keeps withAssignments_keeps : stack_db.

Lemma serializeAssignment_keeps sourceID main key value :
  keeps_stack (Ext := Ext) (ser value) ->
  keeps_stack (Ext := Ext) (serializeAssignment ser sourceID main key value).
Proof.
  intros Hv st. unfold serializeAssignment. destruct key as [key|]; [|triple].
  cbv zeta.
  destruct (geZero (ToNumber key) || notSelfEqual (ToNumber key) || isValidIdentifier key);
    triple.
Qed.

#[local] Hint Resolve serializeAssignment_keeps : stack_db.

Lemma serializeAssignmentsLoop_keeps sourceID entries :
  Forall (fun e => keeps_stack (Ext := Ext) (ser (snd e))) entries ->
  forall n main, keeps_stack (Ext := Ext) (serializeAssignmentsLoop ser sourceID n entries main).
Proof.
  induction 1 as [|[key val] rest Hv _ IH]; intros n main st;
    destruct n; simpl; triple.
Qed.

#[local] Hint Resolve serializeAssignmentsLoop_keeps : stack_db.

Lemma serializeAssignments_keeps sourceID node :
  Forall (fun e => keeps_stack (Ext := Ext) (ser (snd e))) (kv node) ->
  keeps_stack (Ext := Ext) (serializeAssignments ser sourceID node).
Proof.
  intros Hn st. unfold serializeAssignments. destruct (s_size node) eqn:E; triple.
Qed.

#[local] Hint Resolve serializeAssignments_keeps : stack_db.

Lemma serializeDictionary_keeps i p init :
  (forall r, p = Some r -> Forall (fun e => keeps_stack (Ext := Ext) (ser (snd e))) (kv r)) ->
  keeps_stack (Ext := Ext) (serializeDictionary ser i p init).
Proof.
  intros Hp st. unfold serializeDictionary. destruct p as [r|]; [|triple].
  specialize (Hp r eq_refl). triple.
Qed.

Lemma serializeNullConstructor_keeps i p o :
  Forall (fun e => keeps_stack (Ext := Ext) (ser (snd e))) (kv p) ->
  keeps_stack (Ext := Ext) (serializeNullConstructor ser i p o).
Proof.
  intros Hp st. unfold serializeNullConstructor. triple.
  apply serializeDictionary_keeps. intros r E. injection E as <-. exact Hp.
Qed.

Lemma serializeSetItem_keeps id item :
  keeps_stack (Ext := Ext) (ser item) -> keeps_stack (Ext := Ext) (serializeSetItem ser id item).
Proof. intros Hi st. unfold serializeSetItem. triple. Qed.

#[local] Hint Resolve serializeSetItem_keeps : stack_db.

Lemma serializeSetLoop_keeps id items :
  Forall (fun x => keeps_stack (Ext := Ext) (ser x)) items ->
  forall n result item, keeps_stack (Ext := Ext) (serializeSetLoop ser id n items result item).
Proof.
  induction 1 as [|x rest Hx _ IH]; intros n result item st;
    destruct n; simpl; triple.
Qed.

#[local] Hint Resolve serializeSetLoop_keeps : stack_db.

Lemma serializeSet_keeps i l a :
  Forall (fun x => keeps_stack (Ext := Ext) (ser x)) a ->
  keeps_stack (Ext := Ext) (serializeSet ser i l a).
Proof.
  intros Ha st. unfold serializeSet. destruct l; [triple|].
  destruct Ha as [|x rest Hx Hrest]; triple.
Qed.

Lemma serializeMapEntry_keeps id key val :
  keeps_stack (Ext := Ext) (ser key) -> keeps_stack (Ext := Ext) (ser val) ->
  keeps_stack (Ext := Ext) (serializeMapEntry ser id key val).
Proof. intros Hk Hv st. unfold serializeMapEntry. triple. Qed.

#[local] Hint Resolve serializeMapEntry_keeps : stack_db.

Lemma serializeMapLoop_keeps id entries :
  Forall (fun e => keeps_stack (Ext := Ext) (ser (fst e)) /\ keeps_stack (Ext := Ext) (ser (snd e))) entries ->
  forall n result item, keeps_stack (Ext := Ext) (serializeMapLoop ser id n entries result item).
Proof.
  induction 1 as [|[key val] rest [Hk Hv] _ IH]; intros n result item st;
    destruct n; simpl; triple.
Qed.

#[local] Hint Resolve serializeMapLoop_keeps : stack_db.

Lemma serializeMap_keeps i e :
  Forall (fun x => keeps_stack (Ext := Ext) (ser (fst x)) /\ keeps_stack (Ext := Ext) (ser (snd x))) (kv e) ->
  keeps_stack (Ext := Ext) (serializeMap ser i e).
Proof.
  intros He st. unfold serializeMap. destruct (s_size e); [triple|].
  destruct He as [|[key val] rest [Hk Hv] Hrest]; triple.
Qed.

#[local] Hint Resolve serializeArray_keeps serializeObject_keeps serializeDictionary_keeps
  serializeNullConstructor_keeps serializeSet_keeps serializeMap_keeps : stack_db.

Lemma serializeArrayBuffer_keeps i s : keeps_stack (Ext := Ext) (serializeArrayBuffer i s).
Proof. intros st. unfold serializeArrayBuffer. triple. Qed.

Lemma serializeTypedArray_keeps i l c f b :
  keeps_stack (Ext := Ext) (ser f) -> keeps_stack (Ext := Ext) (serializeTypedArray ser i l c f b).
Proof. intros Hf st. unfold serializeTypedArray. triple. Qed.

Lemma serializeDataView_keeps i l f b :
  keeps_stack (Ext := Ext) (ser f) -> keeps_stack (Ext := Ext) (serializeDataView ser i l f b).
Proof. intros Hf st. unfold serializeDataView. triple. Qed.

Lemma serializeAggregateError_keeps i m p :
  (forall r, p = Some r -> Forall (fun e => keeps_stack (Ext := Ext) (ser (snd e))) (kv r)) ->
  keeps_stack (Ext := Ext) (serializeAggregateError ser i m p).
Proof. intros Hp st. unfold serializeAggregateError. triple. Qed.

Lemma serializeError_keeps i s m p :
  (forall r, p = Some r -> Forall (fun e => keeps_stack (Ext := Ext) (ser (snd e))) (kv r)) ->
  keeps_stack (Ext := Ext) (serializeError ser i s m p).
Proof. intros Hp. unfold serializeError. apply serializeDictionary_keeps. exact Hp. Qed.

Lemma serializePromise_keeps i s f :
  keeps_stack (Ext := Ext) (ser f) -> keeps_stack (Ext := Ext) (serializePromise ser i s f).
Proof. intros Hf st. unfold serializePromise. triple. Qed.

Lemma serializeWKSymbol_keeps i s : keeps_stack (Ext := Ext) (serializeWKSymbol i s).
Proof. intros st. unfold serializeWKSymbol. triple. Qed.

Lemma serializeURL_keeps i s : keeps_stack (Ext := Ext) (serializeURL i s).
Proof. intros st. unfold serializeURL. triple. Qed.

Lemma serializeURLSearchParams_keeps i s : keeps_stack (Ext := Ext) (serializeURLSearchParams i s).
Proof. intros st. unfold serializeURLSearchParams. triple. Qed.

Lemma serializeBlob_keeps i c f :
  keeps_stack (Ext := Ext) (ser f) -> keeps_stack (Ext := Ext) (serializeBlob ser i c f).
Proof. intros Hf st. unfold serializeBlob. triple. Qed.

Lemma serializeFile_keeps i c m f b :
  keeps_stack (Ext := Ext) (ser f) -> keeps_stack (Ext := Ext) (serializeFile ser i c m f b).
Proof. intros Hf st. unfold serializeFile. triple. Qed.

Lemma serializeHeaders_keeps i e :
  Forall (fun x => keeps_stack (Ext := Ext) (ser (snd x))) (kv e) ->
  keeps_stack (Ext := Ext) (serializeHeaders ser i e).
Proof. intros He st. unfold serializeHeaders. triple. Qed.

Lemma serializeFormDataEntry_keeps id key value :
  keeps_stack (Ext := Ext) (ser value) -> keeps_stack (Ext := Ext) (serializeFormDataEntry ser id key value).
Proof. intros Hv st. unfold serializeFormDataEntry. triple. Qed.

#[local] Hint Resolve serializeFormDataEntry_keeps : stack_db.

Lemma serializeFormDataLoop_keeps id entries :
  Forall (fun x => keeps_stack (Ext := Ext) (ser (snd x))) entries ->
  forall n result, keeps_stack (Ext := Ext) (serializeFormDataLoop ser id n entries result).
Proof.
  induction 1 as [|[key val] rest Hv _ IH]; intros n result st;
    destruct n; simpl; triple.
Qed.

#[local] Hint Resolve serializeFormDataLoop_keeps : stack_db.

Lemma serializeFormDataEntries_keeps i e size :
  Forall (fun x => keeps_stack (Ext := Ext) (ser (snd x))) (kv e) ->
  keeps_stack (Ext := Ext) (serializeFormDataEntries ser i e size).
Proof.
  intros He st. unfold serializeFormDataEntries.
  destruct He as [|[key val] rest Hv Hrest]; triple.
Qed.

#[local] Hint Resolve serializeFormDataEntries_keeps : stack_db.

Lemma serializeFormData_keeps i e :
  Forall (fun x => keeps_stack (Ext := Ext) (ser (snd x))) (kv e) ->
  keeps_stack (Ext := Ext) (serializeFormData ser i e).
Proof.
  intros He st. unfold serializeFormData. cbv zeta. destruct (s_size e); triple.
Qed.

Lemma serializeBoxed_keeps i f :
  keeps_stack (Ext := Ext) (ser f) -> keeps_stack (Ext := Ext) (serializeBoxed ser i f).
Proof. intros Hf st. unfold serializeBoxed. triple. Qed.

Lemma serializeRequest_keeps i s f :
  keeps_stack (Ext := Ext) (ser f) -> keeps_stack (Ext := Ext) (serializeRequest ser i s f).
Proof. intros Hf st. unfold serializeRequest. triple. Qed.

Lemma serializeResponse_keeps i a0 a1 :
  keeps_stack (Ext := Ext) (ser a0) -> keeps_stack (Ext := Ext) (ser a1) ->
  keeps_stack (Ext := Ext) (serializeResponse ser i a0 a1).
Proof. intros H0 H1 st. unfold serializeResponse. triple. Qed.

Lemma serializeEvent_keeps i s f :
  keeps_stack (Ext := Ext) (ser f) -> keeps_stack (Ext := Ext) (serializeEvent ser i s f).
Proof. intros Hf st. unfold serializeEvent. triple. Qed.

Lemma serializeCustomEvent_keeps i s f :
  keeps_stack (Ext := Ext) (ser f) -> keeps_stack (Ext := Ext) (serializeCustomEvent ser i s f).
Proof. intros Hf st. unfold serializeCustomEvent. triple. Qed.

Lemma serializeDOMException_keeps i s c : keeps_stack (Ext := Ext) (serializeDOMException i s c).
Proof. intros st. unfold serializeDOMException. triple. Qed.

Lemma serializePluginLoop_keeps ps i c s :
  Forall (fun p => forall s i, keeps_stack (Ext := Ext) (plugin_serialize p s i)) ps ->
  keeps_stack (Ext := Ext) (serializePluginLoop ps i c s).
Proof.
  induction 1 as [|plugin rest Hp _ IH]; intros st; simpl; triple.
Qed.

Lemma serializePlugin_keeps i c s : keeps_stack (Ext := Ext) (serializePlugin i c s).
Proof.
  intros st. unfold serializePlugin. pose proof plugins_keep as Hp.
  destruct plugins as [ps|]; [|triple].
  apply serializePluginLoop_keeps. apply Hp. reflexivity.
Qed.

End Methods.

(** C10: every call of [serialize] that returns leaves the stack holding the
    sequence of ids it held at entry.  The methods of the base class push and
    pop in pairs and restore a stack they replaced; the abstract methods of
    the subclass and the plugins are assumed to leave the stack alone. *)
Theorem serialize_keeps_stack (node : SerovalNode) (c : SerCtx Ext) (s : string)
    (c' : SerCtx Ext) :
  serialize node c = Ok (s, c') -> stack c' = stack c.
Proof.
  revert c s c'.
  enough (Hk : keeps_stack (Ext := Ext) (serialize node)).
  { intros c s c' R. eapply Hk; [reflexivity|exact R]. }
  induction node as
    [ k | n | t | t | i | i t | i l a IH o | i p IH o | i p IH o | i t | i t1 t2
    | i l a IH | i e IH | i bytes | i l t f IH b | i l t f IH b | i l f IH b
    | i m p IH | i tg t1 m p IH | i st f IH | i k | i t | i t | i t f IH
    | i t1 t2 f IH b | i e IH | i e IH | i f IH | i | i f IH | i f IH | i
    | i f IH | i f IH | i | i t f IH | i a0 IH0 a1 IH1 | i t f IH | i t f IH
    | i t1 t2 | i t d | t ]; simpl.
  - intros st. triple.
  - intros st. triple.
  - intros st. triple.
  - intros st. triple.
  - apply serializeIndexedValue_keeps.
  - apply serializeReference_keeps.
  - apply serializeArray_keeps. apply list_option_all_Forall in IH. exact IH.
  - apply serializeObject_keeps. apply record_all_Forall in IH. exact IH.
  - apply serializeNullConstructor_keeps. apply record_all_Forall in IH. exact IH.
  - intros st. unfold serializeDate. triple.
  - intros st. unfold serializeRegExp. triple.
  - apply serializeSet_keeps. apply list_all_Forall in IH. exact IH.
  - apply serializeMap_keeps. apply map_record_all_Forall in IH. exact IH.
  - apply serializeArrayBuffer_keeps.
  - apply serializeTypedArray_keeps. exact IH.
  - apply serializeTypedArray_keeps. exact IH.
  - apply serializeDataView_keeps. exact IH.
  - apply serializeAggregateError_keeps.
    intros r E. eapply option_record_all_Forall in IH; [exact IH|exact E].
  - apply serializeError_keeps.
    intros r E. eapply option_record_all_Forall in IH; [exact IH|exact E].
  - apply serializePromise_keeps. exact IH.
  - apply serializeWKSymbol_keeps.
  - apply serializeURL_keeps.
  - apply serializeURLSearchParams_keeps.
  - apply serializeBlob_keeps. exact IH.
  - apply serializeFile_keeps. exact IH.
  - apply serializeHeaders_keeps. apply record_all_Forall in IH. exact IH.
  - apply serializeFormData_keeps. apply record_all_Forall in IH. exact IH.
  - apply serializeBoxed_keeps. exact IH.
  - apply serializePromiseConstructor_keeps.
  - apply serializePromiseResolve_keeps. exact IH.
  - apply serializePromiseReject_keeps. exact IH.
  - apply serializeReadableStreamConstructor_keeps.
  - apply serializeReadableStreamEnqueue_keeps. exact IH.
  - apply serializeReadableStreamError_keeps. exact IH.
  - apply serializeReadableStreamClose_keeps.
  - apply serializeRequest_keeps. exact IH.
  - apply serializeResponse_keeps; assumption.
  - apply serializeEvent_keeps. exact IH.
  - apply serializeCustomEvent_keeps. exact IH.
  - apply serializeDOMException_keeps.
  - apply serializePlugin_keeps.
  - intros st. triple.
Qed.

End StackDiscipline.

(** The self-contained serializer meets the assumptions of C10. *)

Lemma vanillaGetRefParam_keeps (id : nat) :
  keeps_stack (Ext := unit) (vanillaGetRefParam id).
Proof. intros st. unfold vanillaGetRefParam. triple. Qed.

Lemma vanillaAssignIndexedValue_keeps (id : nat) (v : string) :
  keeps_stack (Ext := unit) (vanillaAssignIndexedValue id v).
Proof.
  intros st. unfold vanillaAssignIndexedValue. pose proof vanillaGetRefParam_keeps. triple.
Qed.

Lemma unsupportedNode_keeps {A : Type} : keeps_stack (unsupportedNode (A := A)).
Proof. intros st. unfold unsupportedNode. triple. Qed.

Lemma vanilla_plugins_keep (ps : list (Plugin unit)) :
  plugins = Some ps ->
  Forall (fun p => forall s i, keeps_stack (plugin_serialize p s i)) ps.
Proof. discriminate. Qed.

(** The node of [root = [m, o]] with [m = new Map([[o, m]])]. *)
Definition nodeKeyDeferred : SerovalNode :=
  ArrayNode 0 2
    [Some (MapNode 1 (mkRecordNode
             [(ObjectNode 2 (mkRecordNode [] 0) FlagNone, IndexedValueNode 1)] 1));
     Some (IndexedValueNode 2)] FlagNone.

(** C10 at work: the self-contained serializer, entered with the stack [7; 9]
    on a node with a cyclic Map, returns with the stack [7; 9]. *)
Lemma serialize_keeps_stack_witness :
  exists s c',
    serialize nodeKeyDeferred
      (set_stack [7; 9] (vanillaCtx Feature.ALL ({[ 2 ]} ∪ ({[ 1 ]} ∪ ∅)))) = Ok (s, c')
    /\ stack c' = [7; 9].
Proof.
  eexists _, _. split; [vm_compute; reflexivity|].
  apply (@serialize_keeps_stack unit vanillaHost
           vanillaGetRefParam_keeps vanillaAssignIndexedValue_keeps
           (fun _ => unsupportedNode_keeps) (fun _ _ _ => unsupportedNode_keeps)
           (fun _ _ _ => unsupportedNode_keeps) (fun _ => unsupportedNode_keeps)
           (fun _ _ _ => unsupportedNode_keeps) (fun _ _ _ => unsupportedNode_keeps)
           (fun _ => unsupportedNode_keeps) vanilla_plugins_keep
           nodeKeyDeferred
           (set_stack [7; 9] (vanillaCtx Feature.ALL ({[ 2 ]} ∪ ({[ 1 ]} ∪ ∅))))
           "[b=new Map,c]").
  vm_compute. reflexivity.
Defined.

(** ** Arrays and their holes (C5) *)

(** The array literal with the given slot texts, as the specification words
    it: the slots joined by commas, and a trailing comma when the last slot is
    empty (spec 4.5.4); [[]] when there is no slot. *)
Definition arrayLiteral (slots : list string) : string :=
  match slots with
  | [] => "[]"
  | _ => "[" +:+ String.concat "," slots
           +:+ (if truthy (List.last slots "") then "]" else ",]")
  end.

(** The texts between the commas of that literal. *)
Definition literalSegments (slots : list string) : list string :=
  match slots with
  | [] => []
  | _ => slots ++ (if truthy (List.last slots "") then [] else [""])
  end.

(** The length of the array a literal evaluates to, from the texts between its
    commas: every comma ends a slot, and what follows the last comma is a slot
    only if it is not empty. *)
Definition evaluatedLength (segments : list string) : nat :=
  match segments with
  | [] => 0
  | _ => length segments - (if truthy (List.last segments "") then 0 else 1)
  end.

Lemma append_String (ch : ascii) (a b : string) :
  String ch a +:+ b = String ch (a +:+ b).
Proof. reflexivity. Qed.

Lemma append_assoc (a b c : string) : (a +:+ b) +:+ c = a +:+ (b +:+ c).
Proof.
  induction a as [|ch a IH]; [reflexivity|].
  rewrite !append_String, IH. reflexivity.
Qed.

Lemma append_empty_r (a : string) : a +:+ "" = a.
Proof.
  induction a as [|ch a IH]; [reflexivity|].
  rewrite append_String, IH. reflexivity.
Qed.

Lemma concat_cons_cons (sep x y : string) (xs : list string) :
  String.concat sep (x :: y :: xs) = x +:+ sep +:+ String.concat sep (y :: xs).
Proof. reflexivity. Qed.

Lemma concat_absorb (sep a x : string) (xs : list string) :
  String.concat sep ((a +:+ sep +:+ x) :: xs) = a +:+ sep +:+ String.concat sep (x :: xs).
Proof.
  destruct xs as [|y ys]; [reflexivity|].
  rewrite !concat_cons_cons, !append_assoc. reflexivity.
Qed.

(** The loop's running text is the join of what it has appended. *)
Lemma fold_left_join (its : list string) (first : string) :
  fold_left (fun acc it => acc +:+ "," +:+ it) its first = String.concat "," (first :: its).
Proof.
  revert first. induction its as [|x xs IH]; intros first; [reflexivity|].
  simpl fold_left. rewrite IH, concat_absorb. reflexivity.
Qed.

Lemma arrayHoles_fold (n : nat) (values : string) :
  arrayHoles n values = fold_left (fun acc it => acc +:+ "," +:+ it) (repeat "" n) values.
Proof.
  revert values. induction n as [|n IH]; intros values; [reflexivity|].
  simpl. apply IH.
Qed.

Lemma last_repeat_empty (n : nat) : List.last (repeat "" n) "" = "".
Proof.
  induction n as [|n IH]; [reflexivity|].
  simpl. destruct (repeat "" n) eqn:E; [reflexivity|exact IH].
Qed.

Lemma lookup_repeat_empty (n k : nat) : k < n -> repeat "" n !! k = Some "".
Proof.
  revert k. induction n as [|n IH]; intros k Hk; [lia|].
  destruct k; [reflexivity|]. simpl. apply IH. lia.
Qed.

Lemma concat_snoc_empty (x : string) (xs : list string) :
  String.concat "," ((x :: xs) ++ [""]) = String.concat "," (x :: xs) +:+ ",".
Proof.
  revert x. induction xs as [|y ys IH]; intros x.
  - simpl. rewrite append_empty_r. reflexivity.
  - change ((x :: y :: ys) ++ [""]) with (x :: ((y :: ys) ++ [""])).
    destruct ((y :: ys) ++ [""]) as [|z zs] eqn:E; [discriminate|].
    rewrite concat_cons_cons, <- E, IH, concat_cons_cons, !append_assoc.
    reflexivity.
Qed.

Lemma literal_of_segments (slots : list string) :
  slots <> [] ->
  arrayLiteral slots = "[" +:+ String.concat "," (literalSegments slots) +:+ "]".
Proof.
  intros Hne. destruct slots as [|x xs]; [congruence|].
  unfold arrayLiteral, literalSegments.
  destruct (truthy (List.last (x :: xs) "")).
  - rewrite app_nil_r. reflexivity.
  - rewrite concat_snoc_empty, !append_assoc. reflexivity.
Qed.

Lemma last_app_one (xs : list string) (y d : string) : List.last (xs ++ [y]) d = y.
Proof. apply last_last. Qed.

Lemma evaluatedLength_segments (slots : list string) :
  evaluatedLength (literalSegments slots) = length slots.
Proof.
  destruct slots as [|x xs]; [reflexivity|].
  unfold literalSegments.
  destruct (truthy (List.last (x :: xs) "")) eqn:E.
  - rewrite app_nil_r. unfold evaluatedLength. rewrite E. simpl. lia.
  - unfold evaluatedLength.
    change ((x :: xs) ++ [""]) with (x :: (xs ++ [""])).
    change (x :: (xs ++ [""])) with ((x :: xs) ++ [""]) at 2 3.
    rewrite last_app_one. simpl truthy. cbv iota.
    rewrite length_app. simpl. lia.
Qed.

Section ArrayFacts.
Context {Ext : Type} `{Host Ext}.
Variable ser : SerovalNode -> SerM Ext string.

Lemma serializeArrayItem_hole (id index : nat) (c : SerCtx Ext) :
  serializeArrayItem ser id None index c = Ok ("", c).
Proof. reflexivity. Qed.

(** The slot texts the loop appends: one for each index it visits, the empty
    text at a hole, and its flag is whether the last text is empty. *)
Lemma serializeArrayLoop_slots (id : nat) (list : list (option SerovalNode)) :
  forall n idx values isHoley c r c',
    serializeArrayLoop ser id n idx list values isHoley c = Ok (r, c') ->
    exists its,
      length its = n
      /\ (forall k, k < n -> list !! k = Some None \/ list !! k = None -> its !! k = Some "")
      /\ fst r = fold_left (fun acc it => acc +:+ "," +:+ it) its values
      /\ snd r = match its with
                 | [] => isHoley
                 | _ => negb (truthy (List.last its ""))
                 end.
Proof.
  induction list as [|item rest IH]; intros n idx values isHoley c r c' R.
  - destruct n as [|n]; simpl in R.
    + injection R as <- <-. exists []. repeat split; simpl; intros; try lia; reflexivity.
    + injection R as <- <-. exists (repeat "" (S n)). split; [apply repeat_length|].
      split; [intros k Hk _; apply lookup_repeat_empty; exact Hk|].
      split; [apply (arrayHoles_fold (S n))|].
      change (repeat "" (S n)) with ("" :: repeat "" n).
      pose proof (last_repeat_empty (S n)) as E. simpl repeat in E. rewrite E. reflexivity.
  - destruct n as [|n]; simpl in R.
    + injection R as <- <-. exists []. repeat split; simpl; intros; try lia; reflexivity.
    + apply bind_Ok in R as (it & c1 & R1 & R2).
      apply IH in R2 as (its & Hlen & Hholes & Hfst & Hsnd).
      exists (it :: its). split; [simpl; lia|]. split; [|split].
      * intros k Hk Hh. destruct k as [|k].
        -- simpl in Hh. destruct Hh as [Hh|Hh]; [|discriminate].
           injection Hh as ->. rewrite serializeArrayItem_hole in R1.
           injection R1 as <- _. reflexivity.
        -- simpl. apply Hholes; [lia|exact Hh].
      * exact Hfst.
      * rewrite Hsnd. destruct its; reflexivity.
Qed.

(** [serializeArray] emits the literal of its slot texts. *)
Lemma serializeArray_literal (i l : nat) (a : list (option SerovalNode))
    (o : SerovalObjectFlags) (c : SerCtx Ext) (out : string) (c' : SerCtx Ext) :
  serializeArray ser i l a o c = Ok (out, c') ->
  exists slots c1,
    length slots = l
    /\ (forall k, k < l -> a !! k = Some None \/ a !! k = None -> slots !! k = Some "")
    /\ assignIndexedValue i (arrayLiteral slots) c1 = Ok (out, c').
Proof.
  unfold serializeArray. destruct l as [|len].
  - intros R. exists [], c. repeat split; [intros; lia|exact R].
  - intros R.
    apply bind_Ok in R as (u & c1 & _ & R).
    apply bind_Ok in R as (r & c2 & Rr & R).
    apply bind_Ok in R as (u2 & c3 & _ & R).
    apply bind_Ok in R as (u3 & c4 & _ & R).
    assert (Hslots : exists slots,
               length slots = S len
               /\ (forall k, k < S len -> a !! k = Some None \/ a !! k = None ->
                             slots !! k = Some "")
               /\ slots <> []
               /\ fst r = String.concat "," slots
               /\ snd r = negb (truthy (List.last slots ""))).
    { destruct a as [|item rest].
      - injection Rr as <- _. exists (repeat "" (S len)).
        split; [apply repeat_length|].
        split; [intros k Hk _; apply lookup_repeat_empty; exact Hk|].
        split; [discriminate|]. split.
        + simpl fst. rewrite arrayHoles_fold, fold_left_join. reflexivity.
        + rewrite last_repeat_empty. reflexivity.
      - apply bind_Ok in Rr as (values & c1' & R1 & R2).
        apply serializeArrayLoop_slots in R2 as (its & Hlen & Hholes & Hfst & Hsnd).
        exists (values :: its). split; [simpl; lia|]. split; [|split; [discriminate|split]].
        + intros k Hk Hh. destruct k as [|k].
          * simpl in Hh. destruct Hh as [Hh|Hh]; [|discriminate].
            injection Hh as ->. rewrite serializeArrayItem_hole in R1.
            injection R1 as <- _. reflexivity.
          * simpl. apply Hholes; [lia|exact Hh].
        + rewrite Hfst. apply fold_left_join.
        + rewrite Hsnd. destruct its; reflexivity. }
    destruct Hslots as (slots & Hlen & Hholes & Hne & Hfst & Hsnd).
    exists slots, c4. split; [exact Hlen|]. split; [exact Hholes|].
    replace (arrayLiteral slots) with ("[" +:+ fst r +:+ (if snd r then ",]" else "]")).
    + exact R.
    + unfold arrayLiteral. destruct slots as [|x xs]; [congruence|].
      rewrite Hfst, Hsnd. destruct (truthy (List.last (x :: xs) "")); reflexivity.
Qed.

End ArrayFacts.

Section NodeListFacts.
Context `{ParserHost}.
Variable parse : Value -> ParseM SerovalNode.

(** The node list has a slot for each slot of the input, empty exactly where
    the input has a hole. *)
Lemma generateNodeList_holes (current : list (option Value)) (st : ParseState)
    (nodes : list (option SerovalNode)) (st' : ParseState) :
  generateNodeList parse current st = Ok (nodes, st') ->
  Forall2 (fun v n => v = None <-> n = None) current nodes.
Proof.
  unfold generateNodeList. intros R.
  apply bind_Ok in R as (pending & st1 & R1 & R2).
  assert (H1 : Forall2 (fun v p => v = None <-> p = PHole) current pending).
  { clear R2. revert st pending st1 R1.
    induction current as [|v rest IH]; intros st pending st1 R1; simpl in R1.
    - injection R1 as <- _. constructor.
    - destruct v as [item|].
      + apply bind_Ok in R1 as (it & s1 & _ & R1).
        apply bind_Ok in R1 as (p & s2 & Rp & R1).
        apply bind_Ok in R1 as (r & s3 & Rr & R1).
        injection R1 as <- _. constructor; [|eapply IH; exact Rr].
        destruct it.
        * injection Rp as <- _. split; discriminate.
        * apply bind_Ok in Rp as (n & s4 & _ & Rp). injection Rp as <- _.
          split; discriminate.
      + apply bind_Ok in R1 as (r & s1 & Rr & R1).
        injection R1 as <- _. constructor; [|eapply IH; exact Rr].
        split; reflexivity. }
  assert (H2 : Forall2 (fun p n => p = PHole <-> n = None) pending nodes).
  { clear R1 H1. revert st1 nodes st' R2.
    induction pending as [|p rest IH]; intros st1 nodes st' R2; simpl in R2.
    - injection R2 as <- _. constructor.
    - destruct p as [|n|item].
      + apply bind_Ok in R2 as (r & s1 & Rr & R2).
        injection R2 as <- _. constructor; [|eapply IH; exact Rr].
        split; reflexivity.
      + apply bind_Ok in R2 as (r & s1 & Rr & R2).
        injection R2 as <- _. constructor; [|eapply IH; exact Rr].
        split; discriminate.
      + apply bind_Ok in R2 as (n & s1 & _ & R2).
        apply bind_Ok in R2 as (r & s2 & Rr & R2).
        injection R2 as <- _. constructor; [|eapply IH; exact Rr].
        split; discriminate. }
  clear R1 R2. revert nodes H2.
  induction H1 as [|v p current pending Hvp _ IH]; intros nodes H2;
    inversion H2 as [|p' n pending' nodes' Hpn Hrest]; subst; constructor.
  - rewrite Hvp. exact Hpn.
  - apply IH. exact Hrest.
Qed.

End NodeListFacts.


(** The array [[1, , 3, ,]] (length 4, holes at 1 and 3). *)
Definition holeyItems : list (option Value) :=
  [Some (VNumber (Finite 1)); None; Some (VNumber (Finite 3)); None].


(** ** Reference ids (C4) *)

(** The table [refs] assigns ids below its size, no id twice, and only
    assigned ids are marked. *)
Definition refs_ok (st : ParseState) : Prop :=
  (forall a r, p_refs st !! a = Some r -> r < size (p_refs st))
  /\ (forall a b r, p_refs st !! a = Some r -> p_refs st !! b = Some r -> a = b)
  /\ (forall r, r ∈ p_marked st -> r < size (p_refs st)).

(** [st'] continues [st]: the same features, every id of [st] kept as it is. *)
Definition extends (st st' : ParseState) : Prop :=
  p_features st' = p_features st
  /\ p_refs st ⊆ p_refs st'
  /\ (refs_ok st -> refs_ok st').

(** Whatever [m] returns, the state it leaves continues the one it found. *)
Definition preserves {A : Type} (m : ParseM A) : Prop :=
  forall st x st', m st = Ok (x, st') -> extends st st'.

(** A node [m] returns is a full node (not an IndexedValue) with the id [id]. *)
Definition carries (id : nat) (m : ParseM SerovalNode) : Prop :=
  forall st node st', m st = Ok (node, st') ->
    node_i node = Some id /\ isIndexedValue node = false.

Lemma extends_refl (st : ParseState) : extends st st.
Proof. split; [reflexivity|]. split; [reflexivity|]. intros Hok. exact Hok. Qed.

Lemma extends_trans (st1 st2 st3 : ParseState) :
  extends st1 st2 -> extends st2 st3 -> extends st1 st3.
Proof.
  intros (F1 & R1 & W1) (F2 & R2 & W2). split; [congruence|]. split.
  - etrans; eassumption.
  - intros Hok. apply W2, W1, Hok.
Qed.

Lemma preserves_ret {A : Type} (a : A) : preserves (ret a).
Proof. intros st x st' R. injection R as _ <-. apply extends_refl. Qed.

Lemma preserves_throw {A : Type} (e : SerovalError) : preserves (throw (A := A) e).
Proof. intros st x st' R. discriminate R. Qed.

Lemma preserves_bind {A B : Type} (m : ParseM A) (f : A -> ParseM B) :
  preserves m -> (forall a, preserves (f a)) -> preserves (bind m f).
Proof.
  intros Hm Hf st b st' R. apply bind_Ok in R as (a & st1 & R1 & R2).
  eapply extends_trans; [eapply Hm|eapply Hf]; eassumption.
Qed.

Lemma preserves_gets {A : Type} (f : ParseState -> A) : preserves (gets f).
Proof. intros st x st' R. injection R as _ <-. apply extends_refl. Qed.

Lemma preserves_assert (b : bool) (e : SerovalError) : preserves (assert b e).
Proof. destruct b; [apply preserves_ret|apply preserves_throw]. Qed.

Lemma preserves_heapGet (a : Addr) : preserves (heapGet a).
Proof.
  intros st x st' R. unfold heapGet in R. destruct (p_heap st !! a); [|discriminate].
  injection R as _ <-. apply extends_refl.
Qed.

Lemma preserves_heapAlloc (o : Obj) : preserves (heapAlloc o).
Proof.
  intros st x st' R. injection R as _ <-.
  split; [reflexivity|]. split; [reflexivity|]. intros Hok. exact Hok.
Qed.

Lemma refs_ok_insert (st : ParseState) (a : Addr) :
  p_refs st !! a = None ->
  refs_ok st ->
  refs_ok (set_refs (<[ a := size (p_refs st) ]> (p_refs st)) st).
Proof.
  intros Hnone (Hlt & Hinj & Hmk). unfold refs_ok. simpl.
  rewrite map_size_insert_None by exact Hnone. repeat split.
  - intros b r Hb. destruct (decide (a = b)) as [<-|Hne].
    + rewrite lookup_insert_eq in Hb. injection Hb as <-. lia.
    + rewrite lookup_insert_ne in Hb by exact Hne. apply Hlt in Hb. lia.
  - intros b1 b2 r H1 H2.
    destruct (decide (a = b1)) as [<-|Hn1], (decide (a = b2)) as [<-|Hn2].
    + reflexivity.
    + rewrite lookup_insert_eq in H1. injection H1 as <-.
      rewrite lookup_insert_ne in H2 by exact Hn2. apply Hlt in H2. lia.
    + rewrite lookup_insert_eq in H2. injection H2 as <-.
      rewrite lookup_insert_ne in H1 by exact Hn1. apply Hlt in H1. lia.
    + rewrite lookup_insert_ne in H1 by exact Hn1.
      rewrite lookup_insert_ne in H2 by exact Hn2. eapply Hinj; eassumption.
  - intros r Hr. apply Hmk in Hr. lia.
Qed.

Lemma extends_insert (st : ParseState) (a : Addr) :
  p_refs st !! a = None ->
  extends st (set_refs (<[ a := size (p_refs st) ]> (p_refs st)) st).
Proof.
  intros Hnone. split; [reflexivity|]. split.
  - simpl. apply insert_subseteq. exact Hnone.
  - apply refs_ok_insert. exact Hnone.
Qed.

Lemma extends_mark (st : ParseState) (a : Addr) (r : nat) :
  p_refs st !! a = Some r ->
  extends st (set_pmarked ({[ r ]} ∪ p_marked st) st).
Proof.
  intros Hsome. split; [reflexivity|]. split; [reflexivity|].
  intros (Hlt & Hinj & Hmk). repeat split; simpl; try assumption.
  intros r' Hr'. apply elem_of_union in Hr' as [Hr'|Hr'].
  - apply elem_of_singleton in Hr' as ->. eapply Hlt. exact Hsome.
  - apply Hmk. exact Hr'.
Qed.

Section IdAssignment.
Context `{ParserHost}.

Lemma preserves_createIndexedValue (a : Addr) : preserves (createIndexedValue a).
Proof.
  intros st x st' R. unfold createIndexedValue in R.
  destruct (p_refs st !! a) as [r|] eqn:E; injection R as _ <-.
  - eapply extends_mark. exact E.
  - apply extends_insert. exact E.
Qed.

Lemma preserves_createCrossIndexedValue (a : Addr) : preserves (createCrossIndexedValue a).
Proof.
  intros st x st' R. unfold createCrossIndexedValue in R.
  destruct (p_refs st !! a) as [r|] eqn:E; injection R as _ <-.
  - apply extends_refl.
  - apply extends_insert. exact E.
Qed.

End IdAssignment.

Create HintDb parse_db.

#[export] Hint Resolve preserves_ret preserves_throw preserves_gets preserves_assert
  preserves_heapGet preserves_heapAlloc preserves_createIndexedValue
  preserves_createCrossIndexedValue : parse_db.

(** One step through a parser body. *)
Ltac pres_step :=
  match goal with
  | |- preserves _ => progress (cbv beta iota)
  | |- preserves (bind (if ?b then _ else _) _) => destruct b
  | |- preserves (bind (match ?x with _ => _ end) _) => destruct x
  | |- preserves (bind _ _) => apply preserves_bind; [|intros]
  | |- preserves (if ?b then _ else _) => destruct b
  | |- preserves (match ?x with _ => _ end) => destruct x
  | |- preserves (let _ := _ in _) => cbv zeta
  | |- preserves _ => solve [eauto 4 with parse_db]
  end.

Ltac pres := repeat pres_step.

Section ParserPreserves.
Context `{ParserHost}.

(** What the imported node constructors are assumed to do: keep the ids that
    are assigned. *)
Hypothesis createSymbolNode_preserves : forall d, preserves (createSymbolNode d).
Hypothesis createFunctionNode_preserves : forall a, preserves (createFunctionNode a).
Hypothesis createBlobNode_preserves : forall id o, preserves (createBlobNode id o).
Hypothesis createFileNode_preserves : forall id o, preserves (createFileNode id o).
Hypothesis createURLNode_preserves : forall id o, preserves (createURLNode id o).
Hypothesis createURLSearchParamsNode_preserves :
  forall id o, preserves (createURLSearchParamsNode id o).
Hypothesis createDOMExceptionNode_preserves :
  forall id o, preserves (createDOMExceptionNode id o).

Lemma preserves_createBigIntNode z : preserves (createBigIntNode z).
Proof. unfold createBigIntNode. pres. Qed.

Lemma preserves_createDateNode id o : preserves (createDateNode id o).
Proof. unfold createDateNode. pres. Qed.

Lemma preserves_createRegExpNode id o : preserves (createRegExpNode id o).
Proof. unfold createRegExpNode. pres. Qed.

Lemma preserves_createArrayBufferNode id o : preserves (createArrayBufferNode id o).
Proof. unfold createArrayBufferNode. pres. Qed.

#[local] Hint Resolve preserves_createBigIntNode preserves_createDateNode
  preserves_createRegExpNode preserves_createArrayBufferNode : parse_db.

Lemma preserves_serializeArrayBufferRef a : preserves (serializeArrayBufferRef a).
Proof. unfold serializeArrayBufferRef. pres. Qed.

Lemma preserves_createTypedArrayNode sab id c o :
  (forall a, preserves (sab a)) -> preserves (createTypedArrayNode sab id c o).
Proof. intros Hs. unfold createTypedArrayNode. pres. Qed.

Lemma preserves_createBigIntTypedArrayNode sab id c o :
  (forall a, preserves (sab a)) -> preserves (createBigIntTypedArrayNode sab id c o).
Proof. intros Hs. unfold createBigIntTypedArrayNode. pres. Qed.

Lemma preserves_createDataViewNode sab id o :
  (forall a, preserves (sab a)) -> preserves (createDataViewNode sab id o).
Proof. intros Hs. unfold createDataViewNode. pres. Qed.

Lemma preserves_mapEntryArrays entries : preserves (mapEntryArrays entries).
Proof. induction entries as [|[k v] rest IH]; simpl; pres. Qed.

#[local] Hint Resolve preserves_serializeArrayBufferRef preserves_createTypedArrayNode
  preserves_createBigIntTypedArrayNode preserves_createDataViewNode
  preserves_mapEntryArrays : parse_db.

Lemma preserves_arrayFrom o : preserves (arrayFrom o).
Proof. unfold arrayFrom. pres. Qed.

#[local] Hint Resolve preserves_arrayFrom : parse_db.

Section WithParse.
Variable parse : Value -> ParseM SerovalNode.
Hypothesis parse_preserves : forall v, preserves (parse v).

Lemma preserves_generateNodeListFirst current :
  preserves (generateNodeListFirst parse current).
Proof. induction current as [|[item|] rest IH]; simpl; pres. Qed.

Lemma preserves_generateNodeListSecond pending :
  preserves (generateNodeListSecond parse pending).
Proof. induction pending as [|[|n|item] rest IH]; simpl; pres. Qed.

#[local] Hint Resolve preserves_generateNodeListFirst preserves_generateNodeListSecond
  : parse_db.

Lemma preserves_generateNodeList current : preserves (generateNodeList parse current).
Proof. unfold generateNodeList. pres. Qed.

#[local] Hint Resolve preserves_generateNodeList : parse_db.

Lemma preserves_generateArrayNode withFlag id o :
  preserves (generateArrayNode parse withFlag id o).
Proof. unfold generateArrayNode. pres. Qed.

Lemma preserves_deferFirst {X Y : Type} (test : ParseState -> X -> bool)
    (one : X -> ParseM Y) xs :
  (forall x, preserves (one x)) -> preserves (deferFirst test one xs).
Proof. intros Ho. induction xs as [|x rest IH]; simpl; pres. Qed.

Lemma preserves_deferSecond {X Y : Type} (one : X -> ParseM Y) xs :
  (forall x, preserves (one x)) -> preserves (deferSecond one xs).
Proof. intros Ho. induction xs as [|x rest IH]; simpl; pres. Qed.

#[local] Hint Resolve preserves_generateArrayNode preserves_deferFirst
  preserves_deferSecond : parse_db.

Lemma preserves_deferLoops {X Y : Type} (test : ParseState -> X -> bool)
    (one : X -> ParseM Y) xs :
  (forall x, preserves (one x)) -> preserves (deferLoops test one xs).
Proof. intros Ho. unfold deferLoops. pres. Qed.

Lemma preserves_parseMapEntry e : preserves (parseMapEntry parse e).
Proof. unfold parseMapEntry. pres. Qed.

Lemma preserves_parseProperty p : preserves (parseProperty parse p).
Proof. unfold parseProperty. pres. Qed.

Lemma preserves_parsePlainProperty p : preserves (parsePlainProperty parse p).
Proof. unfold parsePlainProperty. pres. Qed.

#[local] Hint Resolve preserves_deferLoops preserves_parseMapEntry
  preserves_parseProperty preserves_parsePlainProperty : parse_db.

Lemma preserves_generateMapNode id o : preserves (generateMapNode parse id o).
Proof. unfold generateMapNode. pres. Qed.

Lemma preserves_generateSetNode id o : preserves (generateSetNode parse id o).
Proof. unfold generateSetNode. pres. Qed.

Lemma preserves_generateProperties createId withFlag o :
  (forall a, preserves (createId a)) ->
  preserves (generateProperties parse createId withFlag o).
Proof. intros Hc. unfold generateProperties. pres. Qed.

Lemma preserves_generatePlainProperties properties :
  preserves (generatePlainProperties parse properties).
Proof. unfold generatePlainProperties. pres. Qed.

#[local] Hint Resolve preserves_generateMapNode preserves_generateSetNode
  preserves_generateProperties preserves_generatePlainProperties : parse_db.

Lemma preserves_generateObjectNode createId withFlag id o empty :
  (forall a, preserves (createId a)) ->
  preserves (generateObjectNode parse createId withFlag id o empty).
Proof. intros Hc. unfold generateObjectNode. pres. Qed.

Lemma preserves_generateErrorOptions createId withFlag o :
  (forall a, preserves (createId a)) ->
  preserves (generateErrorOptions parse createId withFlag o).
Proof. intros Hc. unfold generateErrorOptions. pres. Qed.

Lemma preserves_errorMessage o : preserves (errorMessage o).
Proof. unfold errorMessage. pres. Qed.

#[local] Hint Resolve preserves_generateObjectNode preserves_generateErrorOptions
  preserves_errorMessage : parse_db.

Lemma preserves_generateAggregateErrorNode createId withFlag id o :
  (forall a, preserves (createId a)) ->
  preserves (generateAggregateErrorNode parse createId withFlag id o).
Proof. intros Hc. unfold generateAggregateErrorNode. pres. Qed.

Lemma preserves_generateErrorNode createId withFlag id o :
  (forall a, preserves (createId a)) ->
  preserves (generateErrorNode parse createId withFlag id o).
Proof. intros Hc. unfold generateErrorNode. pres. Qed.

Lemma preserves_parseError createId id o :
  (forall a, preserves (createId a)) ->
  preserves (parseError parse createId id o).
Proof. intros Hc. unfold parseError. pres. Qed.

Lemma preserves_headerItems o : preserves (headerItems o).
Proof. unfold headerItems. pres. Qed.

Lemma preserves_formDataItems o : preserves (formDataItems o).
Proof. unfold formDataItems. pres. Qed.

#[local] Hint Resolve preserves_generateAggregateErrorNode preserves_generateErrorNode
  preserves_parseError preserves_headerItems preserves_formDataItems : parse_db.

Lemma preserves_generateHeadersNode id o : preserves (generateHeadersNode parse id o).
Proof. unfold generateHeadersNode. pres. Qed.

Lemma preserves_generateFormDataNode id o : preserves (generateFormDataNode parse id o).
Proof. unfold generateFormDataNode. pres. Qed.

Lemma preserves_generateBoxedNode id o : preserves (generateBoxedNode parse id o).
Proof. unfold generateBoxedNode. pres. Qed.

Lemma preserves_generatePromiseNode id o : preserves (generatePromiseNode parse id o).
Proof. unfold generatePromiseNode. pres. Qed.

#[local] Hint Resolve preserves_generateHeadersNode preserves_generateFormDataNode
  preserves_generateBoxedNode preserves_generatePromiseNode : parse_db.

Variable parseObject : Value -> ParseM SerovalNode.
Hypothesis parseObject_preserves : forall v, preserves (parseObject v).

Lemma preserves_async_parseBlob id o : preserves (AsyncParser.parseBlob parse id o).
Proof. unfold AsyncParser.parseBlob. pres. Qed.

Lemma preserves_async_parseFile id o : preserves (AsyncParser.parseFile parse id o).
Proof. unfold AsyncParser.parseFile. pres. Qed.

Lemma preserves_async_parseRequest id o :
  preserves (AsyncParser.parseRequest parseObject id o).
Proof. unfold AsyncParser.parseRequest. pres. Qed.

Lemma preserves_async_parseResponse id o :
  preserves (AsyncParser.parseResponse parseObject id o).
Proof. unfold AsyncParser.parseResponse. pres. Qed.

Lemma preserves_async_parseEvent id o :
  preserves (AsyncParser.parseEvent parseObject id o).
Proof. unfold AsyncParser.parseEvent. pres. Qed.

Lemma preserves_async_parseCustomEvent id o :
  preserves (AsyncParser.parseCustomEvent parseObject id o).
Proof. unfold AsyncParser.parseCustomEvent. pres. Qed.

Lemma preserves_async_parseObjectSlow id o :
  preserves (AsyncParser.parseObjectSlow parse id o).
Proof. unfold AsyncParser.parseObjectSlow. pres. Qed.

#[local] Hint Resolve preserves_async_parseBlob preserves_async_parseFile
  preserves_async_parseRequest preserves_async_parseResponse preserves_async_parseEvent
  preserves_async_parseCustomEvent preserves_async_parseObjectSlow : parse_db.

Lemma preserves_async_parseObjectLate id o :
  preserves (AsyncParser.parseObjectLate parse id o).
Proof. unfold AsyncParser.parseObjectLate. pres. Qed.

#[local] Hint Resolve preserves_async_parseObjectLate : parse_db.

Lemma preserves_async_parseObjectWebAPI id o :
  preserves (AsyncParser.parseObjectWebAPI parse parseObject id o).
Proof. unfold AsyncParser.parseObjectWebAPI. pres. Qed.

#[local] Hint Resolve preserves_async_parseObjectWebAPI : parse_db.

Lemma preserves_async_parseObjectCollection id o :
  preserves (AsyncParser.parseObjectCollection parse parseObject id o).
Proof. unfold AsyncParser.parseObjectCollection. pres. Qed.

#[local] Hint Resolve preserves_async_parseObjectCollection : parse_db.

Lemma preserves_async_parseObjectBigInt id o :
  preserves (AsyncParser.parseObjectBigInt parse parseObject id o).
Proof. unfold AsyncParser.parseObjectBigInt. pres. Qed.

#[local] Hint Resolve preserves_async_parseObjectBigInt : parse_db.

Lemma preserves_async_parseObjectTyped id o :
  preserves (AsyncParser.parseObjectTyped parse parseObject id o).
Proof. unfold AsyncParser.parseObjectTyped. pres. Qed.

#[local] Hint Resolve preserves_async_parseObjectTyped : parse_db.

Lemma preserves_async_parseObjectNew a id :
  preserves (AsyncParser.parseObjectNew parse parseObject a id).
Proof. unfold AsyncParser.parseObjectNew. pres. Qed.

#[local] Hint Resolve preserves_async_parseObjectNew : parse_db.

Lemma preserves_async_parseObjectStep v :
  preserves (AsyncParser.parseObjectStep parse parseObject v).
Proof. unfold AsyncParser.parseObjectStep. pres. Qed.

Lemma preserves_cross_serializeArrayBuffer a :
  preserves (CrossAsyncParser.serializeArrayBuffer a).
Proof. unfold CrossAsyncParser.serializeArrayBuffer. pres. Qed.

#[local] Hint Resolve preserves_cross_serializeArrayBuffer : parse_db.

Lemma preserves_cross_generateRequestNode id o :
  preserves (CrossAsyncParser.generateRequestNode parseObject id o).
Proof. unfold CrossAsyncParser.generateRequestNode. pres. Qed.

Lemma preserves_cross_generateResponseNode id o :
  preserves (CrossAsyncParser.generateResponseNode parseObject id o).
Proof. unfold CrossAsyncParser.generateResponseNode. pres. Qed.

Lemma preserves_cross_generateEventNode id o :
  preserves (CrossAsyncParser.generateEventNode parseObject id o).
Proof. unfold CrossAsyncParser.generateEventNode. pres. Qed.

Lemma preserves_cross_generateCustomEventNode id o :
  preserves (CrossAsyncParser.generateCustomEventNode parseObject id o).
Proof. unfold CrossAsyncParser.generateCustomEventNode. pres. Qed.

Lemma preserves_cross_parseObjectSlow id o :
  preserves (CrossAsyncParser.parseObjectSlow parse id o).
Proof. unfold CrossAsyncParser.parseObjectSlow. pres. Qed.

#[local] Hint Resolve preserves_cross_generateRequestNode
  preserves_cross_generateResponseNode preserves_cross_generateEventNode
  preserves_cross_generateCustomEventNode preserves_cross_parseObjectSlow : parse_db.

Lemma preserves_cross_parseObjectLate id o :
  preserves (CrossAsyncParser.parseObjectLate parse id o).
Proof. unfold CrossAsyncParser.parseObjectLate. pres. Qed.

#[local] Hint Resolve preserves_cross_parseObjectLate : parse_db.

Lemma preserves_cross_parseObjectWebAPI id o :
  preserves (CrossAsyncParser.parseObjectWebAPI parse parseObject id o).
Proof. unfold CrossAsyncParser.parseObjectWebAPI. pres. Qed.

#[local] Hint Resolve preserves_cross_parseObjectWebAPI : parse_db.

Lemma preserves_cross_parseObjectCollection id o :
  preserves (CrossAsyncParser.parseObjectCollection parse parseObject id o).
Proof. unfold CrossAsyncParser.parseObjectCollection. pres. Qed.

#[local] Hint Resolve preserves_cross_parseObjectCollection : parse_db.

Lemma preserves_cross_parseObjectBigInt id o :
  preserves (CrossAsyncParser.parseObjectBigInt parse parseObject id o).
Proof. unfold CrossAsyncParser.parseObjectBigInt. pres. Qed.

#[local] Hint Resolve preserves_cross_parseObjectBigInt : parse_db.

Lemma preserves_cross_parseObjectTyped id o :
  preserves (CrossAsyncParser.parseObjectTyped parse parseObject id o).
Proof. unfold CrossAsyncParser.parseObjectTyped. pres. Qed.

#[local] Hint Resolve preserves_cross_parseObjectTyped : parse_db.

Lemma preserves_cross_parseObjectNew a id :
  preserves (CrossAsyncParser.parseObjectNew parse parseObject a id).
Proof. unfold CrossAsyncParser.parseObjectNew. pres. Qed.

(** The first encounter of [a] by the cross parser: the id is the size of
    [refs], and the rest runs in the state that records it. *)
Lemma cross_parseObjectStep_new a st :
  p_refs st !! a = None ->
  CrossAsyncParser.parseObjectStep parse parseObject (VObject a) st =
    CrossAsyncParser.parseObjectNew parse parseObject a (size (p_refs st))
      (set_refs (<[ a := size (p_refs st) ]> (p_refs st)) st).
Proof.
  intros E. unfold CrossAsyncParser.parseObjectStep, bind, gets, modify. rewrite E.
  reflexivity.
Qed.

Lemma cross_parseObjectStep_seen a r st :
  p_refs st !! a = Some r ->
  CrossAsyncParser.parseObjectStep parse parseObject (VObject a) st =
    Ok (IndexedValueNode r, st).
Proof.
  intros E. unfold CrossAsyncParser.parseObjectStep, bind, gets. rewrite E.
  reflexivity.
Qed.

Lemma preserves_cross_parseObjectStep v :
  preserves (CrossAsyncParser.parseObjectStep parse parseObject v).
Proof.
  destruct v; try solve [unfold CrossAsyncParser.parseObjectStep; pres].
  intros st x st' R. destruct (p_refs st !! a) as [r|] eqn:E.
  - rewrite (cross_parseObjectStep_seen a r st E) in R. injection R as _ <-.
    apply extends_refl.
  - rewrite (cross_parseObjectStep_new a st E) in R.
    eapply extends_trans; [apply extends_insert; exact E|].
    eapply preserves_cross_parseObjectNew. exact R.
Qed.

(** The first and the later encounters of [a] by the class-based parser. *)
Lemma async_parseObjectStep_new a st :
  p_refs st !! a = None ->
  refs_ok st ->
  AsyncParser.parseObjectStep parse parseObject (VObject a) st =
    AsyncParser.parseObjectNew parse parseObject a (size (p_refs st))
      (set_refs (<[ a := size (p_refs st) ]> (p_refs st)) st).
Proof.
  intros E (_ & _ & Hmk).
  unfold AsyncParser.parseObjectStep, bind, createIndexedValue, gets. rewrite E.
  simpl p_marked. rewrite bool_decide_eq_false_2; [reflexivity|].
  intros Hin. apply Hmk in Hin. lia.
Qed.

Lemma async_parseObjectStep_seen a r st :
  p_refs st !! a = Some r ->
  AsyncParser.parseObjectStep parse parseObject (VObject a) st =
    Ok (IndexedValueNode r, set_pmarked ({[ r ]} ∪ p_marked st) st).
Proof.
  intros E. unfold AsyncParser.parseObjectStep, bind, createIndexedValue, gets. rewrite E.
  simpl p_marked. rewrite bool_decide_eq_true_2; [reflexivity|].
  apply elem_of_union_l, elem_of_singleton. reflexivity.
Qed.

Lemma preserves_sync_generateMapNode id o :
  preserves (SyncParser.generateMapNode parse id o).
Proof. unfold SyncParser.generateMapNode. pres. Qed.

Lemma preserves_sync_generateSetNode id o :
  preserves (SyncParser.generateSetNode parse id o).
Proof. unfold SyncParser.generateSetNode. pres. Qed.

Lemma preserves_sync_generateHeadersNode id o :
  preserves (SyncParser.generateHeadersNode parse id o).
Proof. unfold SyncParser.generateHeadersNode. pres. Qed.

Lemma preserves_sync_generateFormDataNode id o :
  preserves (SyncParser.generateFormDataNode parse id o).
Proof. unfold SyncParser.generateFormDataNode. pres. Qed.

Lemma preserves_sync_parseObjectSlow id o :
  preserves (SyncParser.parseObjectSlow parse id o).
Proof. unfold SyncParser.parseObjectSlow. pres. Qed.

#[local] Hint Resolve preserves_sync_generateMapNode preserves_sync_generateSetNode
  preserves_sync_generateHeadersNode preserves_sync_generateFormDataNode
  preserves_sync_parseObjectSlow : parse_db.

Lemma preserves_sync_parseObjectNew a id :
  preserves (SyncParser.parseObjectNew parse a id).
Proof. unfold SyncParser.parseObjectNew. pres. Qed.

#[local] Hint Resolve preserves_sync_parseObjectNew : parse_db.

Lemma preserves_sync_parseObject v : preserves (SyncParser.parseObject parse v).
Proof. unfold SyncParser.parseObject. pres. Qed.

#[local] Hint Resolve preserves_sync_parseObject : parse_db.

Lemma preserves_sync_parseSyncStep v : preserves (SyncParser.parseSyncStep parse v).
Proof. unfold SyncParser.parseSyncStep. pres. Qed.

Lemma sync_parseObject_new a st :
  p_refs st !! a = None ->
  refs_ok st ->
  SyncParser.parseObject parse (VObject a) st =
    SyncParser.parseObjectNew parse a (size (p_refs st))
      (set_refs (<[ a := size (p_refs st) ]> (p_refs st)) st).
Proof.
  intros E (_ & _ & Hmk).
  unfold SyncParser.parseObject, bind, createIndexedValue, gets. rewrite E.
  simpl p_marked. rewrite bool_decide_eq_false_2; [reflexivity|].
  intros Hin. apply Hmk in Hin. lia.
Qed.

Lemma sync_parseObject_seen a r st :
  p_refs st !! a = Some r ->
  SyncParser.parseObject parse (VObject a) st =
    Ok (IndexedValueNode r, set_pmarked ({[ r ]} ∪ p_marked st) st).
Proof.
  intros E. unfold SyncParser.parseObject, bind, createIndexedValue, gets. rewrite E.
  simpl p_marked. rewrite bool_decide_eq_true_2; [reflexivity|].
  apply elem_of_union_l, elem_of_singleton. reflexivity.
Qed.

End WithParse.

Lemma preserves_async_parseWith parseObject v :
  (forall v', preserves (parseObject v')) ->
  preserves (AsyncParser.parseWith parseObject v).
Proof. intros Hp. unfold AsyncParser.parseWith. pres. Qed.

Lemma preserves_crossParseAsyncWith parseObject v :
  (forall v', preserves (parseObject v')) ->
  preserves (CrossAsyncParser.crossParseAsyncWith parseObject v).
Proof. intros Hp. unfold CrossAsyncParser.crossParseAsyncWith. pres. Qed.

(** Whatever the depth, the three parsers keep the ids that are assigned. *)
Lemma preserves_parseSync fuel : forall v, preserves (SyncParser.parseSync fuel v).
Proof.
  induction fuel as [|fuel IH]; intros v; simpl.
  - apply preserves_throw.
  - apply preserves_sync_parseSyncStep. exact IH.
Qed.

Lemma preserves_async_parseObject fuel :
  forall v, preserves (AsyncParser.parseObject fuel v).
Proof.
  induction fuel as [|fuel IH]; intros v; simpl.
  - apply preserves_throw.
  - apply preserves_async_parseObjectStep; [|exact IH].
    intros v'. apply preserves_async_parseWith. exact IH.
Qed.

Lemma preserves_cross_parseObject fuel :
  forall v, preserves (CrossAsyncParser.parseObject fuel v).
Proof.
  induction fuel as [|fuel IH]; intros v; simpl.
  - apply preserves_throw.
  - apply preserves_cross_parseObjectStep; [|exact IH].
    intros v'. apply preserves_crossParseAsyncWith. exact IH.
Qed.

End ParserPreserves.

(** ** The node of a first encounter carries the new id *)

Lemma carries_ret id (node : SerovalNode) :
  node_i node = Some id -> isIndexedValue node = false -> carries id (ret node).
Proof. intros Hi Hn st node' st' R. injection R as <- _. split; assumption. Qed.

Lemma carries_throw id (e : SerovalError) : carries id (throw e).
Proof. intros st node st' R. discriminate R. Qed.

Lemma carries_bind {A : Type} id (m : ParseM A) (k : A -> ParseM SerovalNode) :
  (forall x, carries id (k x)) -> carries id (bind m k).
Proof.
  intros Hk st node st' R. unfold bind in R.
  destruct (m st) as [[x st1]|e] eqn:E; [|discriminate R].
  eapply Hk. exact R.
Qed.

Create HintDb carry_db.

(** One step through a parser body, to the node it returns. *)
Ltac carry_step :=
  match goal with
  | |- carries _ (bind _ _) => apply carries_bind; intros
  | |- carries _ (ret (if ?b then _ else _)) => destruct b
  | |- carries _ (ret _) => apply carries_ret; reflexivity
  | |- carries _ (throw _) => apply carries_throw
  | |- carries _ (if ?b then _ else _) => destruct b
  | |- carries _ (match ?x with _ => _ end) => destruct x
  | |- carries _ (let _ := _ in _) => cbv zeta
  | |- carries _ _ => solve [eauto 3 with carry_db]
  | |- carries _ _ => progress (cbv beta iota)
  end.

Ltac carry := repeat carry_step.

Section ParserCarries.
Context `{ParserHost}.

(** What the imported node constructors are assumed to do: put the id they are
    given on the node they return. *)
Hypothesis createBlobNode_carries : forall id o, carries id (createBlobNode id o).
Hypothesis createFileNode_carries : forall id o, carries id (createFileNode id o).
Hypothesis createURLNode_carries : forall id o, carries id (createURLNode id o).
Hypothesis createURLSearchParamsNode_carries :
  forall id o, carries id (createURLSearchParamsNode id o).
Hypothesis createDOMExceptionNode_carries :
  forall id o, carries id (createDOMExceptionNode id o).

Variable parse : Value -> ParseM SerovalNode.
Variable parseObject : Value -> ParseM SerovalNode.

Lemma carries_createDateNode id o : carries id (createDateNode id o).
Proof. unfold createDateNode. carry. Qed.

Lemma carries_createRegExpNode id o : carries id (createRegExpNode id o).
Proof. unfold createRegExpNode. carry. Qed.

Lemma carries_createArrayBufferNode id o : carries id (createArrayBufferNode id o).
Proof. unfold createArrayBufferNode. carry. Qed.

Lemma carries_createTypedArrayNode sab id c o :
  carries id (createTypedArrayNode sab id c o).
Proof. unfold createTypedArrayNode. carry. Qed.

Lemma carries_createBigIntTypedArrayNode sab id c o :
  carries id (createBigIntTypedArrayNode sab id c o).
Proof. unfold createBigIntTypedArrayNode. carry. Qed.

Lemma carries_createDataViewNode sab id o : carries id (createDataViewNode sab id o).
Proof. unfold createDataViewNode. carry. Qed.

Lemma carries_generateArrayNode withFlag id o :
  carries id (generateArrayNode parse withFlag id o).
Proof. unfold generateArrayNode. carry. Qed.

Lemma carries_generateMapNode id o : carries id (generateMapNode parse id o).
Proof. unfold generateMapNode. carry. Qed.

Lemma carries_generateSetNode id o : carries id (generateSetNode parse id o).
Proof. unfold generateSetNode. carry. Qed.

Lemma carries_generateObjectNode createId withFlag id o empty :
  carries id (generateObjectNode parse createId withFlag id o empty).
Proof. unfold generateObjectNode. carry. Qed.

Lemma carries_generateAggregateErrorNode createId withFlag id o :
  carries id (generateAggregateErrorNode parse createId withFlag id o).
Proof. unfold generateAggregateErrorNode. carry. Qed.

Lemma carries_generateErrorNode createId withFlag id o :
  carries id (generateErrorNode parse createId withFlag id o).
Proof. unfold generateErrorNode. carry. Qed.

#[local] Hint Resolve carries_createDateNode carries_createRegExpNode
  carries_createArrayBufferNode carries_createTypedArrayNode
  carries_createBigIntTypedArrayNode carries_createDataViewNode
  carries_generateArrayNode carries_generateMapNode carries_generateSetNode
  carries_generateObjectNode carries_generateAggregateErrorNode
  carries_generateErrorNode : carry_db.

Lemma carries_parseError createId id o : carries id (parseError parse createId id o).
Proof. unfold parseError. carry. Qed.

Lemma carries_generateHeadersNode id o : carries id (generateHeadersNode parse id o).
Proof. unfold generateHeadersNode. carry. Qed.

Lemma carries_generateFormDataNode id o : carries id (generateFormDataNode parse id o).
Proof. unfold generateFormDataNode. carry. Qed.

Lemma carries_generateBoxedNode id o : carries id (generateBoxedNode parse id o).
Proof. unfold generateBoxedNode. carry. Qed.

Lemma carries_generatePromiseNode id o : carries id (generatePromiseNode parse id o).
Proof. unfold generatePromiseNode. carry. Qed.

#[local] Hint Resolve carries_parseError carries_generateHeadersNode
  carries_generateFormDataNode carries_generateBoxedNode carries_generatePromiseNode
  : carry_db.

Lemma carries_async_parseBlob id o : carries id (AsyncParser.parseBlob parse id o).
Proof. unfold AsyncParser.parseBlob. carry. Qed.

Lemma carries_async_parseFile id o : carries id (AsyncParser.parseFile parse id o).
Proof. unfold AsyncParser.parseFile. carry. Qed.

Lemma carries_async_parseRequest id o :
  carries id (AsyncParser.parseRequest parseObject id o).
Proof. unfold AsyncParser.parseRequest. carry. Qed.

Lemma carries_async_parseResponse id o :
  carries id (AsyncParser.parseResponse parseObject id o).
Proof. unfold AsyncParser.parseResponse. carry. Qed.

Lemma carries_async_parseEvent id o :
  carries id (AsyncParser.parseEvent parseObject id o).
Proof. unfold AsyncParser.parseEvent. carry. Qed.

Lemma carries_async_parseCustomEvent id o :
  carries id (AsyncParser.parseCustomEvent parseObject id o).
Proof. unfold AsyncParser.parseCustomEvent. carry. Qed.

Lemma carries_async_parseObjectSlow id o :
  carries id (AsyncParser.parseObjectSlow parse id o).
Proof. unfold AsyncParser.parseObjectSlow. carry. Qed.

#[local] Hint Resolve carries_async_parseBlob carries_async_parseFile
  carries_async_parseRequest carries_async_parseResponse carries_async_parseEvent
  carries_async_parseCustomEvent carries_async_parseObjectSlow : carry_db.

Lemma carries_async_parseObjectLate id o :
  carries id (AsyncParser.parseObjectLate parse id o).
Proof. unfold AsyncParser.parseObjectLate. carry. Qed.

#[local] Hint Resolve carries_async_parseObjectLate : carry_db.

Lemma carries_async_parseObjectWebAPI id o :
  carries id (AsyncParser.parseObjectWebAPI parse parseObject id o).
Proof. unfold AsyncParser.parseObjectWebAPI. carry. Qed.

#[local] Hint Resolve carries_async_parseObjectWebAPI : carry_db.

Lemma carries_async_parseObjectCollection id o :
  carries id (AsyncParser.parseObjectCollection parse parseObject id o).
Proof. unfold AsyncParser.parseObjectCollection. carry. Qed.

#[local] Hint Resolve carries_async_parseObjectCollection : carry_db.

Lemma carries_async_parseObjectBigInt id o :
  carries id (AsyncParser.parseObjectBigInt parse parseObject id o).
Proof. unfold AsyncParser.parseObjectBigInt. carry. Qed.

#[local] Hint Resolve carries_async_parseObjectBigInt : carry_db.

Lemma carries_async_parseObjectTyped id o :
  carries id (AsyncParser.parseObjectTyped parse parseObject id o).
Proof. unfold AsyncParser.parseObjectTyped. carry. Qed.

#[local] Hint Resolve carries_async_parseObjectTyped : carry_db.

Lemma carries_async_parseObjectNew a id :
  carries id (AsyncParser.parseObjectNew parse parseObject a id).
Proof. unfold AsyncParser.parseObjectNew. carry. Qed.

Lemma carries_cross_generateRequestNode id o :
  carries id (CrossAsyncParser.generateRequestNode parseObject id o).
Proof. unfold CrossAsyncParser.generateRequestNode. carry. Qed.

Lemma carries_cross_generateResponseNode id o :
  carries id (CrossAsyncParser.generateResponseNode parseObject id o).
Proof. unfold CrossAsyncParser.generateResponseNode. carry. Qed.

Lemma carries_cross_generateEventNode id o :
  carries id (CrossAsyncParser.generateEventNode parseObject id o).
Proof. unfold CrossAsyncParser.generateEventNode. carry. Qed.

Lemma carries_cross_generateCustomEventNode id o :
  carries id (CrossAsyncParser.generateCustomEventNode parseObject id o).
Proof. unfold CrossAsyncParser.generateCustomEventNode. carry. Qed.

Lemma carries_cross_parseObjectSlow id o :
  carries id (CrossAsyncParser.parseObjectSlow parse id o).
Proof. unfold CrossAsyncParser.parseObjectSlow. carry. Qed.

#[local] Hint Resolve carries_cross_generateRequestNode
  carries_cross_generateResponseNode carries_cross_generateEventNode
  carries_cross_generateCustomEventNode carries_cross_parseObjectSlow : carry_db.

Lemma carries_cross_parseObjectLate id o :
  carries id (CrossAsyncParser.parseObjectLate parse id o).
Proof. unfold CrossAsyncParser.parseObjectLate. carry. Qed.

#[local] Hint Resolve carries_cross_parseObjectLate : carry_db.

Lemma carries_cross_parseObjectWebAPI id o :
  carries id (CrossAsyncParser.parseObjectWebAPI parse parseObject id o).
Proof. unfold CrossAsyncParser.parseObjectWebAPI. carry. Qed.

#[local] Hint Resolve carries_cross_parseObjectWebAPI : carry_db.

Lemma carries_cross_parseObjectCollection id o :
  carries id (CrossAsyncParser.parseObjectCollection parse parseObject id o).
Proof. unfold CrossAsyncParser.parseObjectCollection. carry. Qed.

#[local] Hint Resolve carries_cross_parseObjectCollection : carry_db.

Lemma carries_cross_parseObjectBigInt id o :
  carries id (CrossAsyncParser.parseObjectBigInt parse parseObject id o).
Proof. unfold CrossAsyncParser.parseObjectBigInt. carry. Qed.

#[local] Hint Resolve carries_cross_parseObjectBigInt : carry_db.

Lemma carries_cross_parseObjectTyped id o :
  carries id (CrossAsyncParser.parseObjectTyped parse parseObject id o).
Proof. unfold CrossAsyncParser.parseObjectTyped. carry. Qed.

#[local] Hint Resolve carries_cross_parseObjectTyped : carry_db.

Lemma carries_cross_parseObjectNew a id :
  carries id (CrossAsyncParser.parseObjectNew parse parseObject a id).
Proof. unfold CrossAsyncParser.parseObjectNew. carry. Qed.

Lemma carries_sync_generateMapNode id o :
  carries id (SyncParser.generateMapNode parse id o).
Proof. unfold SyncParser.generateMapNode. carry. Qed.

Lemma carries_sync_generateSetNode id o :
  carries id (SyncParser.generateSetNode parse id o).
Proof. unfold SyncParser.generateSetNode. carry. Qed.

Lemma carries_sync_generateHeadersNode id o :
  carries id (SyncParser.generateHeadersNode parse id o).
Proof. unfold SyncParser.generateHeadersNode. carry. Qed.

Lemma carries_sync_generateFormDataNode id o :
  carries id (SyncParser.generateFormDataNode parse id o).
Proof. unfold SyncParser.generateFormDataNode. carry. Qed.

Lemma carries_sync_parseObjectSlow id o :
  carries id (SyncParser.parseObjectSlow parse id o).
Proof. unfold SyncParser.parseObjectSlow. carry. Qed.

#[local] Hint Resolve carries_sync_generateMapNode carries_sync_generateSetNode
  carries_sync_generateHeadersNode carries_sync_generateFormDataNode
  carries_sync_parseObjectSlow : carry_db.

Lemma carries_sync_parseObjectNew a id :
  carries id (SyncParser.parseObjectNew parse a id).
Proof. unfold SyncParser.parseObjectNew. carry. Qed.

End ParserCarries.

(** ** One id for each value (C4) *)

(** What a first encounter of [a] in the state [st] gives when it returns:
    a full node with the new id, which is then the id of [a], in a state where
    the ids are still those of one value each and the older ones are kept. *)
Definition first_encounter (a : Addr) (st : ParseState)
    (run : Result (SerovalNode * ParseState)) : Prop :=
  forall node st', run = Ok (node, st') ->
    node_i node = Some (size (p_refs st)) /\ isIndexedValue node = false
    /\ p_refs st' !! a = Some (size (p_refs st)) /\ refs_ok st'
    /\ (forall b r, p_refs st !! b = Some r -> p_refs st' !! b = Some r).

(** The state in which the body of a first encounter runs. *)
Definition allocated (a : Addr) (st : ParseState) : ParseState :=
  set_refs (<[ a := size (p_refs st) ]> (p_refs st)) st.

Lemma refs_ok_fresh (st : ParseState) (b : Addr) :
  refs_ok st -> p_refs st !! b <> Some (size (p_refs st)).
Proof. intros (Hlt & _ & _) E. apply Hlt in E. lia. Qed.

Lemma first_encounter_body (a : Addr) (st : ParseState) (body : ParseM SerovalNode) :
  refs_ok st -> p_refs st !! a = None ->
  preserves body -> carries (size (p_refs st)) body ->
  first_encounter a st (body (allocated a st)).
Proof.
  intros Hok E Hp Hc node st' R.
  destruct (Hc _ _ _ R) as [Hi Hn].
  destruct (Hp _ _ _ R) as (_ & Hsub & Hw).
  destruct (extends_insert st a E) as (_ & Hsub0 & Hw0).
  split; [exact Hi|]. split; [exact Hn|]. split; [|split].
  - eapply lookup_weaken; [|exact Hsub]. unfold allocated. simpl.
    apply lookup_insert_eq.
  - apply Hw, Hw0, Hok.
  - intros b r Hb. eapply lookup_weaken; [|exact Hsub].
    eapply lookup_weaken; [exact Hb|exact Hsub0].
Qed.

Section ReferenceIds.
Context `{ParserHost}.

(** What the imported node constructors are assumed to do: keep the ids that
    are assigned, and put the id they are given on the node they return. *)
Hypothesis createSymbolNode_preserves : forall d, preserves (createSymbolNode d).
Hypothesis createFunctionNode_preserves : forall a, preserves (createFunctionNode a).
Hypothesis createBlobNode_preserves : forall id o, preserves (createBlobNode id o).
Hypothesis createFileNode_preserves : forall id o, preserves (createFileNode id o).
Hypothesis createURLNode_preserves : forall id o, preserves (createURLNode id o).
Hypothesis createURLSearchParamsNode_preserves :
  forall id o, preserves (createURLSearchParamsNode id o).
Hypothesis createDOMExceptionNode_preserves :
  forall id o, preserves (createDOMExceptionNode id o).
Hypothesis createBlobNode_carries : forall id o, carries id (createBlobNode id o).
Hypothesis createFileNode_carries : forall id o, carries id (createFileNode id o).
Hypothesis createURLNode_carries : forall id o, carries id (createURLNode id o).
Hypothesis createURLSearchParamsNode_carries :
  forall id o, carries id (createURLSearchParamsNode id o).
Hypothesis createDOMExceptionNode_carries :
  forall id o, carries id (createDOMExceptionNode id o).


End ReferenceIds.

Lemma unsupportedValue_preserves : preserves unsupportedValue.
Proof. apply preserves_throw. Qed.

Lemma unsupportedValue_carries (id : nat) : carries id unsupportedValue.
Proof. apply carries_throw. Qed.

Lemma refs_ok_parserCtx (ft : N) (heap : gmap Addr Obj) : refs_ok (parserCtx ft heap).
Proof.
  split; [|split]; simpl.
  - intros a r E. rewrite lookup_empty in E. discriminate E.
  - intros a b r E. rewrite lookup_empty in E. discriminate E.
  - intros r E. apply elem_of_empty in E. destruct E.
Defined.


(** ** A Map when [Feature.Map] is disabled (C2) *)

Section MapPath.
Context `{ParserHost}.
Variable current : Obj.
Variable entries : list (Value * Value).
Hypothesis current_constructor : constructor current = CtorMap.
Hypothesis current_slots : slots current = SMap entries.
Variable parse parseObject : Value -> ParseM SerovalNode.
Variable id : nat.
Variable s : ParseState.
Hypothesis Map_disabled : hasFeature (p_features s) Feature.Map = false.

Lemma hasSymbolIterator_Map : hasSymbolIterator current = true.
Proof.
  unfold hasSymbolIterator. rewrite current_slots.
  destruct (iterator current); reflexivity.
Qed.

(** The class-based parser: every test down to the slow path fails. *)
Lemma async_Map_late :
  AsyncParser.parseObjectLate parse id current s
  = AsyncParser.parseObjectSlow parse id current s.
Proof.
  unfold AsyncParser.parseObjectLate, bind, gets, instanceofAggregateError,
    instanceofPromise. cbv beta iota zeta.
  rewrite current_constructor, current_slots. simpl.
  rewrite !andb_false_r. reflexivity.
Qed.

Lemma async_Map_webAPI :
  AsyncParser.parseObjectWebAPI parse parseObject id current s
  = AsyncParser.parseObjectSlow parse id current s.
Proof.
  rewrite <- async_Map_late.
  unfold AsyncParser.parseObjectWebAPI, bind, gets. cbv beta iota zeta.
  rewrite current_constructor.
  destruct (hasFeature (p_features s) Feature.WebAPI); reflexivity.
Qed.

Lemma async_Map_collection :
  AsyncParser.parseObjectCollection parse parseObject id current s
  = AsyncParser.parseObjectSlow parse id current s.
Proof.
  rewrite <- async_Map_webAPI.
  unfold AsyncParser.parseObjectCollection, bind, gets. cbv beta iota zeta.
  rewrite current_constructor, Map_disabled. simpl. rewrite andb_false_r. reflexivity.
Qed.

Lemma async_Map_bigInt :
  AsyncParser.parseObjectBigInt parse parseObject id current s
  = AsyncParser.parseObjectSlow parse id current s.
Proof.
  rewrite <- async_Map_collection.
  unfold AsyncParser.parseObjectBigInt, bind, gets. cbv beta iota zeta.
  rewrite current_constructor.
  destruct (hasBigIntFlag (p_features s)); reflexivity.
Qed.

Lemma async_Map_typed :
  AsyncParser.parseObjectTyped parse parseObject id current s
  = AsyncParser.parseObjectSlow parse id current s.
Proof.
  rewrite <- async_Map_bigInt.
  unfold AsyncParser.parseObjectTyped, bind, gets. cbv beta iota zeta.
  rewrite current_constructor.
  destruct (hasFeature (p_features s) Feature.TypedArray); reflexivity.
Qed.

Lemma async_Map_slow :
  AsyncParser.parseObjectSlow parse id current s
  = if hasFeature (p_features s) Feature.Symbol
    then generateObjectNode parse createIndexedValue true id current true s
    else Throw UnsupportedTypeError.
Proof.
  unfold AsyncParser.parseObjectSlow, bind, gets, instanceofError. cbv beta iota zeta.
  rewrite current_slots, current_constructor, hasSymbolIterator_Map. simpl.
  rewrite andb_true_r.
  destruct (hasFeature (p_features s) Feature.Symbol); reflexivity.
Qed.

(** The cross parser: the same tests, the same way down. *)
Lemma cross_Map_late :
  CrossAsyncParser.parseObjectLate parse id current s
  = CrossAsyncParser.parseObjectSlow parse id current s.
Proof.
  unfold CrossAsyncParser.parseObjectLate, bind, gets, instanceofAggregateError,
    instanceofPromise. cbv beta iota zeta.
  rewrite current_constructor, current_slots. simpl.
  rewrite !andb_false_r. reflexivity.
Qed.

Lemma cross_Map_webAPI :
  CrossAsyncParser.parseObjectWebAPI parse parseObject id current s
  = CrossAsyncParser.parseObjectSlow parse id current s.
Proof.
  rewrite <- cross_Map_late.
  unfold CrossAsyncParser.parseObjectWebAPI, bind, gets. cbv beta iota zeta.
  rewrite current_constructor.
  destruct (hasFeature (p_features s) Feature.WebAPI); reflexivity.
Qed.

Lemma cross_Map_collection :
  CrossAsyncParser.parseObjectCollection parse parseObject id current s
  = CrossAsyncParser.parseObjectSlow parse id current s.
Proof.
  rewrite <- cross_Map_webAPI.
  unfold CrossAsyncParser.parseObjectCollection, bind, gets. cbv beta iota zeta.
  rewrite current_constructor, Map_disabled. simpl. rewrite andb_false_r. reflexivity.
Qed.

Lemma cross_Map_bigInt :
  CrossAsyncParser.parseObjectBigInt parse parseObject id current s
  = CrossAsyncParser.parseObjectSlow parse id current s.
Proof.
  rewrite <- cross_Map_collection.
  unfold CrossAsyncParser.parseObjectBigInt, bind, gets. cbv beta iota zeta.
  rewrite current_constructor.
  destruct (hasBigIntFlag (p_features s)); reflexivity.
Qed.

Lemma cross_Map_typed :
  CrossAsyncParser.parseObjectTyped parse parseObject id current s
  = CrossAsyncParser.parseObjectSlow parse id current s.
Proof.
  rewrite <- cross_Map_bigInt.
  unfold CrossAsyncParser.parseObjectTyped, bind, gets. cbv beta iota zeta.
  rewrite current_constructor.
  destruct (hasFeature (p_features s) Feature.TypedArray); reflexivity.
Qed.

Lemma cross_Map_slow :
  CrossAsyncParser.parseObjectSlow parse id current s
  = if hasFeature (p_features s) Feature.Symbol
    then generateObjectNode parse createCrossIndexedValue true id current true s
    else Throw UnsupportedTypeError.
Proof.
  unfold CrossAsyncParser.parseObjectSlow, bind, gets, instanceofError.
  cbv beta iota zeta.
  rewrite current_slots, current_constructor, hasSymbolIterator_Map. simpl.
  rewrite andb_true_r.
  destruct (hasFeature (p_features s) Feature.Symbol); reflexivity.
Qed.

(** The synchronous parser asserts the feature. *)
Lemma sync_Map_rejected :
  SyncParser.generateMapNode parse id current s = Throw UnsupportedTypeError.
Proof.
  unfold SyncParser.generateMapNode, bind, gets, assert. cbv beta iota zeta.
  rewrite Map_disabled. reflexivity.
Qed.

End MapPath.

Section MapDisabled.
Context `{ParserHost}.


End MapDisabled.



(** ** The streaming driver (C7, C8) *)

Lemma countDone_app (l1 l2 : list Driver.Delivered) :
  Driver.countDone (l1 ++ l2) = Driver.countDone l1 + Driver.countDone l2.
Proof.
  induction l1 as [|d rest IH]; [reflexivity|].
  destruct d; simpl; rewrite IH; reflexivity.
Qed.

Lemma countDone_cleanups (cs : list nat) : Driver.countDone (map Driver.Cleanup cs) = 0.
Proof. induction cs as [|c rest IH]; [reflexivity|exact IH]. Qed.

(** What [onDone] has to do with the state: it was delivered once when [done]
    is set and never otherwise; while the driver is alive, [done] is set
    exactly when [flush] was called and no root is pending; a closed driver
    is done. *)
Definition done_inv (s : Driver.Serializer) : Prop :=
  Driver.doneCount s = (if Driver.done s then 1 else 0)
  /\ (Driver.alive s = true ->
        (Driver.done s = true <-> Driver.flushed s = true /\ (Driver.pending s <= 0)%Z))
  /\ (Driver.alive s = false -> Driver.done s = true).

(** Every field but the id counter [ids]. *)
Definition same_but_ids (s1 s2 : Driver.Serializer) : Prop :=
  Driver.alive s1 = Driver.alive s2 /\ Driver.flushed s1 = Driver.flushed s2
  /\ Driver.done s1 = Driver.done s2 /\ Driver.pending s1 = Driver.pending s2
  /\ Driver.cleanups s1 = Driver.cleanups s2 /\ Driver.rootKeys s1 = Driver.rootKeys s2
  /\ Driver.keys s1 = Driver.keys s2 /\ Driver.log s1 = Driver.log s2.

(** The cases of a driver method on a state given by its fields. *)
Ltac driver_cases rk al fl :=
  unfold Driver.write, Driver.flush, Driver.close, Driver.onSerialize, Driver.onDone;
  simpl;
  repeat match goal with
  | |- context [rk !! ?r] => destruct (rk !! r)
  end;
  destruct al, fl; simpl.

Section DriverFacts.
Variable options : Driver.Options.

Lemma run_snoc (s : Driver.Serializer) (es : list Driver.Event) (e : Driver.Event) :
  Driver.run options s (es ++ [e]) = Driver.step options (Driver.run options s es) e.
Proof. unfold Driver.run. rewrite fold_left_app. reflexivity. Qed.

Lemma alive_fireDone s : Driver.alive (Driver.fireDone options s) = Driver.alive s.
Proof.
  unfold Driver.fireDone.
  destruct (negb (Driver.done s) && Driver.hasOnDone options); reflexivity.
Qed.

Lemma alive_step s e :
  Driver.alive (Driver.step options s e) = Driver.alive s && negb (Driver.isClose e).
Proof.
  destruct s as [al fl dn pe cl rk ks ids lg].
  destruct e; simpl; driver_cases rk al fl;
    repeat match goal with
    | |- context [(?x <=? 0)%Z] => destruct (x <=? 0)%Z
    end; simpl; rewrite ?alive_fireDone; reflexivity.
Qed.

Lemma alive_run es :
  Driver.alive (Driver.run options Driver.init es) = negb (existsb Driver.isClose es).
Proof.
  induction es as [|e es IH] using rev_ind; [reflexivity|].
  rewrite run_snoc, alive_step, IH, existsb_app. simpl.
  rewrite orb_false_r, negb_orb. reflexivity.
Qed.

(** Once the driver is closed, nothing but the id counter moves. *)
Lemma step_dead s e :
  Driver.alive s = false -> same_but_ids (Driver.step options s e) s.
Proof.
  destruct s as [al fl dn pe cl rk ks ids lg]. simpl. intros ->.
  destruct e; simpl;
    unfold Driver.write, Driver.flush, Driver.close, Driver.onSerialize, Driver.onDone;
    simpl;
    repeat match goal with
    | |- context [rk !! ?r] => destruct (rk !! r)
    end; repeat split.
Qed.

Lemma run_dead s es :
  Driver.alive s = false -> same_but_ids (Driver.run options s es) s.
Proof.
  revert s. induction es as [|e es IH]; intros s Hs; [repeat split|].
  simpl. pose proof (step_dead s e Hs) as H1.
  assert (H2 : Driver.alive (Driver.step options s e) = false).
  { destruct H1 as [H1 _]. congruence. }
  specialize (IH _ H2).
  unfold same_but_ids in *. intuition congruence.
Qed.


Hypothesis onDone_configured : Driver.hasOnDone options = true.

Lemma done_inv_init : done_inv Driver.init.
Proof.
  split; [reflexivity|]. split.
  - intros _. simpl. split; [discriminate|intros [F _]; discriminate F].
  - discriminate.
Qed.

Lemma done_inv_step s e : done_inv s -> done_inv (Driver.step options s e).
Proof.
  destruct s as [al fl dn pe cl rk ks ids lg].
  unfold done_inv, Driver.doneCount. simpl. intros (Hc & Ha & Hd).
  destruct e; simpl;
    unfold Driver.write, Driver.flush, Driver.close, Driver.onSerialize, Driver.onDone,
      Driver.fireDone; simpl; rewrite ?onDone_configured;
    repeat match goal with
    | |- context [rk !! ?r] => destruct (rk !! r)
    end;
    destruct al, fl, dn; simpl;
    repeat match goal with
    | |- context [(?x <=? 0)%Z] => destruct (Z.leb_spec x 0)
    end; simpl; rewrite ?countDone_app, ?countDone_cleanups; simpl;
    try (specialize (Ha eq_refl)); try (specialize (Hd eq_refl));
    repeat split; intros; try discriminate; try lia; try tauto.
Qed.

Lemma done_inv_run es : done_inv (Driver.run options Driver.init es).
Proof.
  induction es as [|e es IH] using rev_ind; [apply done_inv_init|].
  rewrite run_snoc. apply done_inv_step. exact IH.
Qed.

(** C7, as the code has it.  With [onDone] configured, whatever is called on
    a new driver and whatever the streams of its roots report, [onDone] is
    delivered at most once; it was delivered once when [close] was called; and
    as long as [close] was not called, it was delivered exactly if [flush] was
    called and no root is pending.  The statement is about every sequence, so
    about every prefix of a run too: [onDone] is delivered at the step that
    makes the condition true, and never when [flush] and [close] are not
    called. *)
Theorem onDone_at_most_once (es : list Driver.Event) :
  Driver.doneCount (Driver.run options Driver.init es) <= 1
  /\ (existsb Driver.isClose es = true ->
        Driver.doneCount (Driver.run options Driver.init es) = 1)
  /\ (existsb Driver.isClose es = false ->
        (Driver.doneCount (Driver.run options Driver.init es) = 1
         <-> Driver.flushed (Driver.run options Driver.init es) = true
             /\ (Driver.pending (Driver.run options Driver.init es) <= 0)%Z)).
Proof.
  pose proof (done_inv_run es) as Hinv. pose proof (alive_run es) as Hal.
  destruct Hinv as (Hc & Ha & Hd). rewrite Hc.
  split; [destruct (Driver.done _); lia|]. split.
  - intros Hcl. rewrite Hcl in Hal. rewrite (Hd Hal). reflexivity.
  - intros Hcl. rewrite Hcl in Hal. rewrite <- (Ha Hal).
    destruct (Driver.done _); split; intros; congruence.
Qed.

End DriverFacts.

(** C7 as the claim has it fails: two roots are written and both complete,
    neither [flush] nor [close] is called, and [onDone] is not delivered. *)
Lemma onDone_never_without_flush :
  Driver.hasOnDone exampleOptions = true
  /\ Driver.doneCount
       (Driver.run exampleOptions Driver.init
          [Driver.Write "a" VNull; Driver.RootDone 0;
           Driver.Write "b" VNull; Driver.RootDone 1]) = 0.
Proof. split; reflexivity. Qed.

(** The amended C7 at work: a root is written and completes, [flush] is
    called, and [onDone] has been delivered once; [close] adds none. *)
Lemma onDone_at_most_once_witness :
  Driver.doneCount
    (Driver.run exampleOptions Driver.init
       [Driver.Write "a" VNull; Driver.RootDone 0; Driver.Flush; Driver.Close]) = 1
  /\ Driver.log
       (Driver.run exampleOptions Driver.init
          [Driver.Write "a" VNull; Driver.RootDone 0; Driver.Flush; Driver.Close])
     = [Driver.OnDone; Driver.Cleanup 0].
Proof.
  split; [|reflexivity].
  destruct (onDone_at_most_once exampleOptions eq_refl
              [Driver.Write "a" VNull; Driver.RootDone 0; Driver.Flush; Driver.Close])
    as (_ & Hclose & _).
  apply Hclose. reflexivity.
Defined.


(** * Further properties of the code *)

(** ** The streaming driver: keys and roots *)

Lemma getNextIDLoop_range (rounds : nat) (ks : gset string) (n : nat) :
  n <= Driver.getNextIDLoop rounds ks n <= n + rounds
  /\ (forall j, n <= j < Driver.getNextIDLoop rounds ks n -> pretty j ∈ ks)
  /\ (Driver.getNextIDLoop rounds ks n < n + rounds ->
        pretty (Driver.getNextIDLoop rounds ks n) ∉ ks).
Proof.
  revert n. induction rounds as [|r IH]; intros n; simpl.
  - split; [lia|]. split; [intros j Hj; lia|intros Hlt; lia].
  - destruct (bool_decide (pretty n ∈ ks)) eqn:E.
    + apply bool_decide_eq_true in E.
      destruct (IH (S n)) as (Hr & Hin & Hout).
      split; [lia|]. split.
      * intros j Hj. destruct (decide (j = n)) as [->|Hne]; [exact E|].
        apply Hin. lia.
      * intros Hlt. apply Hout. lia.
    + apply bool_decide_eq_false in E.
      split; [lia|]. split; [intros j Hj; lia|intros _; exact E].
Qed.

(** No more than [size ks] consecutive numbers have their text in [ks]. *)
Lemma consecutive_keys_bound (ks : gset string) (n k : nat) :
  (forall j, n <= j < n + k -> pretty j ∈ ks) -> k <= size ks.
Proof.
  intros Hin.
  assert (Hnd : NoDup (pretty <$> seq n k : list string)).
  { apply (NoDup_fmap_2 _). apply NoDup_seq. }
  rewrite <- (length_seq k n), <- (length_fmap pretty (seq n k)).
  rewrite <- (size_list_to_set (C := gset string) _ Hnd).
  apply subseteq_size. intros x Hx.
  apply elem_of_list_to_set, list_elem_of_fmap in Hx as (j & -> & Hj).
  apply elem_of_seq in Hj. apply Hin. lia.
Qed.

(** The [while] loop of [getNextID] stops at the first number from [ids] on
    whose text is no key: the bound of the model is never what stops it. *)
Lemma getNextID_fresh (s : Driver.Serializer) :
  (fst (Driver.getNextID s) ∉ Driver.keys s)
  /\ Driver.ids s <= Driver.ids (snd (Driver.getNextID s))
  /\ fst (Driver.getNextID s) = pretty (Driver.ids (snd (Driver.getNextID s)))
  /\ (forall j, Driver.ids s <= j < Driver.ids (snd (Driver.getNextID s)) ->
         pretty j ∈ Driver.keys s).
Proof.
  unfold Driver.getNextID. cbv zeta. cbn [fst snd Driver.ids].
  destruct (getNextIDLoop_range (S (size (Driver.keys s))) (Driver.keys s) (Driver.ids s))
    as (Hr & Hin & Hout).
  split; [|split; [lia|split; [reflexivity|exact Hin]]].
  apply Hout.
  destruct (decide (Driver.getNextIDLoop (S (size (Driver.keys s))) (Driver.keys s)
                      (Driver.ids s) < Driver.ids s + S (size (Driver.keys s))))
    as [Hlt|Hge]; [exact Hlt|].
  exfalso.
  assert (Hb := consecutive_keys_bound (Driver.keys s) (Driver.ids s)
                  (S (size (Driver.keys s)))).
  assert (S (size (Driver.keys s)) <= size (Driver.keys s)); [|lia].
  apply Hb. intros j Hj. apply Hin. lia.
Qed.

(** The key of every root that was started is in the key set. *)
Definition keys_inv (s : Driver.Serializer) : Prop :=
  forall k, k ∈ Driver.rootKeys s -> k ∈ Driver.keys s.

Section DriverKeys.
Variable options : Driver.Options.

Lemma keys_inv_step s e : keys_inv s -> keys_inv (Driver.step options s e).
Proof.
  destruct s as [al fl dn pe cl rk ks ids lg]. unfold keys_inv. simpl. intros Hinv.
  destruct e; simpl;
    unfold Driver.write, Driver.flush, Driver.close, Driver.onSerialize, Driver.onDone,
      Driver.fireDone; simpl;
    repeat match goal with
    | |- context [rk !! ?r] => destruct (rk !! r)
    end;
    destruct al, fl; simpl;
    repeat match goal with
    | |- context [(?x <=? 0)%Z] => destruct (x <=? 0)%Z
    end; simpl;
    repeat match goal with
    | |- context [negb dn && Driver.hasOnDone options] =>
        destruct (negb dn && Driver.hasOnDone options)
    end; simpl; try exact Hinv;
    intros k Hk; apply elem_of_app in Hk as [Hk|Hk];
    solve [ apply elem_of_union_r, Hinv, Hk
          | apply list_elem_of_singleton in Hk as ->;
            apply elem_of_union_l, elem_of_singleton; reflexivity ].
Qed.

Lemma keys_inv_run es : keys_inv (Driver.run options Driver.init es).
Proof.
  induction es as [|e es IH] using rev_ind.
  - intros k Hk. simpl in Hk. apply elem_of_nil in Hk. destruct Hk.
  - rewrite run_snoc. apply keys_inv_step. exact IH.
Qed.

(** X1: whatever was called on a new driver before, the key that [push]
    returns is the key of no root started so far and is in no way in the key
    set; it is the text of the first number from [ids] on that is no key, and
    when the driver takes roots (alive, not flushed) the new root is
    registered under it. *)
Theorem push_key_is_new (es : list Driver.Event) (value : Value) :
  (fst (Driver.push value (Driver.run options Driver.init es))
     ∉ Driver.rootKeys (Driver.run options Driver.init es))
  /\ (fst (Driver.push value (Driver.run options Driver.init es))
     ∉ Driver.keys (Driver.run options Driver.init es))
  /\ (forall j,
        Driver.ids (Driver.run options Driver.init es) <= j
          < Driver.ids (snd (Driver.push value (Driver.run options Driver.init es))) ->
        pretty j ∈ Driver.keys (Driver.run options Driver.init es))
  /\ (Driver.alive (Driver.run options Driver.init es) = true ->
      Driver.flushed (Driver.run options Driver.init es) = false ->
      Driver.rootKeys (snd (Driver.push value (Driver.run options Driver.init es)))
        = Driver.rootKeys (Driver.run options Driver.init es)
            ++ [fst (Driver.push value (Driver.run options Driver.init es))]).
Proof.
  pose proof (keys_inv_run es) as Hinv.
  destruct (getNextID_fresh (Driver.run options Driver.init es))
    as (Hfresh & Hle & Hkey & Hbelow).
  split; [|split; [|split]].
  - intros Hin. apply Hfresh. apply Hinv. exact Hin.
  - exact Hfresh.
  - intros j Hj. apply Hbelow.
    unfold Driver.push, Driver.write in Hj. cbv zeta in Hj.
    destruct (Driver.alive _ && negb (Driver.flushed _)) in Hj; exact Hj.
  - intros Ha Hf. unfold Driver.push, Driver.write. cbv zeta.
    change (Driver.alive (snd (Driver.getNextID (Driver.run options Driver.init es))))
      with (Driver.alive (Driver.run options Driver.init es)).
    change (Driver.flushed (snd (Driver.getNextID (Driver.run options Driver.init es))))
      with (Driver.flushed (Driver.run options Driver.init es)).
    rewrite Ha, Hf. reflexivity.
Qed.

(** After [flush] the roots are fixed. *)
Lemma step_flushed s e :
  Driver.flushed s = true ->
  Driver.flushed (Driver.step options s e) = true
  /\ Driver.rootKeys (Driver.step options s e) = Driver.rootKeys s
  /\ Driver.cleanups (Driver.step options s e) = Driver.cleanups s
  /\ Driver.keys (Driver.step options s e) = Driver.keys s
  /\ (Driver.pending (Driver.step options s e) <= Driver.pending s)%Z.
Proof.
  destruct s as [al fl dn pe cl rk ks ids lg]. simpl. intros ->.
  destruct e; simpl;
    unfold Driver.write, Driver.flush, Driver.close, Driver.onSerialize, Driver.onDone,
      Driver.fireDone; simpl;
    repeat match goal with
    | |- context [rk !! ?r] => destruct (rk !! r)
    end;
    destruct al; simpl;
    repeat match goal with
    | |- context [(?x <=? 0)%Z] => destruct (x <=? 0)%Z
    end; simpl;
    repeat match goal with
    | |- context [negb dn && Driver.hasOnDone options] =>
        destruct (negb dn && Driver.hasOnDone options)
    end; simpl; repeat split; lia.
Qed.

(** X2: [flush] is final for the roots.  Once [flushed] is set, whatever is
    called and whatever the streams report, [flushed] stays set, no root is
    added ([write] and [push] start nothing: the roots, their cleanups and the
    key set are unchanged), and [pending] does not grow. *)
Theorem flush_is_final (s : Driver.Serializer) (es : list Driver.Event) :
  Driver.flushed s = true ->
  Driver.flushed (Driver.run options s es) = true
  /\ Driver.rootKeys (Driver.run options s es) = Driver.rootKeys s
  /\ Driver.cleanups (Driver.run options s es) = Driver.cleanups s
  /\ Driver.keys (Driver.run options s es) = Driver.keys s
  /\ (Driver.pending (Driver.run options s es) <= Driver.pending s)%Z.
Proof.
  revert s. induction es as [|e es IH]; intros s Hf.
  - simpl. repeat split; [exact Hf|lia].
  - simpl. destruct (step_flushed s e Hf) as (H1 & H2 & H3 & H4 & H5).
    destruct (IH _ H1) as (I1 & I2 & I3 & I4 & I5).
    split; [exact I1|]. split; [congruence|]. split; [congruence|].
    split; [congruence|lia].
Qed.

End DriverKeys.

(** X2 at work: a root is written, [flush] is called, and a [write], a [push]
    and the completion of the root follow. *)
Lemma flush_is_final_witness :
  Driver.rootKeys
    (Driver.run exampleOptions
       (Driver.run exampleOptions Driver.init [Driver.Write "a" VNull; Driver.Flush])
       [Driver.Write "b" VNull; Driver.Push VNull; Driver.RootDone 0])
  = ["a"].
Proof.
  destruct (flush_is_final exampleOptions
              (Driver.run exampleOptions Driver.init [Driver.Write "a" VNull; Driver.Flush])
              [Driver.Write "b" VNull; Driver.Push VNull; Driver.RootDone 0] eq_refl)
    as (_ & Hroots & _).
  rewrite Hroots. reflexivity.
Defined.

(** ** What the parsers do with a Promise and with an AggregateError *)

(** The constructors that the asynchronous parsers handle after the typed
    arrays and the web objects only. *)
Definition lateCtor (c : Ctor) : bool :=
  match c with
  | CtorMap | CtorSet | CtorAggregateError | CtorPromise | CtorOther _ => true
  | _ => false
  end.

Section LatePath.
Context `{ParserHost}.
Variable current : Obj.
Hypothesis current_late : lateCtor (constructor current) = true.
Variable parse parseObject : Value -> ParseM SerovalNode.
Variable id : nat.
Variable s : ParseState.

Lemma async_late_webAPI :
  AsyncParser.parseObjectWebAPI parse parseObject id current s
  = AsyncParser.parseObjectLate parse id current s.
Proof.
  unfold AsyncParser.parseObjectWebAPI, bind, gets. cbv beta iota zeta.
  destruct (hasFeature (p_features s) Feature.WebAPI); [|reflexivity].
  destruct (constructor current); try discriminate current_late; reflexivity.
Qed.

Lemma async_late_bigInt :
  AsyncParser.parseObjectBigInt parse parseObject id current s
  = AsyncParser.parseObjectCollection parse parseObject id current s.
Proof.
  unfold AsyncParser.parseObjectBigInt, bind, gets. cbv beta iota zeta.
  destruct (hasBigIntFlag (p_features s)); [|reflexivity].
  destruct (constructor current); try discriminate current_late; reflexivity.
Qed.

Lemma async_late_typed :
  AsyncParser.parseObjectTyped parse parseObject id current s
  = AsyncParser.parseObjectCollection parse parseObject id current s.
Proof.
  rewrite <- async_late_bigInt.
  unfold AsyncParser.parseObjectTyped, bind, gets. cbv beta iota zeta.
  destruct (hasFeature (p_features s) Feature.TypedArray); [|reflexivity].
  destruct (constructor current); try discriminate current_late; reflexivity.
Qed.

Lemma cross_late_webAPI :
  CrossAsyncParser.parseObjectWebAPI parse parseObject id current s
  = CrossAsyncParser.parseObjectLate parse id current s.
Proof.
  unfold CrossAsyncParser.parseObjectWebAPI, bind, gets. cbv beta iota zeta.
  destruct (hasFeature (p_features s) Feature.WebAPI); [|reflexivity].
  destruct (constructor current); try discriminate current_late; reflexivity.
Qed.

Lemma cross_late_bigInt :
  CrossAsyncParser.parseObjectBigInt parse parseObject id current s
  = CrossAsyncParser.parseObjectCollection parse parseObject id current s.
Proof.
  unfold CrossAsyncParser.parseObjectBigInt, bind, gets. cbv beta iota zeta.
  destruct (hasBigIntFlag (p_features s)); [|reflexivity].
  destruct (constructor current); try discriminate current_late; reflexivity.
Qed.

Lemma cross_late_typed :
  CrossAsyncParser.parseObjectTyped parse parseObject id current s
  = CrossAsyncParser.parseObjectCollection parse parseObject id current s.
Proof.
  rewrite <- cross_late_bigInt.
  unfold CrossAsyncParser.parseObjectTyped, bind, gets. cbv beta iota zeta.
  destruct (hasFeature (p_features s) Feature.TypedArray); [|reflexivity].
  destruct (constructor current); try discriminate current_late; reflexivity.
Qed.

(** Neither a Map nor a Set: the collection tests fail. *)
Hypothesis current_no_collection :
  AsyncParser.isCtorMap (constructor current) = false
  /\ AsyncParser.isCtorSet (constructor current) = false.

Lemma async_late_collection :
  AsyncParser.parseObjectTyped parse parseObject id current s
  = AsyncParser.parseObjectLate parse id current s.
Proof.
  rewrite async_late_typed, <- async_late_webAPI.
  unfold AsyncParser.parseObjectCollection, bind, gets. cbv beta iota zeta.
  destruct current_no_collection as [-> ->]. rewrite !andb_false_r. reflexivity.
Qed.

Lemma cross_late_collection :
  CrossAsyncParser.parseObjectTyped parse parseObject id current s
  = CrossAsyncParser.parseObjectLate parse id current s.
Proof.
  rewrite cross_late_typed, <- cross_late_webAPI.
  unfold CrossAsyncParser.parseObjectCollection, bind, gets. cbv beta iota zeta.
  destruct current_no_collection as [-> ->]. rewrite !andb_false_r. reflexivity.
Qed.

End LatePath.

(** [parseObject] on a value met for the first time, up to the dispatch on its
    constructor. *)
Ltac enter_object Href Hh Hs Hc :=
  rewrite Href; unfold bind at 1; unfold heapGet; rewrite Hh; cbv beta iota;
  unfold isArray; rewrite Hs, Hc.

Section PromisePath.
Context `{ParserHost}.
Variable current : Obj.
Variables (status : nat) (result : Value).
Hypothesis current_constructor : constructor current = CtorPromise.
Hypothesis current_slots : slots current = SPromise status result.
Hypothesis current_iterator : iterator current = None.
Variable parse : Value -> ParseM SerovalNode.
Variable id : nat.
Variable s : ParseState.

Lemma hasSymbolIterator_Promise : hasSymbolIterator current = false.
Proof. unfold hasSymbolIterator. rewrite current_iterator, current_slots. reflexivity. Qed.

Lemma sync_Promise_slow :
  SyncParser.parseObjectSlow parse id current s = Throw UnsupportedTypeError.
Proof.
  unfold SyncParser.parseObjectSlow, bind, gets, instanceofAggregateError,
    instanceofError. cbv beta iota zeta.
  rewrite current_slots, hasSymbolIterator_Promise. reflexivity.
Qed.

Lemma async_Promise_slow :
  AsyncParser.parseObjectSlow parse id current s = Throw UnsupportedTypeError.
Proof.
  unfold AsyncParser.parseObjectSlow, bind, gets, instanceofError. cbv beta iota zeta.
  rewrite current_slots, hasSymbolIterator_Promise, andb_false_r. reflexivity.
Qed.

Lemma cross_Promise_slow :
  CrossAsyncParser.parseObjectSlow parse id current s = Throw UnsupportedTypeError.
Proof.
  unfold CrossAsyncParser.parseObjectSlow, bind, gets, instanceofError.
  cbv beta iota zeta.
  rewrite current_slots, hasSymbolIterator_Promise, andb_false_r. reflexivity.
Qed.

Lemma async_Promise_late :
  AsyncParser.parseObjectLate parse id current s
  = if hasFeature (p_features s) Feature.Promise
    then (f <- parse result ;; ret (PromiseNode id status f)) s
    else Throw UnsupportedTypeError.
Proof.
  rewrite <- async_Promise_slow.
  unfold AsyncParser.parseObjectLate, bind at 1, gets, instanceofAggregateError,
    instanceofPromise, generatePromiseNode. cbv beta iota zeta.
  rewrite current_constructor, current_slots. simpl AsyncParser.isCtorAggregateError.
  simpl AsyncParser.isCtorPromise. rewrite andb_false_r, andb_true_r.
  destruct (hasFeature (p_features s) Feature.Promise); reflexivity.
Qed.

Lemma cross_Promise_late :
  CrossAsyncParser.parseObjectLate parse id current s
  = if hasFeature (p_features s) Feature.Promise
    then (f <- parse result ;; ret (PromiseNode id status f)) s
    else Throw UnsupportedTypeError.
Proof.
  rewrite <- cross_Promise_slow.
  unfold CrossAsyncParser.parseObjectLate, bind at 1, gets, instanceofAggregateError,
    instanceofPromise, generatePromiseNode. cbv beta iota zeta.
  rewrite current_constructor, current_slots. simpl AsyncParser.isCtorAggregateError.
  simpl AsyncParser.isCtorPromise. rewrite andb_false_r, andb_true_r.
  destruct (hasFeature (p_features s) Feature.Promise); reflexivity.
Qed.

End PromisePath.

Section PromiseAndAggregateError.
Context `{ParserHost}.

(** X3: a Promise (met for the first time, with no iterator of its own) is
    rejected with [UnsupportedTypeError] by the synchronous parser, which has
    no branch for it, and by the asynchronous and the cross parser when
    [Feature.Promise] is disabled; with the feature they await it and return a
    Promise node with its status and the node of the settled value. *)
Theorem Promise_parsed_by_async_only (fuel : nat) (a : Addr) (current : Obj)
    (status : nat) (result : Value) (st : ParseState) :
  refs_ok st -> p_refs st !! a = None -> hasReferenceID a = false ->
  p_heap st !! a = Some current ->
  constructor current = CtorPromise -> slots current = SPromise status result ->
  iterator current = None ->
  SyncParser.parseSync (S fuel) (VObject a) st = Throw UnsupportedTypeError
  /\ (hasFeature (p_features st) Feature.Promise = false ->
        AsyncParser.parse (S fuel) (VObject a) st = Throw UnsupportedTypeError
        /\ CrossAsyncParser.crossParseAsync (S fuel) (VObject a) st
           = Throw UnsupportedTypeError)
  /\ (hasFeature (p_features st) Feature.Promise = true ->
        AsyncParser.parse (S fuel) (VObject a) st
          = (f <- AsyncParser.parse fuel result ;;
             ret (PromiseNode (size (p_refs st)) status f)) (allocated a st)
        /\ CrossAsyncParser.crossParseAsync (S fuel) (VObject a) st
          = (f <- CrossAsyncParser.crossParseAsync fuel result ;;
             ret (PromiseNode (size (p_refs st)) status f)) (allocated a st)).
Proof.
  intros Hok E Href Hheap Hc Hs Hit.
  assert (Hh : p_heap (allocated a st) !! a = Some current) by exact Hheap.
  assert (Hlate : lateCtor (constructor current) = true) by (rewrite Hc; reflexivity).
  assert (Hcol : AsyncParser.isCtorMap (constructor current) = false
                 /\ AsyncParser.isCtorSet (constructor current) = false)
    by (rewrite Hc; split; reflexivity).
  assert (Ea : AsyncParser.parse (S fuel) (VObject a) st
     = AsyncParser.parseObjectLate (AsyncParser.parse fuel) (size (p_refs st)) current
         (allocated a st)).
  { change (AsyncParser.parse (S fuel) (VObject a) st)
      with (AsyncParser.parseObjectStep (AsyncParser.parse fuel)
              (AsyncParser.parseObject fuel) (VObject a) st).
    rewrite (async_parseObjectStep_new _ _ a st E Hok). fold (allocated a st).
    unfold AsyncParser.parseObjectNew. enter_object Href Hh Hs Hc.
    apply async_late_collection; assumption. }
  assert (Ec : CrossAsyncParser.crossParseAsync (S fuel) (VObject a) st
     = CrossAsyncParser.parseObjectLate (CrossAsyncParser.crossParseAsync fuel)
         (size (p_refs st)) current (allocated a st)).
  { change (CrossAsyncParser.crossParseAsync (S fuel) (VObject a) st)
      with (CrossAsyncParser.parseObjectStep (CrossAsyncParser.crossParseAsync fuel)
              (CrossAsyncParser.parseObject fuel) (VObject a) st).
    rewrite (cross_parseObjectStep_new _ _ a st E). fold (allocated a st).
    unfold CrossAsyncParser.parseObjectNew. enter_object Href Hh Hs Hc.
    apply cross_late_collection; assumption. }
  rewrite (async_Promise_late current status result Hc Hs Hit) in Ea.
  rewrite (cross_Promise_late current status result Hc Hs Hit) in Ec.
  change (p_features (allocated a st)) with (p_features st) in Ea, Ec.
  split; [|split].
  - change (SyncParser.parseSync (S fuel) (VObject a) st)
      with (SyncParser.parseObject (SyncParser.parseSync fuel) (VObject a) st).
    rewrite (sync_parseObject_new _ a st E Hok). fold (allocated a st).
    unfold SyncParser.parseObjectNew. enter_object Href Hh Hs Hc.
    apply (sync_Promise_slow current status result Hs Hit).
  - intros HP. rewrite HP in Ea, Ec. split; assumption.
  - intros HP. rewrite HP in Ea, Ec. split; assumption.
Qed.

(** An AggregateError on its way through the two asynchronous parsers. *)
Lemma async_AggregateError_late (current : Obj) (aggregate : bool) (message : string)
    (parse : Value -> ParseM SerovalNode) (id : nat) (s : ParseState) :
  constructor current = CtorAggregateError ->
  slots current = SError aggregate message ->
  AsyncParser.parseObjectLate parse id current s
  = if hasFeature (p_features s) Feature.AggregateError
    then generateAggregateErrorNode parse createIndexedValue true id current s
    else parseError parse createIndexedValue id current s.
Proof.
  intros Hc Hs.
  unfold AsyncParser.parseObjectLate, AsyncParser.parseObjectSlow, bind at 1 2, gets,
    instanceofAggregateError, instanceofPromise, instanceofError. cbv beta iota zeta.
  rewrite Hc, Hs. simpl AsyncParser.isCtorAggregateError.
  simpl AsyncParser.isCtorPromise. rewrite andb_true_r, andb_false_r.
  destruct (hasFeature (p_features s) Feature.AggregateError); reflexivity.
Qed.

Lemma cross_AggregateError_late (current : Obj) (aggregate : bool) (message : string)
    (parse : Value -> ParseM SerovalNode) (id : nat) (s : ParseState) :
  constructor current = CtorAggregateError ->
  slots current = SError aggregate message ->
  CrossAsyncParser.parseObjectLate parse id current s
  = if hasFeature (p_features s) Feature.AggregateError
    then generateAggregateErrorNode parse createCrossIndexedValue true id current s
    else generateErrorNode parse createCrossIndexedValue true id current s.
Proof.
  intros Hc Hs.
  unfold CrossAsyncParser.parseObjectLate, CrossAsyncParser.parseObjectSlow, bind at 1 2,
    gets, instanceofAggregateError, instanceofPromise, instanceofError.
  cbv beta iota zeta.
  rewrite Hc, Hs. simpl AsyncParser.isCtorAggregateError.
  simpl AsyncParser.isCtorPromise. rewrite andb_true_r, andb_false_r.
  destruct (hasFeature (p_features s) Feature.AggregateError); reflexivity.
Qed.

(** X4: an AggregateError (met for the first time) is never rejected for its
    class.  With [Feature.AggregateError] the three parsers make an
    AggregateError node of it; without the feature they compile it down to an
    Error node, each through its generator of Error nodes. *)
Theorem AggregateError_compiled_down (fuel : nat) (a : Addr) (current : Obj)
    (aggregate : bool) (message : string) (st : ParseState) :
  refs_ok st -> p_refs st !! a = None -> hasReferenceID a = false ->
  p_heap st !! a = Some current ->
  constructor current = CtorAggregateError -> slots current = SError aggregate message ->
  (hasFeature (p_features st) Feature.AggregateError = true ->
     SyncParser.parseSync (S fuel) (VObject a) st
       = generateAggregateErrorNode (SyncParser.parseSync fuel) createIndexedValue false
           (size (p_refs st)) current (allocated a st)
     /\ AsyncParser.parse (S fuel) (VObject a) st
       = generateAggregateErrorNode (AsyncParser.parse fuel) createIndexedValue true
           (size (p_refs st)) current (allocated a st)
     /\ CrossAsyncParser.crossParseAsync (S fuel) (VObject a) st
       = generateAggregateErrorNode (CrossAsyncParser.crossParseAsync fuel)
           createCrossIndexedValue true (size (p_refs st)) current (allocated a st))
  /\ (hasFeature (p_features st) Feature.AggregateError = false ->
     SyncParser.parseSync (S fuel) (VObject a) st
       = generateErrorNode (SyncParser.parseSync fuel) createIndexedValue false
           (size (p_refs st)) current (allocated a st)
     /\ AsyncParser.parse (S fuel) (VObject a) st
       = parseError (AsyncParser.parse fuel) createIndexedValue
           (size (p_refs st)) current (allocated a st)
     /\ CrossAsyncParser.crossParseAsync (S fuel) (VObject a) st
       = generateErrorNode (CrossAsyncParser.crossParseAsync fuel)
           createCrossIndexedValue true (size (p_refs st)) current (allocated a st)).
Proof.
  intros Hok E Href Hheap Hc Hs.
  assert (Hh : p_heap (allocated a st) !! a = Some current) by exact Hheap.
  assert (Hlate : lateCtor (constructor current) = true) by (rewrite Hc; reflexivity).
  assert (Hcol : AsyncParser.isCtorMap (constructor current) = false
                 /\ AsyncParser.isCtorSet (constructor current) = false)
    by (rewrite Hc; split; reflexivity).
  assert (Es : SyncParser.parseSync (S fuel) (VObject a) st
     = if hasFeature (p_features st) Feature.AggregateError
       then generateAggregateErrorNode (SyncParser.parseSync fuel) createIndexedValue false
              (size (p_refs st)) current (allocated a st)
       else generateErrorNode (SyncParser.parseSync fuel) createIndexedValue false
              (size (p_refs st)) current (allocated a st)).
  { change (SyncParser.parseSync (S fuel) (VObject a) st)
      with (SyncParser.parseObject (SyncParser.parseSync fuel) (VObject a) st).
    rewrite (sync_parseObject_new _ a st E Hok). fold (allocated a st).
    unfold SyncParser.parseObjectNew. enter_object Href Hh Hs Hc.
    unfold bind at 1. unfold gets.
    change (p_features (allocated a st)) with (p_features st).
    destruct (hasFeature (p_features st) Feature.AggregateError); reflexivity. }
  assert (Ea : AsyncParser.parse (S fuel) (VObject a) st
     = AsyncParser.parseObjectLate (AsyncParser.parse fuel) (size (p_refs st)) current
         (allocated a st)).
  { change (AsyncParser.parse (S fuel) (VObject a) st)
      with (AsyncParser.parseObjectStep (AsyncParser.parse fuel)
              (AsyncParser.parseObject fuel) (VObject a) st).
    rewrite (async_parseObjectStep_new _ _ a st E Hok). fold (allocated a st).
    unfold AsyncParser.parseObjectNew. enter_object Href Hh Hs Hc.
    apply async_late_collection; assumption. }
  assert (Ec : CrossAsyncParser.crossParseAsync (S fuel) (VObject a) st
     = CrossAsyncParser.parseObjectLate (CrossAsyncParser.crossParseAsync fuel)
         (size (p_refs st)) current (allocated a st)).
  { change (CrossAsyncParser.crossParseAsync (S fuel) (VObject a) st)
      with (CrossAsyncParser.parseObjectStep (CrossAsyncParser.crossParseAsync fuel)
              (CrossAsyncParser.parseObject fuel) (VObject a) st).
    rewrite (cross_parseObjectStep_new _ _ a st E). fold (allocated a st).
    unfold CrossAsyncParser.parseObjectNew. enter_object Href Hh Hs Hc.
    apply cross_late_collection; assumption. }
  rewrite (async_AggregateError_late current aggregate message _ _ _ Hc Hs) in Ea.
  rewrite (cross_AggregateError_late current aggregate message _ _ _ Hc Hs) in Ec.
  change (p_features (allocated a st)) with (p_features st) in Ea, Ec.
  split; intros HF; rewrite HF in Es, Ea, Ec; repeat split; assumption.
Qed.

(** X5: a value with a registered reference id is not walked: met for the
    first time, it gets its id and is parsed to a Reference node with the
    escaped reference id, whatever the value is (the heap is not even read). *)
Theorem Reference_short_circuits (fuel : nat) (a : Addr) (st : ParseState) :
  refs_ok st -> p_refs st !! a = None -> hasReferenceID a = true ->
  SyncParser.parseSync (S fuel) (VObject a) st
    = Ok (ReferenceNode (size (p_refs st)) (serializeString (getReferenceID a)),
          allocated a st)
  /\ AsyncParser.parse (S fuel) (VObject a) st
    = Ok (ReferenceNode (size (p_refs st)) (serializeString (getReferenceID a)),
          allocated a st)
  /\ CrossAsyncParser.crossParseAsync (S fuel) (VObject a) st
    = Ok (ReferenceNode (size (p_refs st)) (serializeString (getReferenceID a)),
          allocated a st).
Proof.
  intros Hok E Href. split; [|split].
  - change (SyncParser.parseSync (S fuel) (VObject a) st)
      with (SyncParser.parseObject (SyncParser.parseSync fuel) (VObject a) st).
    rewrite (sync_parseObject_new _ a st E Hok). fold (allocated a st).
    unfold SyncParser.parseObjectNew. rewrite Href. reflexivity.
  - change (AsyncParser.parse (S fuel) (VObject a) st)
      with (AsyncParser.parseObjectStep (AsyncParser.parse fuel)
              (AsyncParser.parseObject fuel) (VObject a) st).
    rewrite (async_parseObjectStep_new _ _ a st E Hok). fold (allocated a st).
    unfold AsyncParser.parseObjectNew. rewrite Href. reflexivity.
  - change (CrossAsyncParser.crossParseAsync (S fuel) (VObject a) st)
      with (CrossAsyncParser.parseObjectStep (CrossAsyncParser.crossParseAsync fuel)
              (CrossAsyncParser.parseObject fuel) (VObject a) st).
    rewrite (cross_parseObjectStep_new _ _ a st E). fold (allocated a st).
    unfold CrossAsyncParser.parseObjectNew. rewrite Href. reflexivity.
Qed.

End PromiseAndAggregateError.

(** A settled promise, an AggregateError, each alone at address 0. *)
Definition heapPromise : gmap Addr Obj :=
  <[ 0 := mkObj CtorPromise (SPromise 1 (VNumber (Finite 7))) [] None FlagNone ]> ∅.
Definition heapAggregateError : gmap Addr Obj :=
  <[ 0 := mkObj CtorAggregateError (SError true "several") [] None FlagNone ]> ∅.

(** The host of the examples with the object at address 0 registered as the
    reference [root]. *)
Definition referenceHost : ParserHost :=
  mkParserHost (fun s => s) exampleIsIterable (fun _ _ => None) (fun _ => TagError)
    (fun _ => "Error") (fun a => Nat.eqb a 0) (fun _ => "root")
    (fun _ => unsupportedValue) (fun _ => unsupportedValue) (fun _ _ => unsupportedValue)
    (fun _ _ => unsupportedValue) (fun _ _ => unsupportedValue)
    (fun _ _ => unsupportedValue) (fun _ _ => unsupportedValue)
    (fun _ _ => []) (fun _ => []) (fun _ => []) (fun _ => []) (fun _ => [])
    (fun _ => "Uint8Array") (fun _ => "BigInt64Array").

(** X3 at work: the synchronous parser rejects the promise, the asynchronous
    one returns its node. *)
Lemma Promise_parsed_by_async_only_witness :
  SyncParser.parseSync 3 (VObject 0) (parserCtx Feature.ALL heapPromise)
    = Throw UnsupportedTypeError
  /\ (exists st',
        AsyncParser.parse 3 (VObject 0) (parserCtx Feature.ALL heapPromise)
        = Ok (PromiseNode 0 1 (NumberNode (Finite 7)), st')).
Proof.
  destruct (@Promise_parsed_by_async_only exampleParserHost 2 0
              (mkObj CtorPromise (SPromise 1 (VNumber (Finite 7))) [] None FlagNone)
              1 (VNumber (Finite 7)) (parserCtx Feature.ALL heapPromise)
              (refs_ok_parserCtx _ _) eq_refl eq_refl eq_refl eq_refl eq_refl eq_refl)
    as (Hs & _ & Ha).
  split; [exact Hs|]. destruct (Ha eq_refl) as [Ea _].
  eexists. rewrite Ea. vm_compute. reflexivity.
Defined.

(** X4 at work: with [Feature.AggregateError] disabled the asynchronous parser
    returns an Error node for the AggregateError. *)
Lemma AggregateError_compiled_down_witness :
  exists st',
    AsyncParser.parse 3 (VObject 0)
      (parserCtx (enabledFeatures Feature.AggregateError) heapAggregateError)
    = Ok (ErrorNode 0 (Some TagError) None "several" None, st').
Proof.
  destruct (@AggregateError_compiled_down exampleParserHost 2 0
              (mkObj CtorAggregateError (SError true "several") [] None FlagNone)
              true "several"
              (parserCtx (enabledFeatures Feature.AggregateError) heapAggregateError)
              (refs_ok_parserCtx _ _) eq_refl eq_refl eq_refl eq_refl eq_refl)
    as (_ & Hoff).
  destruct (Hoff eq_refl) as (_ & Ea & _).
  eexists. rewrite Ea. vm_compute. reflexivity.
Defined.

(** X5 at work: the registered object at address 0 of an empty heap. *)
Lemma Reference_short_circuits_witness :
  @SyncParser.parseSync referenceHost 1 (VObject 0) (parserCtx Feature.ALL ∅)
  = Ok (ReferenceNode 0 "root", allocated 0 (parserCtx Feature.ALL ∅)).
Proof.
  destruct (@Reference_short_circuits referenceHost 0 0 (parserCtx Feature.ALL ∅)
              (refs_ok_parserCtx _ _) eq_refl eq_refl) as (Hs & _).
  exact Hs.
Defined.

(** ** Views of one byte buffer *)

Section SharedBuffer.
Context `{ParserHost}.

Lemma serializeArrayBufferRef_seen (buffer : Addr) (r : nat) (st : ParseState) :
  p_refs st !! buffer = Some r ->
  serializeArrayBufferRef buffer st
  = Ok (IndexedValueNode r, set_pmarked ({[ r ]} ∪ p_marked st) st).
Proof.
  intros E. unfold serializeArrayBufferRef, bind, createIndexedValue, gets. rewrite E.
  simpl p_marked. rewrite bool_decide_eq_true_2; [reflexivity|].
  apply elem_of_union_l, elem_of_singleton. reflexivity.
Qed.

Lemma serializeArrayBufferRef_new (buffer : Addr) (bo : Obj) (bytes : list N)
    (st : ParseState) :
  refs_ok st -> p_refs st !! buffer = None ->
  p_heap st !! buffer = Some bo -> slots bo = SArrayBuffer bytes ->
  serializeArrayBufferRef buffer st
  = Ok (ArrayBufferNode (size (p_refs st)) bytes, allocated buffer st).
Proof.
  intros (_ & _ & Hmk) E Hh Hs.
  unfold serializeArrayBufferRef, bind, createIndexedValue, gets. rewrite E.
  simpl p_marked. rewrite bool_decide_eq_false_2.
  - unfold heapGet. simpl p_heap. rewrite Hh. unfold createArrayBufferNode.
    rewrite Hs. reflexivity.
  - intros Hin. apply Hmk in Hin. lia.
Qed.

(** X6: the views of one byte buffer share it by id.  [createTypedArrayNode]
    asks [serializeArrayBuffer] for the node of the view's buffer: a buffer met
    for the first time is parsed to an ArrayBuffer node with a new id and all
    its bytes; a buffer that has the id [r] already (another view was parsed
    before) is referred to by [IndexedValue r] and marked.  Without
    [Feature.TypedArray] the assertion of the function fails. *)
Theorem typed_array_shares_buffer (id : nat) (c : TypedArrayCtor) (current : Obj)
    (buffer : Addr) (byteOffset length : nat) (st : ParseState) :
  refs_ok st ->
  slots current = STypedArray buffer byteOffset length ->
  (hasFeature (p_features st) Feature.TypedArray = false ->
     exists message,
       createTypedArrayNode serializeArrayBufferRef id c current st
       = Throw (AssertionError message))
  /\ (hasFeature (p_features st) Feature.TypedArray = true ->
      (forall r, p_refs st !! buffer = Some r ->
         createTypedArrayNode serializeArrayBufferRef id c current st
         = Ok (TypedArrayNode id length (typedArrayName c) (IndexedValueNode r) byteOffset,
               set_pmarked ({[ r ]} ∪ p_marked st) st))
      /\ (forall bo bytes,
            p_refs st !! buffer = None ->
            p_heap st !! buffer = Some bo -> slots bo = SArrayBuffer bytes ->
            createTypedArrayNode serializeArrayBufferRef id c current st
            = Ok (TypedArrayNode id length (typedArrayName c)
                    (ArrayBufferNode (size (p_refs st)) bytes) byteOffset,
                  allocated buffer st))).
Proof.
  intros Hok Hs. split.
  - intros HF. eexists. unfold createTypedArrayNode, bind, gets, assert.
    cbv beta iota zeta. rewrite HF. reflexivity.
  - intros HF. split.
    + intros r E. unfold createTypedArrayNode, bind at 1 2, gets, assert.
      cbv beta iota zeta. rewrite HF, Hs. cbv beta iota.
      unfold ret at 1. cbv beta iota. unfold bind.
      rewrite (serializeArrayBufferRef_seen buffer r st E). reflexivity.
    + intros bo bytes E Hh Hb. unfold createTypedArrayNode, bind at 1 2, gets, assert.
      cbv beta iota zeta. rewrite HF, Hs. cbv beta iota.
      unfold ret at 1. cbv beta iota. unfold bind.
      rewrite (serializeArrayBufferRef_new buffer bo bytes st Hok E Hh Hb).
      reflexivity.
Qed.
End SharedBuffer.

(** [const b = new Uint8Array([1, 2]).buffer; [new Uint8Array(b), new Int8Array(b)]]:
    addresses 1 and 2 are the views, 3 is the buffer, 0 the array. *)
Definition heapTwoViews : gmap Addr Obj :=
  <[ 0 := listObj [Some (VObject 1); Some (VObject 2)] ]>
  (<[ 1 := mkObj (CtorTypedArray Uint8Array) (STypedArray 3 0 2) [] None FlagNone ]>
  (<[ 2 := mkObj (CtorTypedArray Int8Array) (STypedArray 3 0 2) [] None FlagNone ]>
  (<[ 3 := mkObj CtorArrayBuffer (SArrayBuffer [1%N; 2%N]) [] None FlagNone ]> ∅))).

(** X6 at work: the first view carries the bytes of the buffer (id 2), the
    second one refers to them. *)
Lemma typed_array_shares_buffer_witness :
  (exists st',
     SyncParser.parseSync 3 (VObject 0) (parserCtx Feature.ALL heapTwoViews)
     = Ok (ArrayNode 0 2
             [Some (TypedArrayNode 1 2 "Uint8Array" (ArrayBufferNode 2 [1%N; 2%N]) 0);
              Some (TypedArrayNode 3 2 "Uint8Array" (IndexedValueNode 2) 0)] FlagNone,
           st'))
  /\ createTypedArrayNode serializeArrayBufferRef 0 Uint8Array
       (mkObj (CtorTypedArray Uint8Array) (STypedArray 3 0 2) [] None FlagNone)
       (parserCtx Feature.ALL heapTwoViews)
     = Ok (TypedArrayNode 0 2 "Uint8Array" (ArrayBufferNode 0 [1%N; 2%N]) 0,
           allocated 3 (parserCtx Feature.ALL heapTwoViews)).
Proof.
  split; [eexists; vm_compute; reflexivity|].
  destruct (@typed_array_shares_buffer exampleParserHost 0 Uint8Array
              (mkObj (CtorTypedArray Uint8Array) (STypedArray 3 0 2) [] None FlagNone)
              3 0 2 (parserCtx Feature.ALL heapTwoViews)
              (refs_ok_parserCtx _ _) eq_refl) as (_ & Hon).
  destruct (Hon eq_refl) as (_ & Hnew).
  apply (Hnew (mkObj CtorArrayBuffer (SArrayBuffer [1%N; 2%N]) [] None FlagNone)
           [1%N; 2%N] eq_refl eq_refl eq_refl).
Defined.

(** ** The two loops of the collections *)

(** The entries of [xs] whose bit in [mask] is [b], in order. *)
Fixpoint pick {X : Type} (b : bool) (mask : list bool) (xs : list X) : list X :=
  match xs, mask with
  | x :: xs', m :: mask' =>
      if Bool.eqb m b then x :: pick b mask' xs' else pick b mask' xs'
  | _, _ => []
  end.

Lemma pick_length {X : Type} (mask : list bool) (xs : list X) :
  length mask = length xs ->
  length (pick false mask xs) + length (pick true mask xs) = length xs.
Proof.
  revert mask. induction xs as [|x xs IH]; intros [|m mask] Hl; try discriminate Hl;
    [reflexivity|].
  injection Hl as Hl. specialize (IH mask Hl). destruct m; simpl; lia.
Qed.

Lemma pick_all_false {X : Type} (mask : list bool) (xs : list X) :
  length mask = length xs -> Forall (fun m => m = false) mask ->
  pick false mask xs = xs /\ pick true mask xs = [].
Proof.
  revert mask. induction xs as [|x xs IH]; intros [|m mask] Hl Hf; try discriminate Hl;
    [split; reflexivity|].
  injection Hl as Hl. inversion Hf as [|? ? Hm Hrest]; subst.
  destruct (IH mask Hl Hrest) as [E1 E2]. simpl. rewrite E1, E2. split; reflexivity.
Qed.

Section DeferLoops.
Context {X Y : Type}.
Variable test : ParseState -> X -> bool.
Variable one : X -> ParseM Y.

(** [y] is what [one] returned for [x], in some state. *)
Definition parsed_as (x : X) (y : Y) : Prop :=
  exists s s', one x s = Ok (y, s').

(** [m] is what the test said of [x], in some state. *)
Definition tested_as (x : X) (m : bool) : Prop :=
  exists s, test s x = m.

Lemma deferFirst_spec (xs : list X) (st : ParseState) (r : list Y * list X)
    (st' : ParseState) :
  deferFirst test one xs st = Ok (r, st') ->
  exists mask,
    Forall2 tested_as xs mask
    /\ snd r = pick true mask xs
    /\ Forall2 parsed_as (pick false mask xs) (fst r).
Proof.
  revert st r st'. induction xs as [|x xs IH]; intros st r st' R; simpl in R.
  - injection R as <- _. exists []. repeat split; constructor.
  - unfold bind at 1 in R. unfold gets in R.
    destruct (test st x) eqn:T.
    + apply bind_Ok in R as (r0 & s1 & R0 & R). injection R as <- _.
      destruct (IH _ _ _ R0) as (mask & Hm & Hd & Hp).
      exists (true :: mask). split; [constructor; [exists st; exact T|exact Hm]|].
      simpl. split; [rewrite Hd; reflexivity|exact Hp].
    + apply bind_Ok in R as (y & s1 & Ry & R).
      apply bind_Ok in R as (r0 & s2 & R0 & R). injection R as <- _.
      destruct (IH _ _ _ R0) as (mask & Hm & Hd & Hp).
      exists (false :: mask). split; [constructor; [exists st; exact T|exact Hm]|].
      simpl. split; [exact Hd|].
      constructor; [exists st, s1; exact Ry|exact Hp].
Qed.

Lemma deferSecond_spec (ds : list X) (st : ParseState) (ys : list Y) (st' : ParseState) :
  deferSecond one ds st = Ok (ys, st') -> Forall2 parsed_as ds ys.
Proof.
  revert st ys st'. induction ds as [|x ds IH]; intros st ys st' R; simpl in R.
  - injection R as <- _. constructor.
  - apply bind_Ok in R as (y & s1 & Ry & R).
    apply bind_Ok in R as (r & s2 & Rr & R). injection R as <- _.
    constructor; [exists st, s1; exact Ry|eapply IH; exact Rr].
Qed.

Lemma deferLoops_spec (xs : list X) (st : ParseState) (ys : list Y) (st' : ParseState) :
  deferLoops test one xs st = Ok (ys, st') ->
  exists mask,
    Forall2 tested_as xs mask
    /\ Forall2 parsed_as (pick false mask xs ++ pick true mask xs) ys
    /\ length ys = length xs.
Proof.
  unfold deferLoops. intros R.
  apply bind_Ok in R as (r & s1 & R1 & R).
  apply bind_Ok in R as (d & s2 & R2 & R). injection R as <- _.
  destruct (deferFirst_spec _ _ _ _ R1) as (mask & Hm & Hd & Hp).
  apply deferSecond_spec in R2. rewrite Hd in R2.
  exists mask. split; [exact Hm|].
  assert (Hall : Forall2 parsed_as (pick false mask xs ++ pick true mask xs) (fst r ++ d))
    by (apply Forall2_app; assumption).
  split; [exact Hall|].
  apply Forall2_length in Hall. rewrite <- Hall, length_app.
  apply pick_length. symmetry. eapply Forall2_length. exact Hm.
Qed.

End DeferLoops.

Section Collections.
Context `{ParserHost}.
Variable parse : Value -> ParseM SerovalNode.


End Collections.

(** [function* g() {}; const it = {[Symbol.iterator]: g}; new Set([it, 1, 2])]:
    address 0 is the Set, 1 the iterable object. *)
Definition heapSetOfIterable : gmap Addr Obj :=
  <[ 0 := mkObj CtorSet
            (SSet [VObject 1; VNumber (Finite 1); VNumber (Finite 2)]) [] None FlagNone ]>
  (<[ 1 := mkObj CtorObject SOrdinary [] (Some []) FlagNone ]> ∅).


(** ** The ids of a parse are dense *)

(** [n] distinct numbers below [n] are all the numbers below [n]. *)
Lemma NoDup_below_all (l : list nat) (n : nat) :
  NoDup l -> length l = n -> Forall (fun r => r < n) l ->
  forall r, r < n -> r ∈ l.
Proof.
  intros Hnd Hlen Hlt r Hr.
  assert (Heq : (list_to_set l : gset nat) ≡ set_seq 0 n).
  { apply set_subseteq_size_equiv.
    - intros x Hx. apply elem_of_list_to_set in Hx.
      apply elem_of_set_seq. rewrite Forall_forall in Hlt. specialize (Hlt x Hx). lia.
    - rewrite size_set_seq, size_list_to_set by exact Hnd. lia. }
  apply (elem_of_list_to_set (C := gset nat)). apply Heq.
  apply elem_of_set_seq. lia.
Qed.

Lemma refs_ok_dense (st : ParseState) :
  refs_ok st ->
  forall r, r < size (p_refs st) -> exists a, p_refs st !! a = Some r.
Proof.
  intros (Hlt & Hinj & _) r Hr.
  pose (l := (map_to_list (p_refs st)).*2).
  assert (Hin : r ∈ l).
  { apply (NoDup_below_all l (size (p_refs st))); [| | |exact Hr].
    - unfold l. apply NoDup_fmap_2_strong; [|apply NoDup_map_to_list].
      intros [a1 r1] [a2 r2] H1 H2 Heq. simpl in Heq. subst r2.
      apply elem_of_map_to_list in H1, H2. f_equal. eapply Hinj; eassumption.
    - unfold l. rewrite length_fmap. apply length_map_to_list.
    - unfold l. apply Forall_forall. intros x Hx.
      apply list_elem_of_fmap in Hx as ([a r'] & -> & Hx).
      apply elem_of_map_to_list in Hx. eapply Hlt. exact Hx. }
  unfold l in Hin. apply list_elem_of_fmap in Hin as ([a r'] & -> & Hin).
  exists a. apply elem_of_map_to_list in Hin. exact Hin.
Qed.

Section DenseIds.
Context `{ParserHost}.

(** What the imported node constructors are assumed to do: keep the ids that
    are assigned. *)
Hypothesis createSymbolNode_preserves : forall d, preserves (createSymbolNode d).
Hypothesis createFunctionNode_preserves : forall a, preserves (createFunctionNode a).
Hypothesis createBlobNode_preserves : forall id o, preserves (createBlobNode id o).
Hypothesis createFileNode_preserves : forall id o, preserves (createFileNode id o).
Hypothesis createURLNode_preserves : forall id o, preserves (createURLNode id o).
Hypothesis createURLSearchParamsNode_preserves :
  forall id o, preserves (createURLSearchParamsNode id o).
Hypothesis createDOMExceptionNode_preserves :
  forall id o, preserves (createDOMExceptionNode id o).

(** X8: the ids of a parse are dense.  When one of the three parsers returns
    from a context whose ids are in order (a new context is), the feature mask
    is unchanged, the values that had an id have kept it, no two values share
    an id, the ids in use are exactly the numbers below the size of [refs],
    and every marked id is the id of a value. *)
Theorem parse_ids_dense (fuel : nat) (v : Value) (st : ParseState) (node : SerovalNode)
    (st' : ParseState) :
  refs_ok st ->
  SyncParser.parseSync fuel v st = Ok (node, st')
  \/ AsyncParser.parse fuel v st = Ok (node, st')
  \/ CrossAsyncParser.crossParseAsync fuel v st = Ok (node, st') ->
  p_features st' = p_features st
  /\ (forall a r, p_refs st !! a = Some r -> p_refs st' !! a = Some r)
  /\ (forall a b r, p_refs st' !! a = Some r -> p_refs st' !! b = Some r -> a = b)
  /\ (forall r, r < size (p_refs st') <-> exists a, p_refs st' !! a = Some r)
  /\ (forall r, r ∈ p_marked st' -> exists a, p_refs st' !! a = Some r).
Proof.
  intros Hok R.
  assert (Hext : extends st st').
  { destruct R as [R|[R|R]].
    - eapply preserves_parseSync; eassumption.
    - eapply preserves_async_parseWith; [..|exact R]; try assumption.
      apply preserves_async_parseObject; assumption.
    - eapply preserves_crossParseAsyncWith; [..|exact R]; try assumption.
      apply preserves_cross_parseObject; assumption. }
  destruct Hext as (Hf & Hsub & Hw). pose proof (Hw Hok) as Hok'.
  split; [exact Hf|]. split.
  { intros a r Ha. eapply lookup_weaken; eassumption. }
  destruct Hok' as (Hlt & Hinj & Hmk). split; [exact Hinj|]. split.
  - intros r. split.
    + apply refs_ok_dense. repeat split; assumption.
    + intros [a Ha]. eapply Hlt. exact Ha.
  - intros r Hr. apply refs_ok_dense; [repeat split; assumption|].
    apply Hmk. exact Hr.
Qed.

End DenseIds.

(** X8 at work, on [const o = {}; const root = [o, o]; root.push(root)]: the
    two objects have the ids 0 and 1, and both are marked. *)
Lemma parse_ids_dense_witness :
  exists node st',
    SyncParser.parseSync 3 (VObject 0) (parserCtx Feature.ALL heapShared) = Ok (node, st')
    /\ size (p_refs st') = 2
    /\ (forall r, r < size (p_refs st') <-> exists a, p_refs st' !! a = Some r).
Proof.
  eexists _, _. split; [vm_compute; reflexivity|]. split; [vm_compute; reflexivity|].
  eapply (@parse_ids_dense exampleParserHost
            (fun _ => unsupportedValue_preserves) (fun _ => unsupportedValue_preserves)
            (fun _ _ => unsupportedValue_preserves) (fun _ _ => unsupportedValue_preserves)
            (fun _ _ => unsupportedValue_preserves) (fun _ _ => unsupportedValue_preserves)
            (fun _ _ => unsupportedValue_preserves)
            3 (VObject 0) (parserCtx Feature.ALL heapShared) _ _
            (refs_ok_parserCtx _ _)).
  left. vm_compute. reflexivity.
Defined.

(** ** The text of a byte buffer *)

Lemma serializeArrayBufferLoop_join (buffer : list N) (i : nat) (result : string) :
  0 < i ->
  serializeArrayBufferLoop i buffer result
  = fold_left (fun acc it => acc +:+ "," +:+ it) (map pretty buffer) result.
Proof.
  revert i result. induction buffer as [|b rest IH]; intros i result Hi; [reflexivity|].
  simpl. destruct i; [lia|]. simpl. rewrite IH by lia. reflexivity.
Qed.

Lemma fold_left_join_prefix (p : string) (its : list string) (first : string) :
  fold_left (fun acc it => acc +:+ "," +:+ it) its (p +:+ first)
  = p +:+ fold_left (fun acc it => acc +:+ "," +:+ it) its first.
Proof.
  revert first. induction its as [|x xs IH]; intros first; [reflexivity|].
  simpl. rewrite append_assoc. apply IH.
Qed.

Section BufferText.
Context {Ext : Type} `{Host Ext}.

(** X9: [serializeArrayBuffer] emits the bytes of the node in order, in
    decimal, separated by single commas, as the argument of [Uint8Array], and
    no argument at all for an empty buffer; the text goes through
    [assignIndexedValue] for the id of the node. *)
Theorem serializeArrayBuffer_text (i : nat) (bytes : list N) :
  serializeArrayBuffer i bytes
  = assignIndexedValue i
      ("new Uint8Array("
       +:+ (match bytes with
            | [] => ""
            | _ => "[" +:+ String.concat "," (map pretty bytes) +:+ "]"
            end)
       +:+ ").buffer").
Proof.
  unfold serializeArrayBuffer. destruct bytes as [|b rest]; [reflexivity|].
  cbv zeta. f_equal.
  simpl serializeArrayBufferLoop. simpl length. cbv iota.
  rewrite serializeArrayBufferLoop_join by lia.
  change (("new Uint8Array(" +:+ "[") +:+ "" +:+ pretty b)
    with ("new Uint8Array(" +:+ "[" +:+ pretty b).
  rewrite !fold_left_join_prefix, fold_left_join, !append_assoc.
  reflexivity.
Qed.

End BufferText.

(** ** What [serialize] never takes back *)

Section Growth.
Context {Ext : Type}.

(** From [c] to [c'] the feature mask is the same, and marks, flags and
    assignments were only added: the flags and the assignments at the end. *)
Definition grows (c c' : SerCtx Ext) : Prop :=
  features c' = features c
  /\ marked c ⊆ marked c'
  /\ flags c `prefix_of` flags c'
  /\ assignments c `prefix_of` assignments c'.

Definition only_adds {A : Type} (m : SerM Ext A) : Prop :=
  forall c a c', m c = Ok (a, c') -> grows c c'.

Lemma grows_refl (c : SerCtx Ext) : grows c c.
Proof. repeat split; reflexivity. Qed.

Lemma grows_trans (c1 c2 c3 : SerCtx Ext) : grows c1 c2 -> grows c2 c3 -> grows c1 c3.
Proof.
  intros (F1 & M1 & L1 & A1) (F2 & M2 & L2 & A2).
  split; [congruence|]. split; [etrans; eassumption|].
  split; etrans; eassumption.
Qed.

Lemma only_adds_ret {A : Type} (a : A) : only_adds (ret a).
Proof. intros c x c' R. injection R as _ <-. apply grows_refl. Qed.

Lemma only_adds_throw {A : Type} (e : SerovalError) : only_adds (throw (A := A) e).
Proof. intros c x c' R. discriminate R. Qed.

Lemma only_adds_gets {A : Type} (f : SerCtx Ext -> A) : only_adds (gets f).
Proof. intros c x c' R. injection R as _ <-. apply grows_refl. Qed.

Lemma only_adds_bind {A B : Type} (m : SerM Ext A) (f : A -> SerM Ext B) :
  only_adds m -> (forall a, only_adds (f a)) -> only_adds (bind m f).
Proof.
  intros Hm Hf c b c' R. apply bind_Ok in R as (a & c1 & R1 & R2).
  eapply grows_trans; [eapply Hm; exact R1|eapply Hf; exact R2].
Qed.

Lemma only_adds_modify (g : SerCtx Ext -> SerCtx Ext) :
  (forall c, grows c (g c)) -> only_adds (modify g).
Proof. intros Hg c x c' R. injection R as _ <-. apply Hg. Qed.

Lemma grows_set_stack (st : list nat) (c : SerCtx Ext) : grows c (set_stack st c).
Proof. repeat split; reflexivity. Qed.

Lemma grows_set_deferred (d : gmap nat string) (c : SerCtx Ext) :
  grows c (set_deferred d c).
Proof. repeat split; reflexivity. Qed.

Lemma grows_mark (id : nat) (c : SerCtx Ext) :
  grows c (set_marked ({[ id ]} ∪ marked c) c).
Proof.
  split; [reflexivity|]. split; [simpl; set_solver|]. split; reflexivity.
Qed.

Lemma grows_flag (f : FlaggedObject) (c : SerCtx Ext) :
  grows c (set_flags (flags c ++ [f]) c).
Proof.
  split; [reflexivity|]. split; [reflexivity|].
  split; [apply prefix_app_r; reflexivity|reflexivity].
Qed.

Lemma grows_assignment (a : Assignment) (c : SerCtx Ext) :
  grows c (set_assignments (assignments c ++ [a]) c).
Proof.
  split; [reflexivity|]. split; [reflexivity|].
  split; [reflexivity|apply prefix_app_r; reflexivity].
Qed.

(** The assignments that [body] makes go to the array it is given; the array
    of the context is put back as it was. *)
Lemma only_adds_withAssignments {A : Type} (main : list Assignment) (body : SerM Ext A) :
  only_adds body -> only_adds (withAssignments main body).
Proof.
  intros Hb c r c' R. unfold withAssignments in R.
  apply bind_Ok in R as (parent & c1 & R1 & R). injection R1 as <- <-.
  apply bind_Ok in R as (u & c2 & R2 & R). injection R2 as _ <-.
  apply bind_Ok in R as (x & c3 & R3 & R).
  apply bind_Ok in R as (main' & c4 & R4 & R). injection R4 as _ <-.
  apply bind_Ok in R as (u' & c5 & R5 & R). injection R5 as _ <-.
  injection R as _ <-.
  destruct (Hb _ _ _ R3) as (F & M & L & _). simpl in F, M, L.
  split; [exact F|]. split; [exact M|]. split; [exact L|]. simpl. reflexivity.
Qed.

End Growth.

Create HintDb adds_db.

#[export] Hint Resolve only_adds_ret only_adds_throw only_adds_gets grows_set_stack
  grows_set_deferred grows_mark grows_flag grows_assignment only_adds_withAssignments
  : adds_db.

(** One step through a method body. *)
Ltac adds_step :=
  match goal with
  | |- only_adds _ => progress (cbv beta iota)
  | |- only_adds (bind (if ?b then _ else _) _) => destruct b
  | |- only_adds (bind (match ?x with _ => _ end) _) => destruct x
  | |- only_adds (bind _ _) => apply only_adds_bind; [|intros]
  | |- only_adds (if ?b then _ else _) => destruct b
  | |- only_adds (match ?x with _ => _ end) => destruct x
  | |- only_adds (let _ := _ in _) => cbv zeta
  | |- only_adds (stack_push _) => unfold stack_push
  | |- only_adds stack_pop => unfold stack_pop
  | |- only_adds (modify _) => apply only_adds_modify; intros; solve [eauto with adds_db]
  | |- only_adds _ => solve [eauto 4 with adds_db]
  end.

Ltac adds := repeat adds_step.

Section OnlyAdds.
Context {Ext : Type} `{Host Ext}.

(** What the subclass and the plugins are assumed to do: they only add, too. *)
Hypothesis getRefParam_adds : forall id, only_adds (Ext := Ext) (getRefParam id).
Hypothesis assignIndexedValue_adds :
  forall id v, only_adds (Ext := Ext) (assignIndexedValue id v).
Hypothesis serializePromiseConstructor_adds :
  forall i, only_adds (Ext := Ext) (serializePromiseConstructor i).
Hypothesis serializePromiseResolve_adds :
  forall i m, only_adds (Ext := Ext) m -> only_adds (Ext := Ext) (serializePromiseResolve i m).
Hypothesis serializePromiseReject_adds :
  forall i m, only_adds (Ext := Ext) m -> only_adds (Ext := Ext) (serializePromiseReject i m).
Hypothesis serializeReadableStreamConstructor_adds :
  forall i, only_adds (Ext := Ext) (serializeReadableStreamConstructor i).
Hypothesis serializeReadableStreamEnqueue_adds :
  forall i m, only_adds (Ext := Ext) m ->
    only_adds (Ext := Ext) (serializeReadableStreamEnqueue i m).
Hypothesis serializeReadableStreamError_adds :
  forall i m, only_adds (Ext := Ext) m ->
    only_adds (Ext := Ext) (serializeReadableStreamError i m).
Hypothesis serializeReadableStreamClose_adds :
  forall i, only_adds (Ext := Ext) (serializeReadableStreamClose i).
Hypothesis plugins_add :
  forall ps, plugins = Some ps ->
    Forall (fun p => forall s i, only_adds (Ext := Ext) (plugin_serialize p s i)) ps.

Lemma markRef_adds id : only_adds (Ext := Ext) (markRef id).
Proof. unfold markRef. adds. Qed.

Lemma isMarked_adds id : only_adds (Ext := Ext) (isMarked id).
Proof. unfold isMarked. adds. Qed.

Lemma getRefParamOf_adds node : only_adds (Ext := Ext) (getRefParamOf node).
Proof. unfold getRefParamOf. adds. Qed.

Lemma createAssignment_adds src v : only_adds (Ext := Ext) (createAssignment src v).
Proof. unfold createAssignment. adds. Qed.

#[local] Hint Resolve markRef_adds isMarked_adds getRefParamOf_adds
  createAssignment_adds : adds_db.

Lemma createAddAssignment_adds ref v : only_adds (Ext := Ext) (createAddAssignment ref v).
Proof. unfold createAddAssignment. adds. Qed.

Lemma createSetAssignment_adds ref k v : only_adds (Ext := Ext) (createSetAssignment ref k v).
Proof. unfold createSetAssignment. adds. Qed.

Lemma createArrayAssign_adds ref idx v : only_adds (Ext := Ext) (createArrayAssign ref idx v).
Proof. unfold createArrayAssign. adds. Qed.

Lemma createObjectAssign_adds ref k v : only_adds (Ext := Ext) (createObjectAssign ref k v).
Proof. unfold createObjectAssign. adds. Qed.

Lemma pushObjectFlag_adds flag id : only_adds (Ext := Ext) (pushObjectFlag flag id).
Proof. unfold pushObjectFlag. destruct flag; adds. Qed.

Lemma defer_adds id v : only_adds (Ext := Ext) (defer id v).
Proof. unfold defer. adds. Qed.

Lemma isIndexedValueInStack_adds node : only_adds (Ext := Ext) (isIndexedValueInStack node).
Proof. unfold isIndexedValueInStack. destruct node; adds. Qed.

Lemma getIterableAccess_adds : only_adds (Ext := Ext) getIterableAccess.
Proof. unfold getIterableAccess. adds. Qed.

#[local] Hint Resolve createAddAssignment_adds createSetAssignment_adds
  createArrayAssign_adds createObjectAssign_adds pushObjectFlag_adds defer_adds
  isIndexedValueInStack_adds getIterableAccess_adds : adds_db.

Lemma isMarkedOriginal_adds node : only_adds (Ext := Ext) (isMarkedOriginal node).
Proof. unfold isMarkedOriginal. adds. Qed.

Lemma serializeIndexedValue_adds i : only_adds (Ext := Ext) (serializeIndexedValue i).
Proof. unfold serializeIndexedValue. adds. Qed.

Lemma serializeReference_adds i s : only_adds (Ext := Ext) (serializeReference i s).
Proof. unfold serializeReference. adds. Qed.

#[local] Hint Resolve isMarkedOriginal_adds serializeIndexedValue_adds
  serializeReference_adds : adds_db.

Section AddsMethods.
Variable ser : SerovalNode -> SerM Ext string.

Lemma serializeIterable_adds node :
  only_adds (Ext := Ext) (ser node) -> only_adds (Ext := Ext) (serializeIterable ser node).
Proof. intros Hn. unfold serializeIterable. adds. Qed.

Lemma serializeArrayItem_adds id item index :
  (forall n, item = Some n -> only_adds (Ext := Ext) (ser n)) ->
  only_adds (Ext := Ext) (serializeArrayItem ser id item index).
Proof.
  intros Hi. unfold serializeArrayItem. destruct item as [it|]; [|adds].
  specialize (Hi it eq_refl). adds.
Qed.

#[local] Hint Resolve serializeIterable_adds serializeArrayItem_adds : adds_db.

Lemma serializeArrayLoop_adds id list :
  Forall (fun o => forall n, o = Some n -> only_adds (Ext := Ext) (ser n)) list ->
  forall n idx values isHoley,
    only_adds (Ext := Ext) (serializeArrayLoop ser id n idx list values isHoley).
Proof.
  induction 1 as [|item rest Hi _ IH]; intros n idx values isHoley;
    destruct n; simpl; adds.
Qed.

#[local] Hint Resolve serializeArrayLoop_adds : adds_db.

Lemma serializeArray_adds i l a o :
  Forall (fun x => forall n, x = Some n -> only_adds (Ext := Ext) (ser n)) a ->
  only_adds (Ext := Ext) (serializeArray ser i l a o).
Proof.
  intros Ha. unfold serializeArray. destruct l; [adds|].
  destruct Ha as [|item rest Hi Hrest]; adds.
Qed.

Lemma serializeProperty_adds id key val :
  only_adds (Ext := Ext) (ser val) -> only_adds (Ext := Ext) (serializeProperty ser id key val).
Proof.
  intros Hv. unfold serializeProperty. destruct key as [key|]; adds.
Qed.

#[local] Hint Resolve serializeProperty_adds : adds_db.

Lemma serializePropertiesLoop_adds {K : Type} (toKey : K -> SerovalObjectRecordKey)
    sourceID (entries : list (K * SerovalNode)) :
  Forall (fun e => only_adds (Ext := Ext) (ser (snd e))) entries ->
  forall n result item,
    only_adds (Ext := Ext) (serializePropertiesLoop toKey ser sourceID n entries result item).
Proof.
  induction 1 as [|[key val] rest Hv _ IH]; intros n result item;
    destruct n; simpl; adds.
Qed.

#[local] Hint Resolve serializePropertiesLoop_adds : adds_db.

Lemma serializeProperties_adds {K : Type} (toKey : K -> SerovalObjectRecordKey)
    sourceID (node : RecordNode K SerovalNode) :
  Forall (fun e => only_adds (Ext := Ext) (ser (snd e))) (kv node) ->
  only_adds (Ext := Ext) (serializeProperties toKey ser sourceID node).
Proof.
  intros Hn. unfold serializeProperties. destruct (s_size node); [adds|].
  destruct Hn as [|[key val] rest Hv Hrest]; adds.
Qed.

#[local] Hint Resolve serializeProperties_adds : adds_db.

Lemma serializeObject_adds i p o :
  Forall (fun e => only_adds (Ext := Ext) (ser (snd e))) (kv p) ->
  only_adds (Ext := Ext) (serializeObject ser i p o).
Proof. intros Hp. unfold serializeObject. adds. Qed.

Lemma serializeWithObjectAssign_adds value id serialized :
  Forall (fun e => only_adds (Ext := Ext) (ser (snd e))) (kv value) ->
  only_adds (Ext := Ext) (serializeWithObjectAssign ser value id serialized).
Proof. intros Hp. unfold serializeWithObjectAssign. adds. Qed.

Lemma withAssignments_adds {A : Type} main (body : SerM Ext A) :
  only_adds (Ext := Ext) body -> only_adds (Ext := Ext) (withAssignments main body).
Proof. apply only_adds_withAssignments. Qed.

#[local] Hint Resolve serializeWithObjectAssign_adds withAssignments_adds : adds_db.

Lemma serializeAssignment_adds sourceID main key value :
  only_adds (Ext := Ext) (ser value) ->
  only_adds (Ext := Ext) (serializeAssignment ser sourceID main key value).
Proof.
  intros Hv. unfold serializeAssignment. destruct key as [key|]; [|adds].
  cbv zeta.
  destruct (geZero (ToNumber key) || notSelfEqual (ToNumber key) || isValidIdentifier key);
    adds.
Qed.

#[local] Hint Resolve serializeAssignment_adds : adds_db.

Lemma serializeAssignmentsLoop_adds sourceID entries :
  Forall (fun e => only_adds (Ext := Ext) (ser (snd e))) entries ->
  forall n main, only_adds (Ext := Ext) (serializeAssignmentsLoop ser sourceID n entries main).
Proof.
  induction 1 as [|[key val] rest Hv _ IH]; intros n main;
    destruct n; simpl; adds.
Qed.

#[local] Hint Resolve serializeAssignmentsLoop_adds : adds_db.

Lemma serializeAssignments_adds sourceID node :
  Forall (fun e => only_adds (Ext := Ext) (ser (snd e))) (kv node) ->
  only_adds (Ext := Ext) (serializeAssignments ser sourceID node).
Proof.
  intros Hn. unfold serializeAssignments. destruct (s_size node) eqn:E; adds.
Qed.

#[local] Hint Resolve serializeAssignments_adds : adds_db.

Lemma serializeDictionary_adds i p init :
  (forall r, p = Some r -> Forall (fun e => only_adds (Ext := Ext) (ser (snd e))) (kv r)) ->
  only_adds (Ext := Ext) (serializeDictionary ser i p init).
Proof.
  intros Hp. unfold serializeDictionary. destruct p as [r|]; [|adds].
  specialize (Hp r eq_refl). adds.
Qed.

Lemma serializeNullConstructor_adds i p o :
  Forall (fun e => only_adds (Ext := Ext) (ser (snd e))) (kv p) ->
  only_adds (Ext := Ext) (serializeNullConstructor ser i p o).
Proof.
  intros Hp. unfold serializeNullConstructor. adds.
  apply serializeDictionary_adds. intros r E. injection E as <-. exact Hp.
Qed.

Lemma serializeSetItem_adds id item :
  only_adds (Ext := Ext) (ser item) -> only_adds (Ext := Ext) (serializeSetItem ser id item).
Proof. intros Hi. unfold serializeSetItem. adds. Qed.

#[local] Hint Resolve serializeSetItem_adds : adds_db.

Lemma serializeSetLoop_adds id items :
  Forall (fun x => only_adds (Ext := Ext) (ser x)) items ->
  forall n result item, only_adds (Ext := Ext) (serializeSetLoop ser id n items result item).
Proof.
  induction 1 as [|x rest Hx _ IH]; intros n result item;
    destruct n; simpl; adds.
Qed.

#[local] Hint Resolve serializeSetLoop_adds : adds_db.

Lemma serializeSet_adds i l a :
  Forall (fun x => only_adds (Ext := Ext) (ser x)) a ->
  only_adds (Ext := Ext) (serializeSet ser i l a).
Proof.
  intros Ha. unfold serializeSet. destruct l; [adds|].
  destruct Ha as [|x rest Hx Hrest]; adds.
Qed.

Lemma serializeMapEntry_adds id key val :
  only_adds (Ext := Ext) (ser key) -> only_adds (Ext := Ext) (ser val) ->
  only_adds (Ext := Ext) (serializeMapEntry ser id key val).
Proof. intros Hk Hv. unfold serializeMapEntry. adds. Qed.

#[local] Hint Resolve serializeMapEntry_adds : adds_db.

Lemma serializeMapLoop_adds id entries :
  Forall (fun e => only_adds (Ext := Ext) (ser (fst e)) /\ only_adds (Ext := Ext) (ser (snd e))) entries ->
  forall n result item, only_adds (Ext := Ext) (serializeMapLoop ser id n entries result item).
Proof.
  induction 1 as [|[key val] rest [Hk Hv] _ IH]; intros n result item;
    destruct n; simpl; adds.
Qed.

#[local] Hint Resolve serializeMapLoop_adds : adds_db.

Lemma serializeMap_adds i e :
  Forall (fun x => only_adds (Ext := Ext) (ser (fst x)) /\ only_adds (Ext := Ext) (ser (snd x))) (kv e) ->
  only_adds (Ext := Ext) (serializeMap ser i e).
Proof.
  intros He. unfold serializeMap. destruct (s_size e); [adds|].
  destruct He as [|[key val] rest [Hk Hv] Hrest]; adds.
Qed.

#[local] Hint Resolve serializeArray_adds serializeObject_adds serializeDictionary_adds
  serializeNullConstructor_adds serializeSet_adds serializeMap_adds : adds_db.

Lemma serializeArrayBuffer_adds i s : only_adds (Ext := Ext) (serializeArrayBuffer i s).
Proof. unfold serializeArrayBuffer. adds. Qed.

Lemma serializeTypedArray_adds i l c f b :
  only_adds (Ext := Ext) (ser f) -> only_adds (Ext := Ext) (serializeTypedArray ser i l c f b).
Proof. intros Hf. unfold serializeTypedArray. adds. Qed.

Lemma serializeDataView_adds i l f b :
  only_adds (Ext := Ext) (ser f) -> only_adds (Ext := Ext) (serializeDataView ser i l f b).
Proof. intros Hf. unfold serializeDataView. adds. Qed.

Lemma serializeAggregateError_adds i m p :
  (forall r, p = Some r -> Forall (fun e => only_adds (Ext := Ext) (ser (snd e))) (kv r)) ->
  only_adds (Ext := Ext) (serializeAggregateError ser i m p).
Proof. intros Hp. unfold serializeAggregateError. adds. Qed.

Lemma serializeError_adds i s m p :
  (forall r, p = Some r -> Forall (fun e => only_adds (Ext := Ext) (ser (snd e))) (kv r)) ->
  only_adds (Ext := Ext) (serializeError ser i s m p).
Proof. intros Hp. unfold serializeError. apply serializeDictionary_adds. exact Hp. Qed.

Lemma serializePromise_adds i s f :
  only_adds (Ext := Ext) (ser f) -> only_adds (Ext := Ext) (serializePromise ser i s f).
Proof. intros Hf. unfold serializePromise. adds. Qed.

Lemma serializeWKSymbol_adds i s : only_adds (Ext := Ext) (serializeWKSymbol i s).
Proof. unfold serializeWKSymbol. adds. Qed.

Lemma serializeURL_adds i s : only_adds (Ext := Ext) (serializeURL i s).
Proof. unfold serializeURL. adds. Qed.

Lemma serializeURLSearchParams_adds i s : only_adds (Ext := Ext) (serializeURLSearchParams i s).
Proof. unfold serializeURLSearchParams. adds. Qed.

Lemma serializeBlob_adds i c f :
  only_adds (Ext := Ext) (ser f) -> only_adds (Ext := Ext) (serializeBlob ser i c f).
Proof. intros Hf. unfold serializeBlob. adds. Qed.

Lemma serializeFile_adds i c m f b :
  only_adds (Ext := Ext) (ser f) -> only_adds (Ext := Ext) (serializeFile ser i c m f b).
Proof. intros Hf. unfold serializeFile. adds. Qed.

Lemma serializeHeaders_adds i e :
  Forall (fun x => only_adds (Ext := Ext) (ser (snd x))) (kv e) ->
  only_adds (Ext := Ext) (serializeHeaders ser i e).
Proof. intros He. unfold serializeHeaders. adds. Qed.

Lemma serializeFormDataEntry_adds id key value :
  only_adds (Ext := Ext) (ser value) -> only_adds (Ext := Ext) (serializeFormDataEntry ser id key value).
Proof. intros Hv. unfold serializeFormDataEntry. adds. Qed.

#[local] Hint Resolve serializeFormDataEntry_adds : adds_db.

Lemma serializeFormDataLoop_adds id entries :
  Forall (fun x => only_adds (Ext := Ext) (ser (snd x))) entries ->
  forall n result, only_adds (Ext := Ext) (serializeFormDataLoop ser id n entries result).
Proof.
  induction 1 as [|[key val] rest Hv _ IH]; intros n result;
    destruct n; simpl; adds.
Qed.

#[local] Hint Resolve serializeFormDataLoop_adds : adds_db.

Lemma serializeFormDataEntries_adds i e size :
  Forall (fun x => only_adds (Ext := Ext) (ser (snd x))) (kv e) ->
  only_adds (Ext := Ext) (serializeFormDataEntries ser i e size).
Proof.
  intros He. unfold serializeFormDataEntries.
  destruct He as [|[key val] rest Hv Hrest]; adds.
Qed.

#[local] Hint Resolve serializeFormDataEntries_adds : adds_db.

Lemma serializeFormData_adds i e :
  Forall (fun x => only_adds (Ext := Ext) (ser (snd x))) (kv e) ->
  only_adds (Ext := Ext) (serializeFormData ser i e).
Proof.
  intros He. unfold serializeFormData. cbv zeta. destruct (s_size e); adds.
Qed.

Lemma serializeBoxed_adds i f :
  only_adds (Ext := Ext) (ser f) -> only_adds (Ext := Ext) (serializeBoxed ser i f).
Proof. intros Hf. unfold serializeBoxed. adds. Qed.

Lemma serializeRequest_adds i s f :
  only_adds (Ext := Ext) (ser f) -> only_adds (Ext := Ext) (serializeRequest ser i s f).
Proof. intros Hf. unfold serializeRequest. adds. Qed.

Lemma serializeResponse_adds i a0 a1 :
  only_adds (Ext := Ext) (ser a0) -> only_adds (Ext := Ext) (ser a1) ->
  only_adds (Ext := Ext) (serializeResponse ser i a0 a1).
Proof. intros H0 H1. unfold serializeResponse. adds. Qed.

Lemma serializeEvent_adds i s f :
  only_adds (Ext := Ext) (ser f) -> only_adds (Ext := Ext) (serializeEvent ser i s f).
Proof. intros Hf. unfold serializeEvent. adds. Qed.

Lemma serializeCustomEvent_adds i s f :
  only_adds (Ext := Ext) (ser f) -> only_adds (Ext := Ext) (serializeCustomEvent ser i s f).
Proof. intros Hf. unfold serializeCustomEvent. adds. Qed.

Lemma serializeDOMException_adds i s c : only_adds (Ext := Ext) (serializeDOMException i s c).
Proof. unfold serializeDOMException. adds. Qed.

Lemma serializePluginLoop_adds ps i c s :
  Forall (fun p => forall s i, only_adds (Ext := Ext) (plugin_serialize p s i)) ps ->
  only_adds (Ext := Ext) (serializePluginLoop ps i c s).
Proof.
  induction 1 as [|plugin rest Hp _ IH]; simpl; adds.
Qed.

Lemma serializePlugin_adds i c s : only_adds (Ext := Ext) (serializePlugin i c s).
Proof.
  unfold serializePlugin. pose proof plugins_add as Hp.
  destruct plugins as [ps|]; [|adds].
  apply serializePluginLoop_adds. apply Hp. reflexivity.
Qed.

End AddsMethods.


(** X10: [serialize] only adds.  When a call of [serialize] returns, the
    feature mask is what it was, every id that was marked is still marked,
    and the flags and the assignments that were registered are still there,
    in their order, followed by the ones the call registered.  The abstract
    methods of the subclass and the plugins are assumed to do the same. *)
Theorem serialize_only_adds (node : SerovalNode) (c : SerCtx Ext) (s : string)
    (c' : SerCtx Ext) :
  serialize node c = Ok (s, c') ->
  features c' = features c
  /\ marked c ⊆ marked c'
  /\ flags c `prefix_of` flags c'
  /\ assignments c `prefix_of` assignments c'.
Proof.
  revert c s c'.
  enough (Hk : only_adds (Ext := Ext) (serialize node)).
  { intros c s c' R. exact (Hk c s c' R). }
  induction node as
    [ k | n | t | t | i | i t | i l a IH o | i p IH o | i p IH o | i t | i t1 t2
    | i l a IH | i e IH | i bytes | i l t f IH b | i l t f IH b | i l f IH b
    | i m p IH | i tg t1 m p IH | i st f IH | i k | i t | i t | i t f IH
    | i t1 t2 f IH b | i e IH | i e IH | i f IH | i | i f IH | i f IH | i
    | i f IH | i f IH | i | i t f IH | i a0 IH0 a1 IH1 | i t f IH | i t f IH
    | i t1 t2 | i t d | t ]; simpl.
  - adds.
  - adds.
  - adds.
  - adds.
  - apply serializeIndexedValue_adds.
  - apply serializeReference_adds.
  - apply serializeArray_adds. apply list_option_all_Forall in IH. exact IH.
  - apply serializeObject_adds. apply record_all_Forall in IH. exact IH.
  - apply serializeNullConstructor_adds. apply record_all_Forall in IH. exact IH.
  - unfold serializeDate. adds.
  - unfold serializeRegExp. adds.
  - apply serializeSet_adds. apply list_all_Forall in IH. exact IH.
  - apply serializeMap_adds. apply map_record_all_Forall in IH. exact IH.
  - apply serializeArrayBuffer_adds.
  - apply serializeTypedArray_adds. exact IH.
  - apply serializeTypedArray_adds. exact IH.
  - apply serializeDataView_adds. exact IH.
  - apply serializeAggregateError_adds.
    intros r E. eapply option_record_all_Forall in IH; [exact IH|exact E].
  - apply serializeError_adds.
    intros r E. eapply option_record_all_Forall in IH; [exact IH|exact E].
  - apply serializePromise_adds. exact IH.
  - apply serializeWKSymbol_adds.
  - apply serializeURL_adds.
  - apply serializeURLSearchParams_adds.
  - apply serializeBlob_adds. exact IH.
  - apply serializeFile_adds. exact IH.
  - apply serializeHeaders_adds. apply record_all_Forall in IH. exact IH.
  - apply serializeFormData_adds. apply record_all_Forall in IH. exact IH.
  - apply serializeBoxed_adds. exact IH.
  - apply serializePromiseConstructor_adds.
  - apply serializePromiseResolve_adds. exact IH.
  - apply serializePromiseReject_adds. exact IH.
  - apply serializeReadableStreamConstructor_adds.
  - apply serializeReadableStreamEnqueue_adds. exact IH.
  - apply serializeReadableStreamError_adds. exact IH.
  - apply serializeReadableStreamClose_adds.
  - apply serializeRequest_adds. exact IH.
  - apply serializeResponse_adds; assumption.
  - apply serializeEvent_adds. exact IH.
  - apply serializeCustomEvent_adds. exact IH.
  - apply serializeDOMException_adds.
  - apply serializePlugin_adds.
  - adds.
Qed.


End OnlyAdds.

(** The self-contained serializer meets the assumptions of X10. *)

Lemma vanillaGetRefParam_adds (id : nat) : only_adds (Ext := unit) (vanillaGetRefParam id).
Proof. unfold vanillaGetRefParam. adds. Qed.

Lemma vanillaAssignIndexedValue_adds (id : nat) (v : string) :
  only_adds (Ext := unit) (vanillaAssignIndexedValue id v).
Proof.
  unfold vanillaAssignIndexedValue. pose proof vanillaGetRefParam_adds. adds.
Qed.

Lemma unsupportedNode_adds {A : Type} : only_adds (unsupportedNode (A := A)).
Proof. unfold unsupportedNode. adds. Qed.

Lemma vanilla_plugins_add (ps : list (Plugin unit)) :
  plugins = Some ps ->
  Forall (fun p => forall s i, only_adds (plugin_serialize p s i)) ps.
Proof. discriminate. Qed.

(** X10 at work: the node with a cyclic Map is serialized in a context that
    holds an assignment already; the assignment is still the first one. *)
Lemma serialize_only_adds_witness :
  exists s c',
    serialize nodeKeyDeferred
      (set_assignments [mkAssignment AIndex "a[0]" None "a"]
         (vanillaCtx Feature.ALL ({[ 2 ]} ∪ ({[ 1 ]} ∪ ∅)))) = Ok (s, c')
    /\ assignments c'
       = [mkAssignment AIndex "a[0]" None "a"; mkAssignment ASet "b" (Some "c={}") "b"]
    /\ [mkAssignment AIndex "a[0]" None "a"] `prefix_of` assignments c'.
Proof.
  eexists _, _. split; [vm_compute; reflexivity|]. split; [reflexivity|].
  eapply (@serialize_only_adds unit vanillaHost
           vanillaGetRefParam_adds vanillaAssignIndexedValue_adds
           (fun _ => unsupportedNode_adds) (fun _ _ _ => unsupportedNode_adds)
           (fun _ _ _ => unsupportedNode_adds) (fun _ => unsupportedNode_adds)
           (fun _ _ _ => unsupportedNode_adds) (fun _ _ _ => unsupportedNode_adds)
           (fun _ => unsupportedNode_adds) vanilla_plugins_add
           nodeKeyDeferred
           (set_assignments [mkAssignment AIndex "a[0]" None "a"]
              (vanillaCtx Feature.ALL ({[ 2 ]} ∪ ({[ 1 ]} ∪ ∅))))
           "[b=new Map,c]").
  vm_compute. reflexivity.
Defined.

(** ** The literals of Set and Map *)

(** The text the loops of [serializeSet] and [serializeMap] build from the
    item texts [its], with [result] so far and [item] the last text. *)
Fixpoint joinFrom (result item : string) (its : list string) : string :=
  match its with
  | [] => result
  | it :: rest => joinFrom (result +:+ andComma item +:+ it) it rest
  end.

(** The argument list that lists the texts that are not empty, with a comma
    behind the last one when an empty text follows it. *)
Definition shownItems (texts : list string) : string :=
  match List.filter truthy texts with
  | [] => ""
  | shown => String.concat "," shown +:+ (if truthy (List.last texts "") then "" else ",")
  end.

(** [new Set] or [new Map] with the item texts that are not empty. *)
Definition collectionLiteral (constructor : string) (texts : list string) : string :=
  if truthy (shownItems texts)
  then constructor +:+ "([" +:+ shownItems texts +:+ "])"
  else constructor.

Fixpoint tailText (item : string) (its : list string) : string :=
  match its with
  | [] => ""
  | it :: rest => andComma item +:+ it +:+ tailText it rest
  end.

Lemma joinFrom_tailText (result item : string) (its : list string) :
  joinFrom result item its = result +:+ tailText item its.
Proof.
  revert result item. induction its as [|it rest IH]; intros result item; simpl.
  - rewrite append_empty_r. reflexivity.
  - rewrite IH, !append_assoc. reflexivity.
Qed.

Lemma filter_truthy_nil_last (l : list string) :
  List.filter truthy l = [] -> truthy (List.last l "") = false.
Proof.
  induction l as [|x xs IH]; [reflexivity|]. simpl.
  destruct (truthy x) eqn:E; [discriminate|]. intros Hf.
  destruct xs as [|y ys]; [exact E|]. apply IH. exact Hf.
Qed.

Lemma shownItems_cons (t : string) (its : list string) :
  shownItems (t :: its) = t +:+ tailText t its.
Proof.
  revert t. induction its as [|t2 rest IH]; intros t.
  - unfold shownItems. simpl. destruct t as [|ch t]; [reflexivity|].
    simpl. rewrite !append_empty_r. reflexivity.
  - simpl tailText. rewrite <- IH. clear IH.
    unfold shownItems.
    change (List.last (t :: t2 :: rest) "") with (List.last (t2 :: rest) "").
    destruct t as [|ch t].
    + reflexivity.
    + change (List.filter truthy (String ch t :: t2 :: rest))
        with (String ch t :: List.filter truthy (t2 :: rest)).
      change (andComma (String ch t)) with ",".
      destruct (List.filter truthy (t2 :: rest)) as [|s ss] eqn:E.
      * rewrite (filter_truthy_nil_last _ E). reflexivity.
      * rewrite concat_cons_cons, !append_assoc. reflexivity.
Qed.

Lemma joinFrom_shown (first : string) (its : list string) :
  joinFrom first first its = shownItems (first :: its).
Proof. rewrite joinFrom_tailText, shownItems_cons. reflexivity. Qed.

Section CollectionLiterals.
Context {Ext : Type} `{Host Ext}.
Variable ser : SerovalNode -> SerM Ext string.

(** [t] is the text [serializeSetItem] returned for [x], in some state. *)
Definition set_item_text (id : nat) (x : SerovalNode) (t : string) : Prop :=
  exists c c', serializeSetItem ser id x c = Ok (t, c').

Definition map_entry_text (id : nat) (e : SerovalNode * SerovalNode) (t : string) : Prop :=
  exists c c', serializeMapEntry ser id (fst e) (snd e) c = Ok (t, c').

Lemma serializeSetLoop_texts (id : nat) (items : list SerovalNode) :
  forall n result item c out c',
    serializeSetLoop ser id n items result item c = Ok (out, c') ->
    exists its,
      length its = n
      /\ Forall2 (set_item_text id) (firstn n items) its
      /\ out = joinFrom result item its.
Proof.
  induction items as [|x rest IH]; intros n result item c out c' R.
  - destruct n as [|n]; simpl in R; [|discriminate R].
    injection R as <- _. exists []. repeat split. constructor.
  - destruct n as [|n]; simpl in R.
    + injection R as <- _. exists []. repeat split. constructor.
    + apply bind_Ok in R as (it & c1 & R1 & R2).
      apply IH in R2 as (its & Hlen & Hall & Hout).
      exists (it :: its). split; [simpl; lia|]. split; [|exact Hout].
      simpl. constructor; [exists c, c1; exact R1|exact Hall].
Qed.

Lemma serializeMapLoop_texts (id : nat) (entries : list (SerovalNode * SerovalNode)) :
  forall n result item c out c',
    serializeMapLoop ser id n entries result item c = Ok (out, c') ->
    exists its,
      length its = n
      /\ Forall2 (map_entry_text id) (firstn n entries) its
      /\ out = joinFrom result item its.
Proof.
  induction entries as [|[k v] rest IH]; intros n result item c out c' R.
  - destruct n as [|n]; simpl in R; [|discriminate R].
    injection R as <- _. exists []. repeat split. constructor.
  - destruct n as [|n]; simpl in R.
    + injection R as <- _. exists []. repeat split. constructor.
    + apply bind_Ok in R as (it & c1 & R1 & R2).
      apply IH in R2 as (its & Hlen & Hall & Hout).
      exists (it :: its). split; [simpl; lia|]. split; [|exact Hout].
      simpl. constructor; [exists c, c1; exact R1|exact Hall].
Qed.

(** X11: the literal of a Set or a Map lists what is not patched.  The loops
    of [serializeSet] and [serializeMap] run over [l] items in order; an item
    that became a post-construction assignment has the empty text, and the
    literal lists exactly the texts that are not empty, in order, separated by
    single commas (with one comma behind the last if an empty text follows
    it): no empty slot is emitted.  When no text is left the constructor is
    emitted without arguments. *)
Theorem collection_literal_lists_items (i : nat) (c : SerCtx Ext) (out : string)
    (c' : SerCtx Ext) :
  (forall l a,
     serializeSet ser i l a c = Ok (out, c') ->
     exists texts c1,
       length texts = l
       /\ Forall2 (set_item_text i) (firstn l a) texts
       /\ assignIndexedValue i (collectionLiteral "new Set" texts) c1 = Ok (out, c'))
  /\ (forall e,
     serializeMap ser i e c = Ok (out, c') ->
     exists texts c1,
       length texts = s_size e
       /\ Forall2 (map_entry_text i) (firstn (s_size e) (kv e)) texts
       /\ assignIndexedValue i (collectionLiteral "new Map" texts) c1 = Ok (out, c')).
Proof.
  split.
  - intros l a R. unfold serializeSet in R. destruct l as [|size'].
    + exists [], c. split; [reflexivity|]. split; [constructor|exact R].
    + cbv zeta in R.
      apply bind_Ok in R as (u & c1 & _ & R).
      apply bind_Ok in R as (result & c2 & Rr & R).
      apply bind_Ok in R as (u2 & c3 & _ & R).
      destruct a as [|x rest]; [discriminate Rr|].
      apply bind_Ok in Rr as (first & c1' & R1 & R2).
      apply serializeSetLoop_texts in R2 as (its & Hlen & Hall & Hout).
      exists (first :: its), c3. split; [simpl; lia|]. split.
      * simpl. constructor; [exists c1, c1'; exact R1|exact Hall].
      * unfold collectionLiteral. rewrite <- joinFrom_shown, <- Hout. exact R.
  - intros e R. unfold serializeMap in R. destruct (s_size e) as [|size'].
    + exists [], c. split; [reflexivity|]. split; [constructor|exact R].
    + cbv zeta in R.
      apply bind_Ok in R as (u & c1 & _ & R).
      apply bind_Ok in R as (result & c2 & Rr & R).
      apply bind_Ok in R as (u2 & c3 & _ & R).
      destruct (kv e) as [|[k v] rest]; [discriminate Rr|].
      apply bind_Ok in Rr as (first & c1' & R1 & R2).
      apply serializeMapLoop_texts in R2 as (its & Hlen & Hall & Hout).
      exists (first :: its), c3. split; [simpl; lia|]. split.
      * simpl. constructor; [exists c1, c1'; exact R1|exact Hall].
      * unfold collectionLiteral. rewrite <- joinFrom_shown, <- Hout. exact R.
Qed.

End CollectionLiterals.

(** X11 at work, on [const s = new Set(); s.add(1); s.add(s); s.add(2)]: the
    element that is the Set itself leaves no slot. *)
Lemma collection_literal_lists_items_witness :
  exists c',
    serializeSet serialize 0 3
      [NumberNode (Finite 1); IndexedValueNode 0; NumberNode (Finite 2)]
      (vanillaCtx Feature.ALL {[ 0 ]}) = Ok ("a=new Set([1,2])", c')
    /\ exists texts c1,
         length texts = 3
         /\ Forall2 (set_item_text serialize 0)
              (firstn 3 [NumberNode (Finite 1); IndexedValueNode 0; NumberNode (Finite 2)])
              texts
         /\ assignIndexedValue 0 (collectionLiteral "new Set" texts) c1
            = Ok ("a=new Set([1,2])", c').
Proof.
  eexists. split; [vm_compute; reflexivity|].
  eapply (proj1 (@collection_literal_lists_items unit vanillaHost serialize 0
                   (vanillaCtx Feature.ALL {[ 0 ]}) "a=new Set([1,2])" _)).
  vm_compute. reflexivity.
Defined.

(** ** The nodes of a parse are in order *)

(** Every id the node mentions, as its own or as a reference, is below [n],
    and the stored lengths are the lengths of the lists. *)
Fixpoint nodeOk (n : nat) (node : SerovalNode) {struct node} : bool :=
  match node with
  | ConstantNode _ | NumberNode _ | StringNode _ | BigIntNode _ | UnknownNode _ => true
  | IndexedValueNode i | ReferenceNode i _ | DateNode i _ | RegExpNode i _ _
  | ArrayBufferNode i _ | WKSymbolNode i _ | URLNode i _ | URLSearchParamsNode i _
  | PromiseConstructorNode i | ReadableStreamConstructorNode i
  | ReadableStreamCloseNode i | DOMExceptionNode i _ _ | PluginNode i _ _ =>
      Nat.ltb i n
  | ArrayNode i l a _ =>
      Nat.ltb i n && Nat.eqb l (length a)
      && forallb (fun x => match x with Some m => nodeOk n m | None => true end) a
  | ObjectNode i p _ | NullConstructorNode i p _ =>
      Nat.ltb i n && Nat.eqb (s_size p) (length (kv p))
      && forallb (fun e => nodeOk n (snd e)) (kv p)
  | SetNode i l a => Nat.ltb i n && Nat.eqb l (length a) && forallb (nodeOk n) a
  | MapNode i e =>
      Nat.ltb i n && Nat.eqb (s_size e) (length (kv e))
      && forallb (fun x => nodeOk n (fst x) && nodeOk n (snd x)) (kv e)
  | AggregateErrorNode i _ p | ErrorNode i _ _ _ p =>
      Nat.ltb i n
      && match p with
         | Some r => Nat.eqb (s_size r) (length (kv r))
                     && forallb (fun e => nodeOk n (snd e)) (kv r)
         | None => true
         end
  | HeadersNode i e | FormDataNode i e =>
      Nat.ltb i n && Nat.eqb (s_size e) (length (kv e))
      && forallb (fun x => nodeOk n (snd x)) (kv e)
  | BigIntTypedArrayNode i _ _ f _ | TypedArrayNode i _ _ f _ | DataViewNode i _ f _
  | PromiseNode i _ f | BlobNode i _ f | FileNode i _ _ f _ | BoxedNode i f
  | PromiseResolveNode i f | PromiseRejectNode i f | ReadableStreamEnqueueNode i f
  | ReadableStreamErrorNode i f | RequestNode i _ f | EventNode i _ f
  | CustomEventNode i _ f =>
      Nat.ltb i n && nodeOk n f
  | ResponseNode i a0 a1 => Nat.ltb i n && nodeOk n a0 && nodeOk n a1
  end.

Definition optOk (n : nat) (x : option SerovalNode) : bool :=
  match x with Some m => nodeOk n m | None => true end.

(** When [m] returns from a state whose ids are in order, the ids are still in
    order, none is lost, and [Q] holds of the result for every bound [n] that
    covers the ids assigned by then. *)
Definition tracks {A : Type} (Q : nat -> A -> Prop) (m : ParseM A) : Prop :=
  forall st x st', refs_ok st -> m st = Ok (x, st') ->
    refs_ok st' /\ size (p_refs st) <= size (p_refs st')
    /\ forall n, size (p_refs st') <= n -> Q n x.

Definition okNode : nat -> SerovalNode -> Prop := fun n y => nodeOk n y = true.
Definition okFor (id : nat) : nat -> SerovalNode -> Prop :=
  fun n y => id < n -> nodeOk n y = true.

Lemma tracks_ret {A : Type} (Q : nat -> A -> Prop) (a : A) :
  (forall n, Q n a) -> tracks Q (ret a).
Proof.
  intros HQ st x st' Hok R. injection R as <- <-.
  split; [exact Hok|]. split; [lia|]. intros n _. apply HQ.
Qed.

Lemma tracks_throw {A : Type} (Q : nat -> A -> Prop) (e : SerovalError) :
  tracks Q (throw e).
Proof. intros st x st' _ R. discriminate R. Qed.

Lemma tracks_weaken {A : Type} (Q' Q : nat -> A -> Prop) (m : ParseM A) :
  tracks Q' m -> (forall n x, Q' n x -> Q n x) -> tracks Q m.
Proof.
  intros Hm HQ st x st' Hok R. destruct (Hm _ _ _ Hok R) as (Hok' & Hle & Hq).
  split; [exact Hok'|]. split; [exact Hle|]. intros n Hn. apply HQ, Hq, Hn.
Qed.

Lemma tracks_bind {A B : Type} (Q1 : nat -> A -> Prop) (Q : nat -> B -> Prop)
    (m : ParseM A) (k : A -> ParseM B) :
  tracks Q1 m -> (forall x, tracks (fun n y => Q1 n x -> Q n y) (k x)) ->
  tracks Q (bind m k).
Proof.
  intros Hm Hk st y st' Hok R. apply bind_Ok in R as (x & st1 & R1 & R2).
  destruct (Hm _ _ _ Hok R1) as (Hok1 & Hle1 & Hq1).
  destruct (Hk x _ _ _ Hok1 R2) as (Hok2 & Hle2 & Hq2).
  split; [exact Hok2|]. split; [lia|].
  intros n Hn. apply Hq2; [exact Hn|]. apply Hq1. lia.
Qed.

Lemma tracks_preserves {A : Type} (m : ParseM A) :
  preserves m -> tracks (fun _ _ => True) m.
Proof.
  intros Hm st x st' Hok R. destruct (Hm _ _ _ R) as (_ & Hsub & Hw).
  split; [apply Hw, Hok|]. split; [apply map_subseteq_size, Hsub|]. intros; exact I.
Qed.

Lemma tracks_bind_skip {A B : Type} (Q : nat -> B -> Prop)
    (m : ParseM A) (k : A -> ParseM B) :
  preserves m -> (forall x, tracks Q (k x)) -> tracks Q (bind m k).
Proof.
  intros Hm Hk. eapply tracks_bind; [apply tracks_preserves, Hm|].
  intros x. eapply tracks_weaken; [apply Hk|]. intros n y Hq _. exact Hq.
Qed.

Section IdBounds.
Context `{ParserHost}.

Lemma tracks_createIndexedValue (a : Addr) :
  tracks (fun n id => id < n) (createIndexedValue a).
Proof.
  intros st x st' Hok R.
  destruct (preserves_createIndexedValue a _ _ _ R) as (_ & Hsub & Hw).
  split; [apply Hw, Hok|]. split; [apply map_subseteq_size, Hsub|].
  intros n Hn. unfold createIndexedValue in R.
  destruct (p_refs st !! a) as [r|] eqn:E; injection R as <- <-.
  - destruct Hok as (Hlt & _). apply Hlt in E. simpl in Hn. lia.
  - simpl in Hn. rewrite map_size_insert_None in Hn by exact E. lia.
Qed.

Lemma tracks_createCrossIndexedValue (a : Addr) :
  tracks (fun n id => id < n) (createCrossIndexedValue a).
Proof.
  intros st x st' Hok R.
  destruct (preserves_createCrossIndexedValue a _ _ _ R) as (_ & Hsub & Hw).
  split; [apply Hw, Hok|]. split; [apply map_subseteq_size, Hsub|].
  intros n Hn. unfold createCrossIndexedValue in R.
  destruct (p_refs st !! a) as [r|] eqn:E; injection R as <- <-.
  - destruct Hok as (Hlt & _). apply Hlt in E. lia.
  - simpl in Hn. rewrite map_size_insert_None in Hn by exact E. lia.
Qed.

End IdBounds.

Create HintDb track_db.

#[export] Hint Resolve tracks_createIndexedValue tracks_createCrossIndexedValue : track_db.

Lemma Forall_forallb {A : Type} (f : A -> bool) (l : list A) :
  Forall (fun x => f x = true) l -> forallb f l = true.
Proof. intros Hf. apply forallb_forall. intros x Hx. rewrite Forall_forall in Hf. apply Hf. apply list_elem_of_In. exact Hx. Qed.

Lemma nodeOk_createNumberNode (n : nat) (value : JSNumber) :
  nodeOk n (createNumberNode value) = true.
Proof.
  unfold createNumberNode.
  destruct value; try reflexivity;
    destruct (notSelfEqual _); try reflexivity; destruct (isNegZero _); reflexivity.
Qed.

(** The end of a parser body: the node is in order given what is known of its
    parts. *)
Ltac ok_leaf :=
  unfold okFor, okNode in *; cbv beta in *; intros;
  repeat match goal with
         | H : _ /\ _ |- _ => destruct H
         | |- context [if ?b then _ else _] => destruct b
         end;
  cbn [nodeOk kv s_size TRUE_NODE FALSE_NODE NULL_NODE UNDEFINED_NODE createStringNode
       createIndexedValueNode createReferenceNode];
  rewrite ?nodeOk_createNumberNode, ?andb_true_iff, ?Nat.ltb_lt, ?Nat.eqb_eq;
  repeat split; auto; try lia; try congruence.

(** One step through a parser body. *)
Ltac track_step :=
  match goal with
  | |- tracks _ _ => progress (cbv beta iota zeta)
  | |- tracks _ (ret _) => apply tracks_ret; solve [ok_leaf]
  | |- tracks _ (throw _) => apply tracks_throw
  | |- tracks _ (bind ?m _) =>
      first [ eapply tracks_bind; [solve [eauto 3 with track_db]|intros ?]
            | match m with
              | (if ?b then _ else _) => destruct b
              | (match ?x with _ => _ end) => destruct x
              end
            | eapply tracks_bind_skip; [solve [pres]|intros ?] ]
  | |- tracks _ (if ?b then _ else _) => destruct b
  | |- tracks _ (match ?x with _ => _ end) => destruct x
  | |- tracks _ _ =>
      eapply tracks_weaken; [solve [eauto 3 with track_db]|solve [ok_leaf]]
  end.

Ltac track := repeat track_step.

Section ParserTracks.
Context `{ParserHost}.

(** What the imported node constructors are assumed to do: return nodes that
    are in order, on the id they are given. *)
Hypothesis createSymbolNode_tracks : forall d, tracks okNode (createSymbolNode d).
Hypothesis createFunctionNode_tracks : forall a, tracks okNode (createFunctionNode a).
Hypothesis createBlobNode_tracks : forall id o, tracks (okFor id) (createBlobNode id o).
Hypothesis createFileNode_tracks : forall id o, tracks (okFor id) (createFileNode id o).
Hypothesis createURLNode_tracks : forall id o, tracks (okFor id) (createURLNode id o).
Hypothesis createURLSearchParamsNode_tracks :
  forall id o, tracks (okFor id) (createURLSearchParamsNode id o).
Hypothesis createDOMExceptionNode_tracks :
  forall id o, tracks (okFor id) (createDOMExceptionNode id o).

#[local] Hint Resolve createSymbolNode_tracks createFunctionNode_tracks
  createBlobNode_tracks createFileNode_tracks createURLNode_tracks
  createURLSearchParamsNode_tracks createDOMExceptionNode_tracks : track_db.

Lemma tracks_createBigIntNode z : tracks okNode (createBigIntNode z).
Proof. unfold createBigIntNode. track. Qed.

Lemma tracks_createDateNode id o : tracks (okFor id) (createDateNode id o).
Proof. unfold createDateNode. track. Qed.

Lemma tracks_createRegExpNode id o : tracks (okFor id) (createRegExpNode id o).
Proof. unfold createRegExpNode. track. Qed.

Lemma tracks_createArrayBufferNode id o : tracks (okFor id) (createArrayBufferNode id o).
Proof. unfold createArrayBufferNode. track. Qed.

#[local] Hint Resolve tracks_createBigIntNode tracks_createDateNode
  tracks_createRegExpNode tracks_createArrayBufferNode : track_db.

Lemma tracks_serializeArrayBufferRef a : tracks okNode (serializeArrayBufferRef a).
Proof. unfold serializeArrayBufferRef, createIndexedValueNode. track. Qed.

Lemma tracks_createTypedArrayNode sab id c o :
  (forall a, tracks okNode (sab a)) -> tracks (okFor id) (createTypedArrayNode sab id c o).
Proof. intros Hs. unfold createTypedArrayNode. track. Qed.

Lemma tracks_createBigIntTypedArrayNode sab id c o :
  (forall a, tracks okNode (sab a)) ->
  tracks (okFor id) (createBigIntTypedArrayNode sab id c o).
Proof. intros Hs. unfold createBigIntTypedArrayNode. track. Qed.

Lemma tracks_createDataViewNode sab id o :
  (forall a, tracks okNode (sab a)) -> tracks (okFor id) (createDataViewNode sab id o).
Proof. intros Hs. unfold createDataViewNode. track. Qed.


#[local] Hint Resolve tracks_createTypedArrayNode tracks_createBigIntTypedArrayNode
  tracks_createDataViewNode tracks_serializeArrayBufferRef : track_db.
#[local] Hint Resolve preserves_mapEntryArrays preserves_arrayFrom preserves_errorMessage
  preserves_headerItems preserves_formDataItems : parse_db.

Section WithParse.
Variable parse : Value -> ParseM SerovalNode.
Hypothesis parse_tracks : forall v, tracks okNode (parse v).

#[local] Hint Resolve parse_tracks : track_db.

Definition pendingOk (n : nat) (p : PendingNode) : Prop :=
  match p with PNode m => nodeOk n m = true | _ => True end.

Lemma tracks_generateNodeListFirst current :
  tracks (fun n pending => length pending = length current /\ Forall (pendingOk n) pending)
    (generateNodeListFirst parse current).
Proof.
  induction current as [|[item|] rest IH]; simpl.
  - apply tracks_ret. intros n. split; [reflexivity|constructor].
  - eapply tracks_bind_skip; [pres|intros it].
    eapply tracks_bind with (Q1 := fun n p => pendingOk n p).
    + destruct it.
      * apply tracks_ret. intros n. exact I.
      * eapply tracks_bind; [apply parse_tracks|intros m].
        apply tracks_ret. intros n Hm. exact Hm.
    + intros p. eapply tracks_bind; [exact IH|intros r].
      apply tracks_ret. intros n [Hl Hr] Hp. simpl. split; [congruence|].
      constructor; assumption.
  - eapply tracks_bind; [exact IH|intros r].
    apply tracks_ret. intros n [Hl Hr]. simpl. split; [congruence|].
    constructor; [exact I|assumption].
Qed.

Lemma tracks_generateNodeListSecond pending :
  tracks (fun n a => Forall (pendingOk n) pending ->
                     length a = length pending /\ forallb (optOk n) a = true)
    (generateNodeListSecond parse pending).
Proof.
  induction pending as [|[|m|item] rest IH]; simpl.
  - apply tracks_ret. intros n _. split; reflexivity.
  - eapply tracks_bind; [exact IH|intros r].
    apply tracks_ret. intros n Hr Hp. inversion Hp; subst.
    destruct Hr as [Hl Hf]; [assumption|]. simpl. split; [congruence|assumption].
  - eapply tracks_bind; [exact IH|intros r].
    apply tracks_ret. intros n Hr Hp. inversion Hp as [|? ? Hm Hrest]; subst.
    destruct Hr as [Hl Hf]; [assumption|]. simpl. split; [congruence|].
    simpl in Hm. rewrite Hm. exact Hf.
  - eapply tracks_bind; [apply parse_tracks|intros m].
    eapply tracks_bind; [exact IH|intros r].
    apply tracks_ret. intros n Hr Hm Hp. inversion Hp; subst.
    destruct Hr as [Hl Hf]; [assumption|]. simpl. split; [congruence|].
    unfold okNode in Hm. rewrite Hm. exact Hf.
Qed.

Lemma tracks_generateNodeList current :
  tracks (fun n a => length a = length current /\ forallb (optOk n) a = true)
    (generateNodeList parse current).
Proof.
  unfold generateNodeList.
  eapply tracks_bind; [apply tracks_generateNodeListFirst|intros pending].
  eapply tracks_weaken; [apply tracks_generateNodeListSecond|].
  intros n a Ha [Hl Hp]. destruct (Ha Hp) as [Hl' Hf]. split; [congruence|exact Hf].
Qed.

#[local] Hint Resolve tracks_generateNodeList : track_db.

Lemma tracks_generateArrayNode withFlag id o :
  tracks (okFor id) (generateArrayNode parse withFlag id o).
Proof. unfold generateArrayNode. track. Qed.

Section Defer.
Context {X Y : Type} (test : ParseState -> X -> bool) (one : X -> ParseM Y).
Variable Qy : nat -> Y -> Prop.
Hypothesis one_tracks : forall x, tracks Qy (one x).

Lemma tracks_deferFirst xs :
  tracks (fun n r => length (fst r) + length (snd r) = length xs /\ Forall (Qy n) (fst r))
    (deferFirst test one xs).
Proof.
  induction xs as [|x rest IH]; simpl.
  - apply tracks_ret. intros n. split; [reflexivity|constructor].
  - eapply tracks_bind_skip; [pres|intros d]. destruct d.
    + eapply tracks_bind; [exact IH|intros r].
      apply tracks_ret. intros n [Hl Hf]. simpl. split; [lia|exact Hf].
    + eapply tracks_bind; [apply one_tracks|intros y].
      eapply tracks_bind; [exact IH|intros r].
      apply tracks_ret. intros n [Hl Hf] Hy. simpl. split; [lia|].
      constructor; assumption.
Qed.

Lemma tracks_deferSecond xs :
  tracks (fun n ys => length ys = length xs /\ Forall (Qy n) ys) (deferSecond one xs).
Proof.
  induction xs as [|x rest IH]; simpl.
  - apply tracks_ret. intros n. split; [reflexivity|constructor].
  - eapply tracks_bind; [apply one_tracks|intros y].
    eapply tracks_bind; [exact IH|intros r].
    apply tracks_ret. intros n [Hl Hf] Hy. simpl. split; [lia|].
    constructor; assumption.
Qed.

Lemma tracks_deferLoops xs :
  tracks (fun n ys => length ys = length xs /\ Forall (Qy n) ys) (deferLoops test one xs).
Proof.
  unfold deferLoops.
  eapply tracks_bind; [apply tracks_deferFirst|intros r].
  eapply tracks_bind; [apply tracks_deferSecond|intros d].
  apply tracks_ret. intros n [Hl2 Hf2] [Hl1 Hf1]. split.
  - rewrite length_app. lia.
  - apply Forall_app. split; assumption.
Qed.

End Defer.

Lemma tracks_parseMapEntry e :
  tracks (fun n y => nodeOk n (fst y) && nodeOk n (snd y) = true) (parseMapEntry parse e).
Proof. unfold parseMapEntry. track. Qed.

Lemma tracks_parseProperty p :
  tracks (fun n y => nodeOk n (snd y) = true) (parseProperty parse p).
Proof. unfold parseProperty. track. Qed.

Lemma tracks_parsePlainProperty p :
  tracks (fun n y => nodeOk n (snd y) = true) (parsePlainProperty parse p).
Proof. unfold parsePlainProperty. track. Qed.


#[local] Hint Resolve tracks_generateArrayNode tracks_parseMapEntry tracks_parseProperty
  tracks_parsePlainProperty : track_db.

Lemma tracks_generateMapNode id o : tracks (okFor id) (generateMapNode parse id o).
Proof.
  unfold generateMapNode. destruct (slots o); try apply tracks_throw. cbv zeta.
  eapply tracks_bind; [apply tracks_deferLoops, tracks_parseMapEntry|intros nodes].
  apply tracks_ret. intros n [Hl Hf] Hid. cbn [nodeOk kv s_size].
  rewrite !andb_true_iff, Nat.ltb_lt, Nat.eqb_eq. split; [split; [exact Hid|congruence]|].
  apply Forall_forallb. exact Hf.
Qed.

Lemma tracks_generateSetNode id o : tracks (okFor id) (generateSetNode parse id o).
Proof.
  unfold generateSetNode. destruct (slots o); try apply tracks_throw. cbv zeta.
  eapply tracks_bind; [apply tracks_deferLoops, parse_tracks|intros nodes].
  apply tracks_ret. intros n [Hl Hf] Hid. cbn [nodeOk].
  rewrite !andb_true_iff, Nat.ltb_lt, Nat.eqb_eq. split; [split; [exact Hid|congruence]|].
  apply Forall_forallb. exact Hf.
Qed.

(** A record in order: as many entries as its size says, each value in order. *)
Definition recordOk {K : Type} (n : nat) (r : RecordNode K SerovalNode) : Prop :=
  s_size r = length (kv r) /\ forallb (fun e => nodeOk n (snd e)) (kv r) = true.

Lemma tracks_generateProperties createId withFlag o :
  (forall a, tracks (fun n id => id < n) (createId a)) ->
  tracks recordOk (generateProperties parse createId withFlag o).
Proof.
  intros Hc. unfold generateProperties. cbv zeta.
  eapply tracks_bind; [apply tracks_deferLoops, tracks_parseProperty|intros nodes].
  eapply tracks_bind_skip; [pres|intros ft].
  destruct (hasFeature ft Feature.Symbol && hasSymbolIterator o).
  - eapply tracks_bind_skip; [pres|intros items].
    eapply tracks_bind_skip; [pres|intros a].
    eapply tracks_bind; [apply Hc|intros id].
    eapply tracks_bind; [apply tracks_generateArrayNode|intros arr].
    apply tracks_ret. intros n Harr Hid [Hl Hf]. split; simpl.
    + rewrite length_app. simpl. lia.
    + rewrite forallb_app. rewrite (Forall_forallb _ _ Hf). simpl.
      rewrite (Harr Hid). reflexivity.
  - apply tracks_ret. intros n [Hl Hf]. split; simpl; [symmetry; exact Hl|].
    apply Forall_forallb. exact Hf.
Qed.

Lemma tracks_generatePlainProperties properties :
  tracks recordOk (generatePlainProperties parse properties).
Proof.
  unfold generatePlainProperties. cbv zeta.
  eapply tracks_bind; [apply tracks_deferLoops, tracks_parsePlainProperty|intros nodes].
  apply tracks_ret. intros n [Hl Hf]. split; simpl; [symmetry; exact Hl|].
  apply Forall_forallb. exact Hf.
Qed.

#[local] Hint Resolve tracks_generateMapNode tracks_generateSetNode
  tracks_generateProperties tracks_generatePlainProperties : track_db.

Ltac ok_record :=
  unfold okFor, okNode, recordOk in *; cbv beta in *; intros;
  repeat match goal with
         | H : _ /\ _ |- _ => destruct H
         | |- context [if ?b then _ else _] => destruct b
         | |- context [match ?x with Some _ => _ | None => _ end] => destruct x
         end;
  cbn [nodeOk kv s_size];
  rewrite ?andb_true_iff, ?Nat.ltb_lt, ?Nat.eqb_eq;
  repeat split; auto; try lia; try congruence.

Lemma tracks_generateObjectNode createId withFlag id o empty :
  (forall a, tracks (fun n id => id < n) (createId a)) ->
  tracks (okFor id) (generateObjectNode parse createId withFlag id o empty).
Proof.
  intros Hc. unfold generateObjectNode.
  eapply tracks_bind; [apply tracks_generateProperties, Hc|intros p].
  apply tracks_ret. ok_record.
Qed.

Lemma tracks_generateErrorOptions createId withFlag o :
  (forall a, tracks (fun n id => id < n) (createId a)) ->
  tracks (fun n p => match p with Some r => recordOk n r | None => True end)
    (generateErrorOptions parse createId withFlag o).
Proof.
  intros Hc. unfold generateErrorOptions.
  eapply tracks_bind_skip; [pres|intros ft].
  destruct (getErrorOptions ft o).
  - eapply tracks_bind; [apply tracks_generateProperties, Hc|intros p].
    apply tracks_ret. intros n Hp. exact Hp.
  - apply tracks_ret. intros n. exact I.
Qed.

Lemma tracks_generateAggregateErrorNode createId withFlag id o :
  (forall a, tracks (fun n id => id < n) (createId a)) ->
  tracks (okFor id) (generateAggregateErrorNode parse createId withFlag id o).
Proof.
  intros Hc. unfold generateAggregateErrorNode.
  eapply tracks_bind; [apply tracks_generateErrorOptions, Hc|intros p].
  eapply tracks_bind_skip; [pres|intros m].
  apply tracks_ret. intros n Hp Hid. cbn [nodeOk].
  rewrite andb_true_iff, Nat.ltb_lt. split; [exact Hid|].
  destruct p as [r|]; [|reflexivity]. destruct Hp as [Hl Hf].
  rewrite andb_true_iff, Nat.eqb_eq. split; assumption.
Qed.

Lemma tracks_generateErrorNode createId withFlag id o :
  (forall a, tracks (fun n id => id < n) (createId a)) ->
  tracks (okFor id) (generateErrorNode parse createId withFlag id o).
Proof.
  intros Hc. unfold generateErrorNode.
  eapply tracks_bind; [apply tracks_generateErrorOptions, Hc|intros p].
  eapply tracks_bind_skip; [pres|intros m].
  apply tracks_ret. intros n Hp Hid. cbn [nodeOk].
  rewrite andb_true_iff, Nat.ltb_lt. split; [exact Hid|].
  destruct p as [r|]; [|reflexivity]. destruct Hp as [Hl Hf].
  rewrite andb_true_iff, Nat.eqb_eq. split; assumption.
Qed.

Lemma tracks_parseError createId id o :
  (forall a, tracks (fun n id => id < n) (createId a)) ->
  tracks (okFor id) (parseError parse createId id o).
Proof.
  intros Hc. unfold parseError.
  eapply tracks_bind; [apply tracks_generateErrorOptions, Hc|intros p].
  eapply tracks_bind_skip; [pres|intros m].
  apply tracks_ret. intros n Hp Hid. cbn [nodeOk].
  rewrite andb_true_iff, Nat.ltb_lt. split; [exact Hid|].
  destruct p as [r|]; [|reflexivity]. destruct Hp as [Hl Hf].
  rewrite andb_true_iff, Nat.eqb_eq. split; assumption.
Qed.

Lemma tracks_generateHeadersNode id o : tracks (okFor id) (generateHeadersNode parse id o).
Proof.
  unfold generateHeadersNode.
  eapply tracks_bind_skip; [pres|intros items].
  eapply tracks_bind; [apply tracks_generatePlainProperties|intros e].
  apply tracks_ret. ok_record.
Qed.

Lemma tracks_generateFormDataNode id o : tracks (okFor id) (generateFormDataNode parse id o).
Proof.
  unfold generateFormDataNode.
  eapply tracks_bind_skip; [pres|intros items].
  eapply tracks_bind; [apply tracks_generatePlainProperties|intros e].
  apply tracks_ret. ok_record.
Qed.

Lemma tracks_generateBoxedNode id o : tracks (okFor id) (generateBoxedNode parse id o).
Proof. unfold generateBoxedNode. track. Qed.

Lemma tracks_generatePromiseNode id o : tracks (okFor id) (generatePromiseNode parse id o).
Proof. unfold generatePromiseNode. track. Qed.

#[local] Hint Resolve tracks_generateObjectNode tracks_generateAggregateErrorNode
  tracks_generateErrorNode tracks_parseError tracks_generateHeadersNode
  tracks_generateFormDataNode tracks_generateBoxedNode tracks_generatePromiseNode : track_db.


Variable parseObject : Value -> ParseM SerovalNode.
Hypothesis parseObject_tracks : forall v, tracks okNode (parseObject v).

#[local] Hint Resolve parseObject_tracks : track_db.

(** The body of a response: its bytes as a buffer node, or [null]. *)
Lemma tracks_responseBody sab (body : option (list N)) :
  (forall a, tracks okNode (sab a)) ->
  tracks okNode (match body with
                 | Some bytes => buffer <- heapAlloc (bufferObj bytes) ;; sab buffer
                 | None => ret NULL_NODE
                 end).
Proof. intros Hs. destruct body; track. Qed.

#[local] Hint Resolve tracks_responseBody : track_db.

Lemma tracks_async_parseBlob id o : tracks (okFor id) (AsyncParser.parseBlob parse id o).
Proof. unfold AsyncParser.parseBlob. track. Qed.

Lemma tracks_async_parseFile id o : tracks (okFor id) (AsyncParser.parseFile parse id o).
Proof. unfold AsyncParser.parseFile. track. Qed.

Lemma tracks_async_parseRequest id o :
  tracks (okFor id) (AsyncParser.parseRequest parseObject id o).
Proof. unfold AsyncParser.parseRequest. track. Qed.

Lemma tracks_async_parseResponse id o :
  tracks (okFor id) (AsyncParser.parseResponse parseObject id o).
Proof. unfold AsyncParser.parseResponse. track. Qed.

Lemma tracks_async_parseEvent id o :
  tracks (okFor id) (AsyncParser.parseEvent parseObject id o).
Proof. unfold AsyncParser.parseEvent. track. Qed.

Lemma tracks_async_parseCustomEvent id o :
  tracks (okFor id) (AsyncParser.parseCustomEvent parseObject id o).
Proof. unfold AsyncParser.parseCustomEvent. track. Qed.

Lemma tracks_async_parseObjectSlow id o :
  tracks (okFor id) (AsyncParser.parseObjectSlow parse id o).
Proof. unfold AsyncParser.parseObjectSlow. track. Qed.

#[local] Hint Resolve tracks_async_parseBlob tracks_async_parseFile
  tracks_async_parseRequest tracks_async_parseResponse tracks_async_parseEvent
  tracks_async_parseCustomEvent tracks_async_parseObjectSlow : track_db.

Lemma tracks_async_parseObjectLate id o :
  tracks (okFor id) (AsyncParser.parseObjectLate parse id o).
Proof. unfold AsyncParser.parseObjectLate. track. Qed.

#[local] Hint Resolve tracks_async_parseObjectLate : track_db.

Lemma tracks_async_parseObjectWebAPI id o :
  tracks (okFor id) (AsyncParser.parseObjectWebAPI parse parseObject id o).
Proof. unfold AsyncParser.parseObjectWebAPI. track. Qed.

#[local] Hint Resolve tracks_async_parseObjectWebAPI : track_db.

Lemma tracks_async_parseObjectCollection id o :
  tracks (okFor id) (AsyncParser.parseObjectCollection parse parseObject id o).
Proof. unfold AsyncParser.parseObjectCollection. track. Qed.

#[local] Hint Resolve tracks_async_parseObjectCollection : track_db.

Lemma tracks_async_parseObjectBigInt id o :
  tracks (okFor id) (AsyncParser.parseObjectBigInt parse parseObject id o).
Proof. unfold AsyncParser.parseObjectBigInt. track. Qed.

#[local] Hint Resolve tracks_async_parseObjectBigInt : track_db.

Lemma tracks_async_parseObjectTyped id o :
  tracks (okFor id) (AsyncParser.parseObjectTyped parse parseObject id o).
Proof. unfold AsyncParser.parseObjectTyped. track. Qed.

#[local] Hint Resolve tracks_async_parseObjectTyped : track_db.

Lemma tracks_async_parseObjectNew a id :
  tracks (okFor id) (AsyncParser.parseObjectNew parse parseObject a id).
Proof. unfold AsyncParser.parseObjectNew. track. Qed.

#[local] Hint Resolve tracks_async_parseObjectNew : track_db.

Lemma tracks_async_parseObjectStep v :
  tracks okNode (AsyncParser.parseObjectStep parse parseObject v).
Proof. unfold AsyncParser.parseObjectStep. track. Qed.

Lemma tracks_cross_serializeArrayBuffer a :
  tracks okNode (CrossAsyncParser.serializeArrayBuffer a).
Proof.
  intros st x st' Hok R. unfold CrossAsyncParser.serializeArrayBuffer in R.
  apply bind_Ok in R as (reg & st1 & R1 & R2). injection R1 as <- <-.
  destruct (p_refs st !! a) as [r|] eqn:E.
  - injection R2 as <- <-. split; [exact Hok|]. split; [lia|].
    intros n Hn. destruct Hok as (Hlt & _). apply Hlt in E.
    unfold okNode. simpl. apply Nat.ltb_lt. lia.
  - revert R2. generalize st x st' Hok. fold (tracks okNode
      (id <- createCrossIndexedValue a ;; o <- heapGet a ;; createArrayBufferNode id o)).
    track.
Qed.

#[local] Hint Resolve tracks_cross_serializeArrayBuffer : track_db.

Lemma tracks_cross_generateRequestNode id o :
  tracks (okFor id) (CrossAsyncParser.generateRequestNode parseObject id o).
Proof. unfold CrossAsyncParser.generateRequestNode. track. Qed.

Lemma tracks_cross_generateResponseNode id o :
  tracks (okFor id) (CrossAsyncParser.generateResponseNode parseObject id o).
Proof. unfold CrossAsyncParser.generateResponseNode. track. Qed.

Lemma tracks_cross_generateEventNode id o :
  tracks (okFor id) (CrossAsyncParser.generateEventNode parseObject id o).
Proof. unfold CrossAsyncParser.generateEventNode. track. Qed.

Lemma tracks_cross_generateCustomEventNode id o :
  tracks (okFor id) (CrossAsyncParser.generateCustomEventNode parseObject id o).
Proof. unfold CrossAsyncParser.generateCustomEventNode. track. Qed.

Lemma tracks_cross_parseObjectSlow id o :
  tracks (okFor id) (CrossAsyncParser.parseObjectSlow parse id o).
Proof. unfold CrossAsyncParser.parseObjectSlow. track. Qed.

#[local] Hint Resolve tracks_cross_generateRequestNode
  tracks_cross_generateResponseNode tracks_cross_generateEventNode
  tracks_cross_generateCustomEventNode tracks_cross_parseObjectSlow : track_db.

Lemma tracks_cross_parseObjectLate id o :
  tracks (okFor id) (CrossAsyncParser.parseObjectLate parse id o).
Proof. unfold CrossAsyncParser.parseObjectLate. track. Qed.

#[local] Hint Resolve tracks_cross_parseObjectLate : track_db.

Lemma tracks_cross_parseObjectWebAPI id o :
  tracks (okFor id) (CrossAsyncParser.parseObjectWebAPI parse parseObject id o).
Proof. unfold CrossAsyncParser.parseObjectWebAPI. track. Qed.

#[local] Hint Resolve tracks_cross_parseObjectWebAPI : track_db.

Lemma tracks_cross_parseObjectCollection id o :
  tracks (okFor id) (CrossAsyncParser.parseObjectCollection parse parseObject id o).
Proof. unfold CrossAsyncParser.parseObjectCollection. track. Qed.

#[local] Hint Resolve tracks_cross_parseObjectCollection : track_db.

Lemma tracks_cross_parseObjectBigInt id o :
  tracks (okFor id) (CrossAsyncParser.parseObjectBigInt parse parseObject id o).
Proof. unfold CrossAsyncParser.parseObjectBigInt. track. Qed.

#[local] Hint Resolve tracks_cross_parseObjectBigInt : track_db.

Lemma tracks_cross_parseObjectTyped id o :
  tracks (okFor id) (CrossAsyncParser.parseObjectTyped parse parseObject id o).
Proof. unfold CrossAsyncParser.parseObjectTyped. track. Qed.

#[local] Hint Resolve tracks_cross_parseObjectTyped : track_db.

Lemma tracks_cross_parseObjectNew a id :
  tracks (okFor id) (CrossAsyncParser.parseObjectNew parse parseObject a id).
Proof. unfold CrossAsyncParser.parseObjectNew. track. Qed.

Lemma tracks_cross_parseObjectStep v :
  tracks okNode (CrossAsyncParser.parseObjectStep parse parseObject v).
Proof.
  destruct v; try solve [unfold CrossAsyncParser.parseObjectStep; track].
  intros st x st' Hok R. destruct (p_refs st !! a) as [r|] eqn:E.
  - rewrite (cross_parseObjectStep_seen parse parseObject a r st E) in R.
    injection R as <- <-. split; [exact Hok|]. split; [lia|].
    intros n Hn. destruct Hok as (Hlt & _). apply Hlt in E.
    unfold okNode. simpl. apply Nat.ltb_lt. lia.
  - rewrite (cross_parseObjectStep_new parse parseObject a st E) in R.
    destruct (tracks_cross_parseObjectNew a _ _ _ _ (refs_ok_insert st a E Hok) R)
      as (Hok' & Hle & Hq).
    simpl in Hle. rewrite map_size_insert_None in Hle by exact E.
    split; [exact Hok'|]. split; [lia|]. intros n Hn. apply Hq; lia.
Qed.

Lemma tracks_sync_generateMapNode id o :
  tracks (okFor id) (SyncParser.generateMapNode parse id o).
Proof. unfold SyncParser.generateMapNode. track. Qed.

Lemma tracks_sync_generateSetNode id o :
  tracks (okFor id) (SyncParser.generateSetNode parse id o).
Proof. unfold SyncParser.generateSetNode. track. Qed.

Lemma tracks_sync_generateHeadersNode id o :
  tracks (okFor id) (SyncParser.generateHeadersNode parse id o).
Proof. unfold SyncParser.generateHeadersNode. track. Qed.

Lemma tracks_sync_generateFormDataNode id o :
  tracks (okFor id) (SyncParser.generateFormDataNode parse id o).
Proof. unfold SyncParser.generateFormDataNode. track. Qed.

Lemma tracks_sync_parseObjectSlow id o :
  tracks (okFor id) (SyncParser.parseObjectSlow parse id o).
Proof. unfold SyncParser.parseObjectSlow. track. Qed.

#[local] Hint Resolve tracks_sync_generateMapNode tracks_sync_generateSetNode
  tracks_sync_generateHeadersNode tracks_sync_generateFormDataNode
  tracks_sync_parseObjectSlow : track_db.

Lemma tracks_sync_parseObjectNew a id :
  tracks (okFor id) (SyncParser.parseObjectNew parse a id).
Proof. unfold SyncParser.parseObjectNew. track. Qed.

#[local] Hint Resolve tracks_sync_parseObjectNew : track_db.

Lemma tracks_sync_parseObject v : tracks okNode (SyncParser.parseObject parse v).
Proof. unfold SyncParser.parseObject. track. Qed.

#[local] Hint Resolve tracks_sync_parseObject : track_db.

Lemma tracks_sync_parseSyncStep v : tracks okNode (SyncParser.parseSyncStep parse v).
Proof. unfold SyncParser.parseSyncStep. track. Qed.

End WithParse.

Lemma tracks_async_parseWith parseObject v :
  (forall v', tracks okNode (parseObject v')) ->
  tracks okNode (AsyncParser.parseWith parseObject v).
Proof. intros Hp. unfold AsyncParser.parseWith. track. Qed.

Lemma tracks_crossParseAsyncWith parseObject v :
  (forall v', tracks okNode (parseObject v')) ->
  tracks okNode (CrossAsyncParser.crossParseAsyncWith parseObject v).
Proof. intros Hp. unfold CrossAsyncParser.crossParseAsyncWith. track. Qed.

Lemma tracks_parseSync fuel : forall v, tracks okNode (SyncParser.parseSync fuel v).
Proof.
  induction fuel as [|fuel IH]; intros v; simpl.
  - apply tracks_throw.
  - apply tracks_sync_parseSyncStep. exact IH.
Qed.

Lemma tracks_async_parseObject fuel :
  forall v, tracks okNode (AsyncParser.parseObject fuel v).
Proof.
  induction fuel as [|fuel IH]; intros v; simpl.
  - apply tracks_throw.
  - apply tracks_async_parseObjectStep; [|exact IH].
    intros v'. apply tracks_async_parseWith. exact IH.
Qed.

Lemma tracks_cross_parseObject fuel :
  forall v, tracks okNode (CrossAsyncParser.parseObject fuel v).
Proof.
  induction fuel as [|fuel IH]; intros v; simpl.
  - apply tracks_throw.
  - apply tracks_cross_parseObjectStep; [|exact IH].
    intros v'. apply tracks_crossParseAsyncWith. exact IH.
Qed.

(** X12: the node a parser returns is in order.  When one of the three
    parsers returns from a context whose ids are in order (a new context is),
    every id the node mentions, as the id of a node or as a reference to one,
    is below the number of ids assigned by then, and the length each array,
    Set, Map and record node states is the number of its entries. *)
Theorem parsed_node_in_order (fuel : nat) (v : Value) (st : ParseState)
    (node : SerovalNode) (st' : ParseState) :
  refs_ok st ->
  SyncParser.parseSync fuel v st = Ok (node, st')
  \/ AsyncParser.parse fuel v st = Ok (node, st')
  \/ CrossAsyncParser.crossParseAsync fuel v st = Ok (node, st') ->
  nodeOk (size (p_refs st')) node = true.
Proof.
  intros Hok R.
  assert (Ht : refs_ok st' /\ size (p_refs st) <= size (p_refs st')
               /\ forall n, size (p_refs st') <= n -> okNode n node).
  { destruct R as [R|[R|R]].
    - eapply tracks_parseSync; eassumption.
    - eapply tracks_async_parseWith; [|exact Hok|exact R].
      apply tracks_async_parseObject.
    - eapply tracks_crossParseAsyncWith; [|exact Hok|exact R].
      apply tracks_cross_parseObject. }
  destruct Ht as (_ & _ & Hq). apply Hq. lia.
Qed.

End ParserTracks.

Lemma unsupportedValue_tracks (Q : nat -> SerovalNode -> Prop) : tracks Q unsupportedValue.
Proof. apply tracks_throw. Qed.

(** X12 at work, on [const o = {}; const root = [o, o]; root.push(root)]: two
    ids are assigned, and the node mentions the ids 0 and 1 only. *)
Lemma parsed_node_in_order_witness :
  exists node st',
    AsyncParser.parse 3 (VObject 0) (parserCtx Feature.ALL heapShared) = Ok (node, st')
    /\ size (p_refs st') = 2
    /\ nodeOk (size (p_refs st')) node = true.
Proof.
  eexists _, _. split; [vm_compute; reflexivity|]. split; [vm_compute; reflexivity|].
  eapply (@parsed_node_in_order exampleParserHost
            (fun _ => unsupportedValue_tracks _) (fun _ => unsupportedValue_tracks _)
            (fun _ _ => unsupportedValue_tracks _) (fun _ _ => unsupportedValue_tracks _)
            (fun _ _ => unsupportedValue_tracks _) (fun _ _ => unsupportedValue_tracks _)
            (fun _ _ => unsupportedValue_tracks _)
            3 (VObject 0) (parserCtx Feature.ALL heapShared) _ _
            (refs_ok_parserCtx _ _)).
  right. left. vm_compute. reflexivity.
Defined.

(** ** The literal of an object *)

(** A number below zero: what [check >= 0 || check !== check] excludes. *)
Definition belowZero (n : JSNumber) : bool :=
  match n with
  | Finite z => (z <? 0)%Z
  | NegInfinity => true
  | _ => false
  end.

Lemma isIdentifier_belowZero (n : JSNumber) (valid : bool) :
  geZero n || notSelfEqual n || valid = negb (belowZero n && negb valid).
Proof.
  destruct n as [| | | |z]; destruct valid; simpl; try reflexivity.
  - rewrite orb_true_r, andb_false_r. reflexivity.
  - rewrite !orb_false_r, andb_true_r, Z.ltb_antisym, negb_involutive. reflexivity.
Qed.

Section ObjectLiterals.
Context {Ext : Type} `{Host Ext}.
Variable ser : SerovalNode -> SerM Ext string.

(** The key as the literal shows it: in double quotes when it reads as a
    number below zero and is no identifier, as it is otherwise. *)
Definition shownKey (key : string) : string :=
  if belowZero (ToNumber key) && negb (isValidIdentifier key) then quoted key else key.

(** [t] is a text [serializeProperty] returns for the property [key: val]:
    empty for a value that is an ancestor on the stack (the property becomes an
    assignment), else the key as shown, a colon and the text of the value. *)
Definition property_text (key : SerovalObjectRecordKey) (val : SerovalNode) (t : string)
    : Prop :=
  match key with
  | SymbolIterator => exists c c', serializeIterable ser val c = Ok (t, c')
  | KeyString key =>
      (t = "" /\ exists j (c : SerCtx Ext), val = IndexedValueNode j /\ j ∈ stack c)
      \/ (exists r c c', ser val c = Ok (r, c') /\ t = shownKey key +:+ ":" +:+ r)
  end.

Lemma serializeProperty_text (id : nat) (key : SerovalObjectRecordKey) (val : SerovalNode)
    (c : SerCtx Ext) (t : string) (c' : SerCtx Ext) :
  serializeProperty ser id key val c = Ok (t, c') -> property_text key val t.
Proof.
  intros R. destruct key as [key|]; simpl.
  - unfold serializeProperty in R. cbv zeta in R.
    apply bind_Ok in R as (onStack & c1 & R1 & R).
    destruct onStack.
    + left.
      apply bind_Ok in R as (refParam & c2 & _ & R).
      apply bind_Ok in R as (u & c3 & _ & R).
      apply bind_Ok in R as (u' & c4 & _ & R).
      injection R as <- _. split; [reflexivity|].
      destruct val; simpl in R1; try (injection R1 as E _; discriminate E).
      injection R1 as E _. apply bool_decide_eq_true_1 in E.
      eexists _, c. split; [reflexivity|exact E].
    + right.
      apply bind_Ok in R as (r & c2 & Rv & R). injection R as <- _.
      exists r, c1, c2. split; [exact Rv|].
      unfold shownKey. rewrite isIdentifier_belowZero.
      destruct (belowZero (ToNumber key) && negb (isValidIdentifier key)); reflexivity.
  - exists c, c'. exact R.
Qed.

Lemma serializePropertiesLoop_texts {K : Type} (toKey : K -> SerovalObjectRecordKey)
    (id : nat) (entries : list (K * SerovalNode)) :
  forall n result item c out c',
    serializePropertiesLoop toKey ser id n entries result item c = Ok (out, c') ->
    exists its,
      length its = n
      /\ Forall2 (fun e t => property_text (toKey (fst e)) (snd e) t) (firstn n entries) its
      /\ out = joinFrom result item its.
Proof.
  induction entries as [|[k v] rest IH]; intros n result item c out c' R.
  - destruct n as [|n]; simpl in R; [|discriminate R].
    injection R as <- _. exists []. repeat split. constructor.
  - destruct n as [|n]; simpl in R.
    + injection R as <- _. exists []. repeat split. constructor.
    + apply bind_Ok in R as (it & c1 & R1 & R2).
      apply IH in R2 as (its & Hlen & Hall & Hout).
      exists (it :: its). split; [simpl; lia|]. split; [|exact Hout].
      simpl. constructor; [|exact Hall].
      eapply serializeProperty_text. exact R1.
Qed.

Lemma serializeProperties_texts {K : Type} (toKey : K -> SerovalObjectRecordKey)
    (id : nat) (node : RecordNode K SerovalNode) (c : SerCtx Ext) (out : string)
    (c' : SerCtx Ext) :
  serializeProperties toKey ser id node c = Ok (out, c') ->
  exists texts,
    length texts = s_size node
    /\ Forall2 (fun e t => property_text (toKey (fst e)) (snd e) t)
         (firstn (s_size node) (kv node)) texts
    /\ out = "{" +:+ shownItems texts +:+ "}".
Proof.
  intros R. unfold serializeProperties in R. destruct (s_size node) as [|len'].
  - injection R as <- _. exists []. split; [reflexivity|]. split; [constructor|reflexivity].
  - apply bind_Ok in R as (u & c1 & _ & R).
    apply bind_Ok in R as (result & c2 & Rr & R).
    apply bind_Ok in R as (u2 & c3 & _ & R). injection R as <- _.
    destruct (kv node) as [|[k v] rest]; [discriminate Rr|].
    apply bind_Ok in Rr as (first & c1' & R1 & R2).
    apply serializePropertiesLoop_texts in R2 as (its & Hlen & Hall & Hout).
    exists (first :: its). split; [simpl; lia|]. split.
    + simpl. constructor; [|exact Hall]. eapply serializeProperty_text. exact R1.
    + rewrite <- joinFrom_shown, <- Hout. reflexivity.
Qed.


End ObjectLiterals.

